(** * Emacs/MPS integration layer (igc.c): a shallow embedding

    The development follows the C source of the incremental collector glue:
    the tagged-word macros, the [IGC_FIX] protocol, the object-format
    callbacks of the cons pool, the allocation loop around
    [mps_reserve]/[mps_commit], the finalization messages and the root
    registry built with [IGC_DEFINE_LIST].

    Configuration: [USE_LSB_TAG], no [WIDE_EMACS_INT], an LP64 target, so a
    [Lisp_Object], an [mps_word_t] and a pointer are all 64-bit words. *)

From Stdlib Require Import ZArith Lia List Bool QArith.
From stdpp Require Import base gmap list.

Local Open Scope Z_scope.

(** ** Machine words and byte-addressed memory *)

Module Mem.

(** [sizeof (mps_word_t)], in bytes. *)
Definition word_bytes : nat := 8.

Definition word_size : Z := Z.of_nat word_bytes.

Definition word_modulus : Z := 256 ^ word_size.

(** Unsigned wrap-around of pointer and word arithmetic. *)
Definition wrap (z : Z) : Z := z mod word_modulus.

(** Memory is an array of bytes indexed by address. *)
Definition mem : Type := Z -> Z.

Definition upd (m : mem) (a b : Z) : mem :=
  fun x => if x =? a then b else m x.

(** Little-endian read of [n] bytes starting at [a]. *)
Fixpoint load_bytes (n : nat) (m : mem) (a : Z) : Z :=
  match n with
  | O => 0
  | S k => m a mod 256 + 256 * load_bytes k m (a + 1)
  end.

(** Little-endian write of the [n] low bytes of [v] starting at [a]. *)
Fixpoint store_bytes (n : nat) (m : mem) (a v : Z) : mem :=
  match n with
  | O => m
  | S k => store_bytes k (upd m a (v mod 256)) (a + 1) (v / 256)
  end.

Definition load_word (m : mem) (a : Z) : Z := load_bytes word_bytes m a.

Definition store_word (m : mem) (a v : Z) : mem := store_bytes word_bytes m a v.

(** [memcpy (p, src, n)] for a source given as a list of bytes. *)
Fixpoint memcpy (m : mem) (p : Z) (src : list Z) : mem :=
  match src with
  | [] => m
  | b :: rest => memcpy (upd m p (b mod 256)) (p + 1) rest
  end.

Lemma upd_same m a b : upd m a b a = b.
Proof. unfold upd. now rewrite Z.eqb_refl. Qed.

Lemma upd_other m a b x : x <> a -> upd m a b x = m x.
Proof. unfold upd. intros H. apply Z.eqb_neq in H. now rewrite H. Qed.

Lemma store_bytes_outside n : forall m a v x,
  x < a \/ a + Z.of_nat n <= x -> store_bytes n m a v x = m x.
Proof.
  induction n as [|k IH]; intros m a v x Hx; simpl; [reflexivity|].
  rewrite IH by lia. apply upd_other. lia.
Qed.

Lemma load_bytes_ext n : forall m m' a,
  (forall x, a <= x < a + Z.of_nat n -> m x = m' x) ->
  load_bytes n m a = load_bytes n m' a.
Proof.
  induction n as [|k IH]; intros m m' a H; simpl; [reflexivity|].
  rewrite (H a) by lia. f_equal. f_equal. apply IH. intros x Hx. apply H. lia.
Qed.

Lemma load_bytes_range n : forall m a,
  0 <= load_bytes n m a < 256 ^ Z.of_nat n.
Proof.
  induction n as [|k IH]; intros m a.
  - simpl. lia.
  - rewrite Nat2Z.inj_succ, Z.pow_succ_r by lia.
    cbn [load_bytes]. specialize (IH m (a + 1)).
    pose proof (Z.mod_pos_bound (m a) 256 ltac:(lia)). lia.
Qed.

Lemma load_store_bytes_same n : forall m a v,
  load_bytes n (store_bytes n m a v) a = v mod 256 ^ Z.of_nat n.
Proof.
  induction n as [|k IH]; intros m a v.
  - simpl. now rewrite Z.mod_1_r.
  - rewrite Nat2Z.inj_succ, Z.pow_succ_r by lia. cbn [load_bytes store_bytes].
    rewrite IH. rewrite store_bytes_outside by lia. rewrite upd_same.
    rewrite Z.mod_mod by lia.
    rewrite Z.rem_mul_r by lia. reflexivity.
Qed.

Lemma load_store_bytes_disjoint n n' m a v a' :
  a' + Z.of_nat n' <= a \/ a + Z.of_nat n <= a' ->
  load_bytes n' (store_bytes n m a v) a' = load_bytes n' m a'.
Proof.
  intros H. apply load_bytes_ext. intros x Hx.
  apply store_bytes_outside. lia.
Qed.

Lemma load_word_range m a : 0 <= load_word m a < word_modulus.
Proof. apply load_bytes_range. Qed.

Lemma load_store_same m a v : load_word (store_word m a v) a = wrap v.
Proof. apply load_store_bytes_same. Qed.

Lemma load_store_disjoint m a v a' :
  a' + word_size <= a \/ a + word_size <= a' ->
  load_word (store_word m a v) a' = load_word m a'.
Proof. intros H. apply load_store_bytes_disjoint. exact H. Qed.

Lemma wrap_small v : 0 <= v < word_modulus -> wrap v = v.
Proof. intros H. unfold wrap. now apply Z.mod_small. Qed.

Lemma memcpy_outside src : forall m p x,
  x < p \/ p + Z.of_nat (length src) <= x -> memcpy m p src x = m x.
Proof.
  induction src as [|b rest IH]; intros m p x Hx; simpl; [reflexivity|].
  rewrite IH by (simpl in Hx; lia). apply upd_other. simpl in Hx. lia.
Qed.

Lemma memcpy_inside src : forall m p (i : nat) b,
  nth_error src i = Some b ->
  memcpy m p src (p + Z.of_nat i) = b mod 256.
Proof.
  induction src as [|c rest IH]; intros m p i b Hi.
  - destruct i; discriminate.
  - destruct i as [|j]; simpl in Hi.
    + injection Hi as ->. simpl. rewrite memcpy_outside by lia.
      rewrite Z.add_0_r. apply upd_same.
    + simpl memcpy. replace (p + Z.of_nat (S j)) with ((p + 1) + Z.of_nat j) by lia.
      now apply IH.
Qed.

End Mem.

(** ** Tagged words and the fix protocol *)

Module Fix.
Import Mem.

(** Modelled from the spec: lisp.h is not under src/; a value word keeps
    its tag in the low t bits, t = 3 ([GCTYPEBITS]), values are aligned to
    [GCALIGNMENT] = 8 bytes and [VALMASK] clears the tag bits. *)
Definition GCTYPEBITS : Z := 3.

(** Modelled from the spec: lisp.h's [GCALIGNMENT]; machine-word alignment
    equal to the value tag width, 1 << 3 bytes. *)
Definition GCALIGNMENT : Z := 8.

(** Modelled from the spec: lisp.h's [VALMASK] under [USE_LSB_TAG], the
    complement of the low t tag bits. *)
Definition VALMASK : Z := - Z.shiftl 1 GCTYPEBITS.

Definition IGC_TAG_MASK : Z := Z.lnot VALMASK.

Definition IGC_TAG (x : Z) : Z := Z.land x IGC_TAG_MASK.

Definition IGC_VAL (x : Z) : Z := Z.land x (Z.lnot IGC_TAG_MASK).

(** [mps_res_t]: [MPS_RES_OK] is the zero of the enumeration in mps.h. *)
Definition MPS_RES_OK : Z := 0.

(** What one application of the fix step does to the word of a slot. *)
Inductive fix_outcome (SS : Type) : Type :=
| Unchanged (ss : SS)
| Rewritten (w : Z) (ss : SS)
| Failed (res : Z) (ss : SS).

Arguments Unchanged {SS} ss.
Arguments Rewritten {SS} w ss.
Arguments Failed {SS} res ss.

(** A scanner either falls through to its next statement or has executed
    the [return res] of a failed [MPS_FIX2]. *)
Inductive scan_result (SS : Type) : Type :=
| Continue (m : mem) (ss : SS)
| Return (res : Z) (m : mem) (ss : SS).

Arguments Continue {SS} m ss.
Arguments Return {SS} res m ss.

Definition result_mem {SS} (r : scan_result SS) : mem :=
  match r with Continue m _ => m | Return _ m _ => m end.

Definition and_then {SS} (r : scan_result SS)
  (k : mem -> SS -> scan_result SS) : scan_result SS :=
  match r with
  | Continue m ss => k m ss
  | Return res m ss => Return res m ss
  end.

Section Protocol.

(** The members of [enum Lisp_Type] the macro names (lisp.h), and the
    address of the built-in symbol table [lispsym]. *)
Variables Lisp_Symbol Lisp_Int0 Lisp_Int1 : Z.
Variable lispsym : Z.

(** The collector side of a scan: the scan state [ss] behind
    [MPS_SCAN_BEGIN], and the two macros of mps.h as functions of it.
    [MPS_FIX2] yields its result code and the possibly updated reference. *)
Variable SS : Type.
Variable MPS_FIX1 : SS -> Z -> bool * SS.
Variable MPS_FIX2 : SS -> Z -> Z * Z * SS.

(** The body of [IGC_FIX] on the word read from the slot. *)
Definition fix_word (ss : SS) (word : Z) : fix_outcome SS :=
  let tag := Z.land word IGC_TAG_MASK in
  if negb (tag =? Lisp_Int0) && negb (tag =? Lisp_Int1) then
    let off := Z.lxor word tag in
    let ref := if tag =? Lisp_Symbol then wrap (lispsym + off) else off in
    let '(interesting, ss1) := MPS_FIX1 ss ref in
    if interesting then
      let '(res, ref', ss2) := MPS_FIX2 ss1 ref in
      if negb (res =? MPS_RES_OK) then Failed res ss2
      else
        let ref'' := if tag =? Lisp_Symbol then wrap (ref' - lispsym) else ref' in
        Rewritten (Z.lor ref'' tag) ss2
    else Unchanged ss1
  else Unchanged ss.

(** [IGC_FIX (ss, x)]: read [*p_], run the protocol, write back. *)
Definition IGC_FIX (x : Z) (m : mem) (ss : SS) : scan_result SS :=
  match fix_word ss (load_word m x) with
  | Unchanged ss' => Continue m ss'
  | Rewritten w ss' => Continue (store_word m x w) ss'
  | Failed res ss' => Return res m ss'
  end.

(** Modelled from the spec: [XSYMBOL] of lisp.h is not under src/; a
    symbol word resolves to symbol_table_base + payload. *)
Definition symbol_ref (word : Z) : Z := wrap (lispsym + IGC_VAL word).

(** *** Bit-level facts about the codec *)

Lemma IGC_TAG_MASK_ones : IGC_TAG_MASK = Z.ones 3.
Proof. reflexivity. Qed.

Lemma testbit_tag_mask n : 0 <= n -> Z.testbit IGC_TAG_MASK n = (n <? 3).
Proof.
  intros Hn. rewrite IGC_TAG_MASK_ones. apply Z.testbit_ones_nonneg; lia.
Qed.

Lemma IGC_TAG_mod w : IGC_TAG w = w mod GCALIGNMENT.
Proof.
  unfold IGC_TAG. rewrite IGC_TAG_MASK_ones, Z.land_ones by lia. reflexivity.
Qed.

Lemma IGC_TAG_range w : 0 <= IGC_TAG w < GCALIGNMENT.
Proof. rewrite IGC_TAG_mod. apply Z.mod_pos_bound. reflexivity. Qed.

Lemma lxor_tag_is_val w : Z.lxor w (Z.land w IGC_TAG_MASK) = IGC_VAL w.
Proof.
  unfold IGC_VAL. apply Z.bits_inj'. intros n Hn.
  rewrite Z.lxor_spec, !Z.land_spec, Z.lnot_spec, testbit_tag_mask by lia.
  destruct (Z.testbit w n), (n <? 3); reflexivity.
Qed.

Lemma aligned_low_bits a n :
  a mod GCALIGNMENT = 0 -> 0 <= n -> (n <? 3) = true -> Z.testbit a n = false.
Proof.
  intros Ha Hn Hlt. rewrite <- IGC_TAG_mod in Ha.
  assert (Hb : Z.testbit (IGC_TAG a) n = false) by (rewrite Ha; apply Z.bits_0).
  unfold IGC_TAG in Hb. rewrite Z.land_spec, testbit_tag_mask, Hlt in Hb by lia.
  now rewrite andb_true_r in Hb.
Qed.

Lemma IGC_VAL_aligned w : IGC_VAL w mod GCALIGNMENT = 0.
Proof.
  rewrite <- IGC_TAG_mod. unfold IGC_TAG, IGC_VAL. apply Z.bits_inj'. intros n Hn.
  rewrite !Z.land_spec, Z.lnot_spec, testbit_tag_mask, Z.bits_0 by lia.
  destruct (Z.testbit w n), (n <? 3); reflexivity.
Qed.

Lemma lor_val_tag w : Z.lor (IGC_VAL w) (IGC_TAG w) = w.
Proof.
  unfold IGC_TAG, IGC_VAL. apply Z.bits_inj'. intros n Hn.
  rewrite Z.lor_spec, !Z.land_spec, Z.lnot_spec, testbit_tag_mask by lia.
  destruct (Z.testbit w n), (n <? 3); reflexivity.
Qed.

Lemma IGC_TAG_lor a w :
  a mod GCALIGNMENT = 0 -> IGC_TAG (Z.lor a (IGC_TAG w)) = IGC_TAG w.
Proof.
  intros Ha. unfold IGC_TAG. apply Z.bits_inj'. intros n Hn.
  rewrite !Z.land_spec, Z.lor_spec, Z.land_spec, testbit_tag_mask by lia.
  destruct (n <? 3) eqn:E.
  - rewrite (aligned_low_bits a n Ha Hn E). now rewrite !andb_true_r.
  - now rewrite !andb_false_r.
Qed.

Lemma IGC_VAL_lor a w :
  a mod GCALIGNMENT = 0 -> IGC_VAL (Z.lor a (IGC_TAG w)) = a.
Proof.
  intros Ha. unfold IGC_TAG, IGC_VAL. apply Z.bits_inj'. intros n Hn.
  rewrite !Z.land_spec, Z.lor_spec, Z.land_spec, Z.lnot_spec, testbit_tag_mask by lia.
  destruct (n <? 3) eqn:E.
  - rewrite (aligned_low_bits a n Ha Hn E). now destruct (Z.testbit w n).
  - now rewrite andb_false_r, orb_false_r, andb_true_r.
Qed.

Lemma IGC_VAL_range w : 0 <= w -> 0 <= IGC_VAL w <= w.
Proof.
  intros Hw. pose proof (IGC_TAG_range w) as Ht.
  assert (H : IGC_VAL w + IGC_TAG w = w).
  { rewrite <- (lor_val_tag w) at 3. rewrite <- Z.lxor_lor, <- Z.add_nocarry_lxor.
    - reflexivity.
    - unfold IGC_VAL, IGC_TAG. apply Z.bits_inj'. intros n Hn.
      rewrite !Z.land_spec, Z.lnot_spec, Z.bits_0 by lia.
      destruct (Z.testbit w n), (Z.testbit IGC_TAG_MASK n); reflexivity.
    - unfold IGC_VAL, IGC_TAG. apply Z.bits_inj'. intros n Hn.
      rewrite !Z.land_spec, Z.lnot_spec, Z.bits_0 by lia.
      destruct (Z.testbit w n), (Z.testbit IGC_TAG_MASK n); reflexivity. }
  assert (0 <= IGC_VAL w).
  { unfold IGC_VAL. apply Z.land_nonneg. now left. }
  lia.
Qed.

Lemma wrap_mod_align z : wrap z mod GCALIGNMENT = z mod GCALIGNMENT.
Proof.
  unfold wrap. apply Z.mod_mod_divide. exists (2 ^ 61). reflexivity.
Qed.

Lemma IGC_TAG_wrap z : IGC_TAG (wrap z) = IGC_TAG z.
Proof. rewrite !IGC_TAG_mod. apply wrap_mod_align. Qed.

Lemma aligned_add a b :
  a mod GCALIGNMENT = 0 -> b mod GCALIGNMENT = 0 -> (a + b) mod GCALIGNMENT = 0.
Proof. intros Ha Hb. rewrite Z.add_mod, Ha, Hb by (unfold GCALIGNMENT; lia). reflexivity. Qed.

Lemma aligned_sub a b :
  a mod GCALIGNMENT = 0 -> b mod GCALIGNMENT = 0 -> (a - b) mod GCALIGNMENT = 0.
Proof. intros Ha Hb. rewrite Zminus_mod, Ha, Hb. reflexivity. Qed.



(** *** The protocol keeps tags and symbol offsets *)

(** [lispsym] is declared with [GCALIGNED] storage. *)
Hypothesis lispsym_aligned : lispsym mod GCALIGNMENT = 0.

(** The collector moves whole objects between pool addresses of the
    format's alignment, so an aligned reference stays aligned. *)
Hypothesis MPS_FIX2_aligned : forall ss ref res ref' ss',
  MPS_FIX2 ss ref = (res, ref', ss') ->
  res = MPS_RES_OK -> ref mod GCALIGNMENT = 0 -> ref' mod GCALIGNMENT = 0.

Lemma fix_word_tag ss w :
  match fix_word ss w with
  | Rewritten w' _ => IGC_TAG w' = IGC_TAG w
  | _ => True
  end.
Proof.
  unfold fix_word. fold (IGC_TAG w). rewrite lxor_tag_is_val.
  destruct (negb (IGC_TAG w =? Lisp_Int0) && negb (IGC_TAG w =? Lisp_Int1));
    [|exact I].
  pose proof (IGC_VAL_aligned w) as Hval.
  destruct (IGC_TAG w =? Lisp_Symbol).
  - assert (Href : wrap (lispsym + IGC_VAL w) mod GCALIGNMENT = 0).
    { rewrite wrap_mod_align. now apply aligned_add. }
    destruct (MPS_FIX1 ss _) as [[] ss1]; [|exact I].
    destruct (MPS_FIX2 ss1 _) as [[res ref'] ss2] eqn:E2.
    destruct (res =? MPS_RES_OK) eqn:Eres; simpl; [|exact I].
    apply Z.eqb_eq in Eres. apply IGC_TAG_lor.
    rewrite wrap_mod_align. apply aligned_sub; [|exact lispsym_aligned].
    exact (MPS_FIX2_aligned _ _ _ _ _ E2 Eres Href).
  - destruct (MPS_FIX1 ss _) as [[] ss1]; [|exact I].
    destruct (MPS_FIX2 ss1 _) as [[res ref'] ss2] eqn:E2.
    destruct (res =? MPS_RES_OK) eqn:Eres; simpl; [|exact I].
    apply Z.eqb_eq in Eres. apply IGC_TAG_lor.
    exact (MPS_FIX2_aligned _ _ _ _ _ E2 Eres Hval).
Qed.

(** C2: one application of the fix step never changes the low-3-bit tag:
    the word it computes for write-back carries the tag of the word it
    read, and so does the slot in memory once [IGC_FIX] is through with it,
    whichever of its exits (rewritten, left alone, failed) was taken. *)
Theorem fix_tag_preserving :
  (forall ss w w' ss',
      fix_word ss w = Rewritten w' ss' -> IGC_TAG w' = IGC_TAG w) /\
  (forall x m ss,
      IGC_TAG (load_word (result_mem (IGC_FIX x m ss)) x)
      = IGC_TAG (load_word m x)).
Proof.
  split.
  - intros ss w w' ss' H. pose proof (fix_word_tag ss w) as Ht.
    now rewrite H in Ht.
  - intros x m ss. unfold IGC_FIX.
    pose proof (fix_word_tag ss (load_word m x)) as Ht.
    destruct (fix_word ss (load_word m x)) as [ss'|w' ss'|res ss']; simpl;
      try reflexivity.
    rewrite load_store_same, IGC_TAG_wrap. exact Ht.
Qed.

(** The symbol tag is a reference tag, not one of the two fixnum tags. *)
Hypothesis symbol_not_int0 : Lisp_Symbol <> Lisp_Int0.
Hypothesis symbol_not_int1 : Lisp_Symbol <> Lisp_Int1.


End Protocol.

End Fix.

(** ** Object format of the cons pool: markers, padding, scanning *)

Module Format.
Import Mem Fix.

(** A call that may end in [emacs_abort]; [OutOfFuel] marks a loop of the
    model cut short, which the theorems below exclude. *)
Inductive outcome (A : Type) : Type :=
| Done (a : A)
| Aborted
| OutOfFuel.

Arguments Done {A} a.
Arguments Aborted {A}.
Arguments OutOfFuel {A}.

(** igc.h: [#define IGC_DEBUG 1]. *)
Definition igc_h_IGC_DEBUG : bool := true.

(** [IGC_ASSERT (expr)]: [if (!(expr)) emacs_abort (); else] when
    [IGC_DEBUG] is defined, nothing otherwise. *)
Definition IGC_ASSERT {A} (IGC_DEBUG expr : bool) (k : outcome A) : outcome A :=
  if IGC_DEBUG && negb expr then Aborted else k.

(** [struct igc_fwd { mps_addr_t sig; mps_addr_t new; }] and
    [struct igc_pad { mps_addr_t sig; }]. *)
Definition offsetof_sig : Z := 0.

Definition offsetof_new : Z := word_size.

Definition sizeof_igc_fwd : Z := 2 * word_size.

Definition sizeof_igc_pad : Z := word_size.

(** [static const char string[] = "padding"], with its terminating NUL. *)
Definition padding_string : list Z := [112; 97; 100; 100; 105; 110; 103; 0].

Definition sizeof_string : Z := Z.of_nat (length padding_string).

(** Modelled from the spec: [struct Lisp_Cons] is declared in lisp.h, not
    under src/; a cons is two value words, the car slot then the cdr slot. *)
Definition offsetof_car : Z := 0.

(** Modelled from the spec: the cdr slot of [struct Lisp_Cons] (lisp.h),
    the word after the car slot. *)
Definition offsetof_cdr : Z := word_size.

(** Modelled from the spec: [sizeof (struct Lisp_Cons)] (lisp.h), two
    value words. *)
Definition sizeof_Lisp_Cons : Z := 2 * word_size.

Definition NULL : Z := 0.

Section Markers.

(** Build flag and the two signatures [&fwdsig] and [&padsig]. *)
Variable IGC_DEBUG : bool.
Variables IGC_FWDSIG IGC_PADSIG : Z.

Definition forward (m : mem) (old new : Z) : mem :=
  store_word (store_word m (old + offsetof_sig) IGC_FWDSIG) (old + offsetof_new) new.

Definition is_forwarded (m : mem) (addr : Z) : Z :=
  if load_word m (addr + offsetof_sig) =? IGC_FWDSIG
  then load_word m (addr + offsetof_new)
  else NULL.

Fixpoint pad_loop (fuel : nat) (m : mem) (p end_ : Z) : outcome mem :=
  if p <? end_ then
    match fuel with
    | O => OutOfFuel
    | S k =>
        let n := Z.min sizeof_string (end_ - p) in
        pad_loop k (memcpy m p (firstn (Z.to_nat n) padding_string)) (p + n) end_
    end
  else Done m.

Definition pad (m : mem) (addr size : Z) : outcome mem :=
  IGC_ASSERT IGC_DEBUG (size <=? sizeof_igc_pad)
    (let m1 := store_word m (addr + offsetof_sig) IGC_PADSIG in
     let p := addr + sizeof_igc_pad in
     let end_ := addr + size in
     pad_loop (Z.to_nat (end_ - p)) m1 p end_).

Definition is_padding (m : mem) (addr : Z) : bool :=
  load_word m (addr + offsetof_sig) =? IGC_PADSIG.

Definition cons_skip (addr : Z) : Z := addr + sizeof_Lisp_Cons.

Definition cons_fwd (m : mem) (old new : Z) : outcome mem :=
  IGC_ASSERT IGC_DEBUG false (Done (forward m old new)).

Definition cons_isfwd (m : mem) (addr : Z) : outcome Z :=
  IGC_ASSERT IGC_DEBUG false (Done (is_forwarded m addr)).

Definition cons_pad (m : mem) (addr size : Z) : outcome mem :=
  pad m addr size.

(** *** Forwarding markers *)

Lemma is_forwarded_forward m old new :
  0 <= IGC_FWDSIG < word_modulus ->
  is_forwarded (forward m old new) old = wrap new.
Proof.
  intros Hsig. unfold is_forwarded, forward, offsetof_sig, offsetof_new.
  rewrite Z.add_0_r.
  rewrite load_store_disjoint by (unfold word_size, word_bytes; lia).
  rewrite load_store_same, (wrap_small _ Hsig), Z.eqb_refl.
  apply load_store_same.
Qed.

(** C8, as the code has it: [is_forwarded] yields the forwarding target
    when the first word is the forwarding signature and NULL otherwise, the
    target being the one [forward] stored; [cons_isfwd] returns just that
    in a build without [IGC_DEBUG], and with [IGC_DEBUG] its
    [IGC_ASSERT (false)] aborts every call. *)
Theorem cons_isfwd_guarded m addr :
  cons_isfwd m addr =
    (if IGC_DEBUG then Aborted
     else Done (if load_word m addr =? IGC_FWDSIG
                then load_word m (addr + word_size) else NULL)) /\
  (forall new, 0 <= IGC_FWDSIG < word_modulus -> 0 <= new < word_modulus ->
     cons_isfwd (forward m addr new) addr =
       if IGC_DEBUG then Aborted else Done new).
Proof.
  split.
  - unfold cons_isfwd, IGC_ASSERT, is_forwarded, offsetof_sig, offsetof_new.
    rewrite Z.add_0_r. now destruct IGC_DEBUG.
  - intros new Hsig Hnew. unfold cons_isfwd, IGC_ASSERT.
    destruct IGC_DEBUG; simpl; [reflexivity|].
    now rewrite is_forwarded_forward, wrap_small.
Qed.

(** *** Padding *)

Lemma padding_string_bytes i :
  (i < 8)%nat -> nth i padding_string 0 mod 256 = nth i padding_string 0.
Proof.
  intros Hi. do 8 (destruct i as [|i]; [reflexivity|]). lia.
Qed.

Lemma pad_loop_fills : forall fuel m p end_,
  (Z.to_nat (end_ - p) <= fuel)%nat ->
  exists m',
    pad_loop fuel m p end_ = Done m' /\
    (forall x, x < p \/ end_ <= x -> m' x = m x) /\
    (forall x, p <= x < end_ ->
       m' x = nth (Z.to_nat ((x - p) mod sizeof_string)) padding_string 0).
Proof.
  induction fuel as [|k IH]; intros m p end_ Hfuel.
  - assert (Hge : end_ <= p) by lia.
    exists m. simpl. apply Z.ltb_ge in Hge. rewrite Hge.
    apply Z.ltb_ge in Hge.
    split; [reflexivity|]. split; [reflexivity | intros; lia].
  - cbn [pad_loop]. destruct (p <? end_) eqn:Hlt.
    + apply Z.ltb_lt in Hlt.
      assert (Hs : sizeof_string = 8) by reflexivity.
      remember (Z.min sizeof_string (end_ - p)) as n eqn:En.
      assert (Hn : 1 <= n <= 8) by lia.
      set (m1 := memcpy m p (firstn (Z.to_nat n) padding_string)).
      destruct (IH m1 (p + n) end_ ltac:(lia)) as (m' & Hrun & Hout & Hin).
      assert (Hlen : length (firstn (Z.to_nat n) padding_string) = Z.to_nat n).
      { rewrite length_firstn. simpl length. lia. }
      exists m'. split; [exact Hrun|]. split.
      * intros x Hx. rewrite Hout by lia. unfold m1.
        apply memcpy_outside. rewrite Hlen. lia.
      * intros x Hx. destruct (Z_lt_le_dec x (p + n)) as [Hlo|Hhi].
        -- rewrite Hout by lia. unfold m1.
           replace x with (p + Z.of_nat (Z.to_nat (x - p))) at 1 by lia.
           assert (Hi : (Z.to_nat (x - p) < 8)%nat) by lia.
           rewrite (memcpy_inside _ _ _ _ (nth (Z.to_nat (x - p)) padding_string 0)).
           ++ rewrite padding_string_bytes by exact Hi.
              rewrite Hs, Z.mod_small by lia. reflexivity.
           ++ rewrite nth_error_firstn.
              destruct (Nat.ltb_spec (Z.to_nat (x - p)) (Z.to_nat n)); [|lia].
              apply nth_error_nth'. simpl. lia.
        -- rewrite Hin by lia.
           assert (Hfull : n = sizeof_string) by lia.
           rewrite Hfull. f_equal. f_equal.
           replace (x - (p + sizeof_string)) with ((x - p) + (-1) * sizeof_string) by lia.
           apply Z_mod_plus_full.
    + exists m. apply Z.ltb_ge in Hlt.
      split; [reflexivity|]. split; [reflexivity | intros; lia].
Qed.

(** Where the assertion lets [pad] through, it does what the format
    contract asks: the signature at [addr], filler up to [addr + size]. *)
Lemma pad_effect m addr size :
  0 <= IGC_PADSIG < word_modulus ->
  sizeof_igc_pad <= size ->
  IGC_DEBUG = false \/ size = sizeof_igc_pad ->
  exists m',
    pad m addr size = Done m' /\
    is_padding m' addr = true /\
    (forall x, addr + sizeof_igc_pad <= x < addr + size ->
       m' x = nth (Z.to_nat ((x - (addr + sizeof_igc_pad)) mod sizeof_string))
                  padding_string 0) /\
    (forall x, x < addr \/ addr + size <= x -> m' x = m x).
Proof.
  intros Hsig Hsize Hpass. unfold pad, IGC_ASSERT.
  assert (Hguard : IGC_DEBUG && negb (size <=? sizeof_igc_pad) = false).
  { destruct Hpass as [-> | ->]; [reflexivity|].
    rewrite Z.leb_refl. apply andb_false_r. }
  rewrite Hguard. cbv zeta.
  destruct (pad_loop_fills (Z.to_nat (addr + size - (addr + sizeof_igc_pad)))
              (store_word m (addr + offsetof_sig) IGC_PADSIG)
              (addr + sizeof_igc_pad) (addr + size) ltac:(lia))
    as (m' & Hrun & Hout & Hin).
  exists m'. split; [exact Hrun|]. split; [|split].
  - unfold is_padding, load_word.
    rewrite (load_bytes_ext _ m' (store_word m (addr + offsetof_sig) IGC_PADSIG)).
    + fold (load_word (store_word m (addr + offsetof_sig) IGC_PADSIG) (addr + offsetof_sig)).
      rewrite load_store_same, wrap_small by exact Hsig. apply Z.eqb_refl.
    + intros x Hx. apply Hout. unfold offsetof_sig, sizeof_igc_pad, word_size in *. lia.
  - exact Hin.
  - intros x Hx. rewrite Hout by (unfold sizeof_igc_pad, word_size, word_bytes in *; lia).
    apply store_bytes_outside. unfold offsetof_sig, sizeof_igc_pad, word_size, word_bytes in *. lia.
Qed.

(** C7 at the failing input: with [IGC_DEBUG] defined, the assertion
    [size <= sizeof padding] aborts [pad], and [cons_pad] with it, for
    every hole larger than the one-word marker. *)
Theorem pad_debug_aborts m addr size :
  IGC_DEBUG = true ->
  sizeof_igc_pad < size ->
  pad m addr size = Aborted /\ cons_pad m addr size = Aborted.
Proof.
  intros Hdbg Hsize. unfold cons_pad, pad, IGC_ASSERT. rewrite Hdbg.
  assert (Hle : (size <=? sizeof_igc_pad) = false) by (apply Z.leb_gt; exact Hsize).
  rewrite Hle. split; reflexivity.
Qed.

End Markers.

Section ConsScan.

Variables IGC_FWDSIG IGC_PADSIG : Z.
Variables Lisp_Symbol Lisp_Int0 Lisp_Int1 : Z.
Variable lispsym : Z.
Variable SS : Type.
Variable MPS_FIX1 : SS -> Z -> bool * SS.
Variable MPS_FIX2 : SS -> Z -> Z * Z * SS.

Local Abbreviation FIX := (IGC_FIX Lisp_Symbol Lisp_Int0 Lisp_Int1 lispsym SS MPS_FIX1 MPS_FIX2).

(** The [for] loop of [cons_scan]; [cons] is the loop variable. *)
Fixpoint cons_scan_loop (fuel : nat) (cons limit : Z) (m : mem) (ss : SS)
  : outcome (scan_result SS) :=
  if cons <? limit then
    match fuel with
    | O => OutOfFuel
    | S k =>
        if negb (is_forwarded IGC_FWDSIG m cons =? NULL) || is_padding IGC_PADSIG m cons
        then cons_scan_loop k (cons + sizeof_Lisp_Cons) limit m ss
        else
          match and_then (FIX (cons + offsetof_car) m ss)
                         (FIX (cons + offsetof_cdr)) with
          | Continue m' ss' => cons_scan_loop k (cons + sizeof_Lisp_Cons) limit m' ss'
          | Return res m' ss' => Done (Return res m' ss')
          end
    end
  else Done (Continue m ss).

(** [cons_scan (ss, base, limit)]: the result code with the memory and the
    scan state it leaves. *)
Definition cons_scan (base limit : Z) (m : mem) (ss : SS) : outcome (Z * mem * SS) :=
  match cons_scan_loop (Z.to_nat (limit - base)) base limit m ss with
  | Done (Continue m' ss') => Done (MPS_RES_OK, m', ss')
  | Done (Return res m' ss') => Done (res, m', ss')
  | Aborted => Aborted
  | OutOfFuel => OutOfFuel
  end.

(** The walk as the format contract words it: the objects of the range in
    address order, the reference slots of those that do not start with a
    marker, and the fix protocol over these slots up to its first failure. *)
Definition object_count (base limit : Z) : nat :=
  Z.to_nat ((limit - base + sizeof_Lisp_Cons - 1) / sizeof_Lisp_Cons).

Fixpoint addrs_from (n : nat) (obj : Z) : list Z :=
  match n with
  | O => []
  | S k => obj :: addrs_from k (cons_skip obj)
  end.

Definition object_addrs (base limit : Z) : list Z :=
  addrs_from (object_count base limit) base.

Definition starts_with_marker (m : mem) (obj : Z) : bool :=
  ((load_word m obj =? IGC_FWDSIG) && negb (load_word m (obj + word_size) =? NULL))
  || (load_word m obj =? IGC_PADSIG).

Definition object_slots (m : mem) (obj : Z) : list Z :=
  if starts_with_marker m obj then [] else [obj + offsetof_car; obj + offsetof_cdr].

Definition slots_to_fix (m : mem) (base limit : Z) : list Z :=
  concat (map (object_slots m) (object_addrs base limit)).

Fixpoint fix_all (slots : list Z) (m : mem) (ss : SS) : scan_result SS :=
  match slots with
  | [] => Continue m ss
  | x :: rest => and_then (FIX x m ss) (fix_all rest)
  end.

Definition scan_code (r : scan_result SS) : Z * mem * SS :=
  match r with
  | Continue m ss => (MPS_RES_OK, m, ss)
  | Return res m ss => (res, m, ss)
  end.

(** *** The scan is the fix protocol over the slots of the live objects *)

Lemma marker_test m obj :
  negb (is_forwarded IGC_FWDSIG m obj =? NULL) || is_padding IGC_PADSIG m obj
  = starts_with_marker m obj.
Proof.
  unfold is_forwarded, is_padding, starts_with_marker, offsetof_sig, offsetof_new.
  rewrite Z.add_0_r. destruct (load_word m obj =? IGC_FWDSIG); reflexivity.
Qed.

Lemma FIX_outside x m ss y :
  y < x \/ x + word_size <= y -> result_mem (FIX x m ss) y = m y.
Proof.
  intros Hy. unfold IGC_FIX.
  destruct (fix_word _ _ _ _ _ _ _ _) as [ss'|w' ss'|res ss']; simpl;
    try reflexivity.
  apply store_bytes_outside. exact Hy.
Qed.

Lemma and_then_mem (r : scan_result SS) k y v :
  result_mem r y = v ->
  (forall m ss, m y = v -> result_mem (k m ss) y = v) ->
  result_mem (and_then r k) y = v.
Proof. destruct r; simpl; auto. Qed.

Lemma fix_all_outside slots : forall m ss y,
  (forall x, In x slots -> y < x \/ x + word_size <= y) ->
  result_mem (fix_all slots m ss) y = m y.
Proof.
  induction slots as [|x rest IH]; intros m ss y Hy; simpl; [reflexivity|].
  apply and_then_mem.
  - apply FIX_outside. apply Hy. now left.
  - intros m' ss' Hm'. rewrite IH; [exact Hm'|]. intros z Hz. apply Hy. now right.
Qed.

Lemma fix_all_app s1 s2 m ss :
  fix_all (s1 ++ s2) m ss = and_then (fix_all s1 m ss) (fix_all s2).
Proof.
  revert m ss. induction s1 as [|x rest IH]; intros m ss; simpl; [reflexivity|].
  destruct (FIX x m ss) as [m' ss'|res m' ss']; simpl; [apply IH | reflexivity].
Qed.

Lemma fix_all_pair x y m ss :
  fix_all [x; y] m ss = and_then (FIX x m ss) (FIX y).
Proof.
  simpl. destruct (FIX x m ss) as [m' ss'|]; simpl; [|reflexivity].
  now destruct (FIX y m' ss').
Qed.

Lemma starts_with_marker_ext m m' obj :
  (forall y, obj <= y -> m' y = m y) ->
  starts_with_marker m' obj = starts_with_marker m obj.
Proof.
  intros H. unfold starts_with_marker, load_word.
  rewrite (load_bytes_ext _ m' m obj) by (intros; apply H; lia).
  rewrite (load_bytes_ext _ m' m (obj + word_size))
    by (intros; apply H; unfold word_size in *; lia).
  reflexivity.
Qed.

Lemma addrs_from_slots_ext n : forall m m' obj,
  (forall y, obj <= y -> m' y = m y) ->
  concat (map (object_slots m') (addrs_from n obj))
  = concat (map (object_slots m) (addrs_from n obj)).
Proof.
  induction n as [|k IH]; intros m m' obj H; simpl; [reflexivity|].
  unfold object_slots at 1 3. rewrite (starts_with_marker_ext m m' obj H).
  f_equal. apply IH. intros y Hy. apply H.
  unfold cons_skip, sizeof_Lisp_Cons, word_size in Hy. simpl in Hy. lia.
Qed.

Lemma object_count_done base limit :
  limit <= base -> object_count base limit = O.
Proof.
  intros H. unfold object_count.
  assert ((limit - base + sizeof_Lisp_Cons - 1) / sizeof_Lisp_Cons < 1); [|lia].
  change sizeof_Lisp_Cons with 16.
  apply Z.div_lt_upper_bound; lia.
Qed.

Lemma object_count_step base limit :
  base < limit ->
  object_count base limit = S (object_count (cons_skip base) limit).
Proof.
  intros H. unfold object_count, cons_skip. change sizeof_Lisp_Cons with 16.
  replace (limit - base + 16 - 1) with ((limit - (base + 16) + 16 - 1) + 1 * 16) by lia.
  rewrite Z.div_add by lia.
  assert (0 <= (limit - (base + 16) + 16 - 1) / 16) by (apply Z.div_pos; lia).
  lia.
Qed.

Lemma object_count_fuel base limit :
  (object_count base limit <= Z.to_nat (limit - base))%nat.
Proof.
  destruct (Z_lt_le_dec base limit) as [Hlt|Hge].
  - unfold object_count. change sizeof_Lisp_Cons with 16.
    assert ((limit - base + 16 - 1) / 16 <= limit - base); [|lia].
    apply Z.div_le_upper_bound; lia.
  - rewrite object_count_done by exact Hge. lia.
Qed.

Lemma cons_scan_loop_spec : forall fuel cons limit m ss,
  (object_count cons limit <= fuel)%nat ->
  cons_scan_loop fuel cons limit m ss
  = Done (fix_all (slots_to_fix m cons limit) m ss).
Proof.
  induction fuel as [|k IH]; intros cons limit m ss Hfuel.
  - destruct (Z_lt_le_dec cons limit) as [Hlt|Hge].
    + rewrite object_count_step in Hfuel by exact Hlt. lia.
    + simpl. apply Z.ltb_ge in Hge as Hb. rewrite Hb.
      unfold slots_to_fix, object_addrs. now rewrite object_count_done.
  - cbn [cons_scan_loop]. destruct (cons <? limit) eqn:Hb.
    + apply Z.ltb_lt in Hb.
      pose proof (object_count_step cons limit Hb) as Hstep.
      unfold slots_to_fix, object_addrs. rewrite Hstep. cbn [addrs_from map concat].
      rewrite marker_test. unfold object_slots at 1.
      fold (cons_skip cons).
      destruct (starts_with_marker m cons).
      * rewrite IH by lia. reflexivity.
      * rewrite fix_all_app, fix_all_pair.
        pose proof (fix_all_outside [cons + offsetof_car; cons + offsetof_cdr] m ss) as Hframe.
        rewrite fix_all_pair in Hframe.
        destruct (and_then (FIX (cons + offsetof_car) m ss) (FIX (cons + offsetof_cdr)))
          as [m' ss'|res m' ss'] eqn:E; [|reflexivity].
        simpl. rewrite IH by lia. unfold slots_to_fix, object_addrs.
        f_equal. f_equal. apply addrs_from_slots_ext.
        intros y Hy. simpl in Hframe. apply Hframe.
        intros x [<-|[<-|[]]];
          unfold cons_skip, sizeof_Lisp_Cons, offsetof_car, offsetof_cdr, word_size in *;
          simpl in *; lia.
    + apply Z.ltb_ge in Hb. unfold slots_to_fix, object_addrs.
      now rewrite object_count_done.
Qed.

(** C4, as the code has it: [cons_scan] returns, and what it has done is
    the fix protocol applied, in address order, to the car and then the cdr
    slot of every cons-sized object of the range that does not start with a
    marker, and to no slot of one that does, up to the first slot whose fix
    fails: there it returns that result code and visits nothing further.
    When no fix fails the code is [MPS_RES_OK]. No byte outside these
    slots is written. *)
Theorem cons_scan_fixes_slots base limit m ss :
  let slots := slots_to_fix m base limit in
  cons_scan base limit m ss = Done (scan_code (fix_all slots m ss)) /\
  (forall y, (forall x, In x slots -> y < x \/ x + word_size <= y) ->
             result_mem (fix_all slots m ss) y = m y).
Proof.
  split.
  - unfold cons_scan.
    rewrite cons_scan_loop_spec by apply object_count_fuel.
    now destruct (fix_all _ m ss).
  - intros y Hy. now apply fix_all_outside.
Qed.

End ConsScan.

End Format.

(** ** The first revision of the cons scanner *)

Module Early.
Import Mem Fix Format.

(** [IGC_TAG], [IGC_UNTAGGED] and [IGC_MAKE_LISP_OBJ] as this revision
    writes them, with the literal 0x7. *)
Definition IGC_TAG (obj : Z) : Z := Z.land obj 7.

Definition IGC_UNTAGGED (obj : Z) : Z := Z.land obj (Z.lnot 7).

Definition IGC_MAKE_LISP_OBJ (untagged tag : Z) : Z := Z.lor untagged tag.

Section Scan.

Variables Lisp_Int0 Lisp_Int1 : Z.
Variable SS : Type.
Variable MPS_FIX1 : SS -> Z -> bool * SS.
Variable MPS_FIX2 : SS -> Z -> Z * Z * SS.

Definition IGC_FIXNUMP (obj : Z) : bool :=
  (IGC_TAG obj =? Lisp_Int0) || (IGC_TAG obj =? Lisp_Int1).

Definition IGC_FIX_LISP_OBJ (p : Z) (m : mem) (ss : SS) : scan_result SS :=
  if negb (IGC_FIXNUMP (load_word m p)) then
    let untagged_ := IGC_UNTAGGED (load_word m p) in
    let addr_ := untagged_ in
    let '(interesting, ss1) := MPS_FIX1 ss addr_ in
    if interesting then
      let '(res_, addr', ss2) := MPS_FIX2 ss1 addr_ in
      if negb (res_ =? MPS_RES_OK) then Return res_ m ss2
      else
        let tag_ := IGC_TAG (load_word m p) in
        Continue (store_word m p (IGC_MAKE_LISP_OBJ addr' tag_)) ss2
    else Continue m ss1
  else Continue m ss.

(** [cons_scan (ss, base, limit)] of this revision: the cons at [base]. *)
Definition cons_scan (base limit : Z) (m : mem) (ss : SS) : Z * mem * SS :=
  let cons := base in
  scan_code SS
    (and_then (IGC_FIX_LISP_OBJ (cons + offsetof_car) m ss)
              (IGC_FIX_LISP_OBJ (cons + offsetof_cdr))).

Lemma IGC_FIX_LISP_OBJ_outside p m ss y :
  y < p \/ p + word_size <= y -> result_mem (IGC_FIX_LISP_OBJ p m ss) y = m y.
Proof.
  intros Hy. unfold IGC_FIX_LISP_OBJ.
  destruct (negb _); [|reflexivity].
  destruct (MPS_FIX1 ss _) as [[] ss1]; [|reflexivity].
  destruct (MPS_FIX2 ss1 _) as [[res ref'] ss2].
  destruct (negb _); [reflexivity|]. simpl.
  apply store_bytes_outside. exact Hy.
Qed.

(** Whatever [limit] is, this revision leaves every object after the
    first as it found it. *)
Lemma cons_scan_first_object_only base limit m ss y :
  y < base \/ base + sizeof_Lisp_Cons <= y ->
  snd (fst (cons_scan base limit m ss)) y = m y.
Proof.
  intros Hy. unfold cons_scan.
  assert (Hcar : y < base + offsetof_car \/ base + offsetof_car + word_size <= y)
    by (unfold offsetof_car, sizeof_Lisp_Cons, word_size in *; simpl in *; lia).
  assert (Hcdr : y < base + offsetof_cdr \/ base + offsetof_cdr + word_size <= y)
    by (unfold offsetof_cdr, sizeof_Lisp_Cons, word_size in *; simpl in *; lia).
  pose proof (IGC_FIX_LISP_OBJ_outside (base + offsetof_car) m ss y Hcar) as H1.
  destruct (IGC_FIX_LISP_OBJ (base + offsetof_car) m ss) as [m1 ss1|res m1 ss1];
    simpl in *; [|exact H1].
  pose proof (IGC_FIX_LISP_OBJ_outside (base + offsetof_cdr) m1 ss1 y Hcdr) as H2.
  destruct (IGC_FIX_LISP_OBJ (base + offsetof_cdr) m1 ss1); simpl in *; congruence.
Qed.

End Scan.

End Early.

(** ** Allocation through allocation points *)

Module Alloc.
Import Mem Fix Format.

(** What the allocation point answers in one round of the loop: the result
    code and block of [mps_reserve], and whether [mps_commit] succeeds. *)
Record attempt : Type := {
  reserve_res : Z;
  reserve_addr : Z;
  commit_ok : bool
}.

(** What the mutator does to the allocation point and to the block. *)
Inductive ap_event : Type :=
| Reserve (p size : Z)
| Store (addr v : Z)
| Commit (p size : Z) (ok : bool).

Definition is_store (e : ap_event) : bool :=
  match e with Store _ _ => true | _ => false end.

Record mutator : Type := {
  heap : mem;
  trace : list ap_event
}.

Definition mps_reserve (p size : Z) (s : mutator) : mutator :=
  {| heap := heap s; trace := trace s ++ [Reserve p size] |}.

Definition mps_commit (p size : Z) (ok : bool) (s : mutator) : mutator :=
  {| heap := heap s; trace := trace s ++ [Commit p size ok] |}.

(** An assignment to a [Lisp_Object] field of the block. *)
Definition assign (addr v : Z) (s : mutator) : mutator :=
  {| heap := store_word (heap s) addr v; trace := trace s ++ [Store addr v] |}.

(** Modelled from the spec: [make_lisp_ptr], [make_lisp_symbol] and [XCAR],
    [XCDR] are lisp.h's, not under src/; a value is make(payload, tag), a
    symbol's payload is its offset from the symbol table, and the fields of
    a cons are read at its payload address. *)
Definition make_lisp_ptr (p tag : Z) : Z := Z.lor p tag.

(** Modelled from the spec: lisp.h's [XCAR]; the car field at the payload
    address of a cons value. *)
Definition XCAR (m : mem) (c : Z) : Z := load_word m (IGC_VAL c + offsetof_car).

(** Modelled from the spec: lisp.h's [XCDR]; the cdr field at the payload
    address of a cons value. *)
Definition XCDR (m : mem) (c : Z) : Z := load_word m (IGC_VAL c + offsetof_cdr).

Section Allocation.

Variables Lisp_Symbol Lisp_Cons : Z.
Variable lispsym : Z.
(** [sizeof (struct Lisp_Symbol)], from lisp.h. *)
Variable sizeof_Lisp_Symbol : Z.

(** Modelled from the spec: lisp.h's [make_lisp_symbol]; a symbol value
    carries the offset of the symbol from the symbol table. *)
Definition make_lisp_symbol (sym : Z) : Z :=
  make_lisp_ptr (wrap (sym - lispsym)) Lisp_Symbol.

(** The [do ... while (!mps_commit (ap, p, size))] loop of [igc_make_cons],
    one element of the script per round. *)
Fixpoint igc_make_cons_loop (script : list attempt) (car cdr : Z) (s : mutator)
  : outcome (Z * mutator) :=
  match script with
  | [] => OutOfFuel
  | a :: rest =>
      let size := sizeof_Lisp_Cons in
      let p := reserve_addr a in
      let s := mps_reserve p size s in
      if negb (reserve_res a =? MPS_RES_OK) then Aborted
      else
        let cons := p in
        let s := assign (cons + offsetof_car) car s in
        let s := assign (cons + offsetof_cdr) cdr s in
        let s := mps_commit p size (commit_ok a) s in
        if commit_ok a then Done (p, s)
        else igc_make_cons_loop rest car cdr s
  end.

Definition igc_make_cons (script : list attempt) (car cdr : Z) (s : mutator)
  : outcome (Z * mutator) :=
  match igc_make_cons_loop script car cdr s with
  | Done (p, s') => Done (make_lisp_ptr p Lisp_Cons, s')
  | Aborted => Aborted
  | OutOfFuel => OutOfFuel
  end.

Fixpoint igc_alloc_symbol_loop (script : list attempt) (s : mutator)
  : outcome (Z * mutator) :=
  match script with
  | [] => OutOfFuel
  | a :: rest =>
      let size := sizeof_Lisp_Symbol in
      let p := reserve_addr a in
      let s := mps_reserve p size s in
      if negb (reserve_res a =? MPS_RES_OK) then Aborted
      else
        let s := mps_commit p size (commit_ok a) s in
        if commit_ok a then Done (p, s)
        else igc_alloc_symbol_loop rest s
  end.

Definition igc_alloc_symbol (script : list attempt) (s : mutator)
  : outcome (Z * mutator) :=
  match igc_alloc_symbol_loop script s with
  | Done (p, s') => Done (make_lisp_symbol p, s')
  | Aborted => Aborted
  | OutOfFuel => OutOfFuel
  end.

(** A round that reserves a block and loses it to a flip, and one that
    commits. *)
Definition retried (a : attempt) : Prop :=
  reserve_res a = MPS_RES_OK /\ commit_ok a = false.

Definition committed (a : attempt) : Prop :=
  reserve_res a = MPS_RES_OK /\ commit_ok a = true.

(** The events of one round of [igc_make_cons] and of [igc_alloc_symbol]. *)
Definition cons_round (car cdr : Z) (a : attempt) : list ap_event :=
  [Reserve (reserve_addr a) sizeof_Lisp_Cons;
   Store (reserve_addr a + offsetof_car) car;
   Store (reserve_addr a + offsetof_cdr) cdr;
   Commit (reserve_addr a) sizeof_Lisp_Cons (commit_ok a)].

Definition symbol_round (a : attempt) : list ap_event :=
  [Reserve (reserve_addr a) sizeof_Lisp_Symbol;
   Commit (reserve_addr a) sizeof_Lisp_Symbol (commit_ok a)].

(** *** What a returning allocation has done *)

Lemma igc_make_cons_loop_spec a rest car cdr : forall retries s,
  Forall retried retries ->
  committed a ->
  exists h,
    igc_make_cons_loop (retries ++ a :: rest) car cdr s
    = Done (reserve_addr a,
            {| heap := store_word
                         (store_word h (reserve_addr a + offsetof_car) car)
                         (reserve_addr a + offsetof_cdr) cdr;
               trace := trace s
                        ++ concat (map (cons_round car cdr) (retries ++ [a])) |}).
Proof.
  induction retries as [|r retries IH]; intros s Hretries [Hres Hok].
  - exists (heap s). simpl. rewrite Hres, Hok. simpl.
    unfold mps_commit, assign, mps_reserve. cbn [heap trace].
    rewrite <- !app_assoc. reflexivity.
  - inversion Hretries as [|? ? [Hr1 Hr2] Hrest]; subst.
    cbn [app igc_make_cons_loop]. rewrite Hr1, Hr2. cbn [Z.eqb negb MPS_RES_OK].
    destruct (IH (mps_commit (reserve_addr r) sizeof_Lisp_Cons false
                    (assign (reserve_addr r + offsetof_cdr) cdr
                       (assign (reserve_addr r + offsetof_car) car
                          (mps_reserve (reserve_addr r) sizeof_Lisp_Cons s))))
                Hrest (conj Hres Hok)) as [h Hh].
    exists h. rewrite Hh. f_equal. f_equal. f_equal.
    unfold mps_commit, assign, mps_reserve. cbn [heap trace app map concat].
    unfold cons_round at 2. rewrite Hr2. rewrite <- !app_assoc. reflexivity.
Qed.

(** A call returns only out of a round that committed, all rounds before
    it having reserved a block and lost it. *)
Lemma igc_make_cons_loop_returns car cdr : forall script s p s',
  igc_make_cons_loop script car cdr s = Done (p, s') ->
  exists retries a rest,
    script = retries ++ a :: rest /\
    Forall retried retries /\ committed a /\ p = reserve_addr a.
Proof.
  induction script as [|r script IH]; intros s p s' H; [discriminate|].
  cbn [igc_make_cons_loop] in H.
  destruct (Z.eqb_spec (reserve_res r) MPS_RES_OK) as [Hres|]; [|discriminate].
  cbn [negb] in H. destruct (commit_ok r) eqn:Hok.
  - injection H as <- _. exists [], r, script.
    split; [reflexivity|]. split; [constructor|]. now split.
  - destruct (IH _ _ _ H) as (retries & a & rest & -> & Hretries & Ha & ->).
    exists (r :: retries), a, rest.
    split; [reflexivity|]. split; [|now split].
    constructor; [now split | exact Hretries].
Qed.

(** C1: when the rounds before the committing one were all lost to a
    retry, [igc_make_cons] returns the committed block under the cons tag,
    with [car] and [cdr] in its two fields; and every round, the retried
    ones included, went through reserve, the store of the car, the store of
    the cdr and commit, in this order. *)
Theorem igc_make_cons_fields retries a rest car cdr s :
  Forall retried retries ->
  committed a ->
  reserve_addr a mod GCALIGNMENT = 0 ->
  0 <= Lisp_Cons < GCALIGNMENT ->
  0 <= car < word_modulus ->
  0 <= cdr < word_modulus ->
  exists c s',
    igc_make_cons (retries ++ a :: rest) car cdr s = Done (c, s') /\
    c = make_lisp_ptr (reserve_addr a) Lisp_Cons /\
    IGC_TAG c = Lisp_Cons /\
    XCAR (heap s') c = car /\
    XCDR (heap s') c = cdr /\
    trace s' = trace s ++ concat (map (cons_round car cdr) (retries ++ [a])).
Proof.
  intros Hretries Hcommitted Halign Htag Hcar Hcdr.
  destruct (igc_make_cons_loop_spec a rest car cdr retries s Hretries Hcommitted)
    as [h Hh].
  unfold igc_make_cons. rewrite Hh.
  assert (Ht : IGC_TAG Lisp_Cons = Lisp_Cons).
  { rewrite IGC_TAG_mod. apply Z.mod_small. exact Htag. }
  assert (Hval : IGC_VAL (make_lisp_ptr (reserve_addr a) Lisp_Cons) = reserve_addr a).
  { unfold make_lisp_ptr. rewrite <- Ht. now apply IGC_VAL_lor. }
  eexists. eexists. split; [reflexivity|]. split; [reflexivity|].
  split; [|split; [|split]].
  - unfold make_lisp_ptr. rewrite <- Ht at 1. rewrite IGC_TAG_lor by exact Halign.
    exact Ht.
  - unfold XCAR. rewrite Hval. cbn [heap].
    rewrite load_store_disjoint
      by (unfold offsetof_car, offsetof_cdr, word_size, word_bytes; lia).
    rewrite load_store_same. now apply wrap_small.
  - unfold XCDR. rewrite Hval. cbn [heap].
    rewrite load_store_same. now apply wrap_small.
  - reflexivity.
Qed.

Lemma igc_alloc_symbol_loop_spec a rest : forall retries s,
  Forall retried retries ->
  committed a ->
  igc_alloc_symbol_loop (retries ++ a :: rest) s
  = Done (reserve_addr a,
          {| heap := heap s;
             trace := trace s ++ concat (map symbol_round (retries ++ [a])) |}).
Proof.
  induction retries as [|r retries IH]; intros s Hretries [Hres Hok].
  - simpl. rewrite Hres, Hok. simpl.
    unfold mps_commit, mps_reserve. cbn [heap trace].
    rewrite <- !app_assoc. reflexivity.
  - inversion Hretries as [|? ? [Hr1 Hr2] Hrest]; subst.
    cbn [app igc_alloc_symbol_loop]. rewrite Hr1, Hr2. cbn [Z.eqb negb MPS_RES_OK].
    rewrite (IH _ Hrest (conj Hres Hok)). f_equal. f_equal. f_equal.
    unfold mps_commit, mps_reserve. cbn [heap trace app map concat].
    unfold symbol_round at 2. rewrite Hr2. rewrite <- !app_assoc. reflexivity.
Qed.

Lemma symbol_rounds_store_nothing l :
  forallb (fun e => negb (is_store e)) (concat (map symbol_round l)) = true.
Proof. induction l as [|a l IH]; simpl; [reflexivity | exact IH]. Qed.

(** C5 at the failing path: a returning [igc_alloc_symbol] has committed
    its block without one store to it; the heap is the heap it started
    with, so the symbol's slots hold whatever the block held before. *)
Theorem igc_alloc_symbol_commits_unwritten retries a rest s :
  Forall retried retries ->
  committed a ->
  exists s',
    igc_alloc_symbol (retries ++ a :: rest) s
    = Done (make_lisp_symbol (reserve_addr a), s') /\
    heap s' = heap s /\
    trace s' = trace s ++ concat (map symbol_round (retries ++ [a])) /\
    forallb (fun e => negb (is_store e))
            (concat (map symbol_round (retries ++ [a]))) = true.
Proof.
  intros Hretries Hcommitted. unfold igc_alloc_symbol.
  rewrite (igc_alloc_symbol_loop_spec a rest retries s Hretries Hcommitted).
  eexists. split; [reflexivity|]. split; [reflexivity|]. split; [reflexivity|].
  apply symbol_rounds_store_nothing.
Qed.

End Allocation.

End Alloc.

(** ** Finalization messages and the idle step *)

Module Finalization.
Import Mem Fix Format.

(** A message of the arena's queue: its type and, for a finalization
    message, the block [mps_message_finalization_ref] yields. *)
Record mps_message : Type := {
  message_type : Z;
  finalization_ref : Z
}.

(** The mutator's view of the arena: memory, the message queue, and the
    calls of [run_finalizer_function] made so far, each with the finalizer
    object it was made for. *)
Record world : Type := {
  memory : mem;
  queue : list mps_message;
  finalized : list (Z * Z)
}.

(** [mps_message_queue_type (&type, arena)]: the type of the first message. *)
Definition mps_message_queue_type (q : list mps_message) : option Z :=
  match q with
  | [] => None
  | msg :: _ => Some (message_type msg)
  end.

(** [mps_message_get (&msg, arena, type)]: take the first message of [type]. *)
Fixpoint mps_message_get (type : Z) (q : list mps_message)
  : option (mps_message * list mps_message) :=
  match q with
  | [] => None
  | msg :: rest =>
      if message_type msg =? type then Some (msg, rest)
      else
        match mps_message_get type rest with
        | Some (found, rest') => Some (found, msg :: rest')
        | None => None
        end
  end.

Section Drain.

Variable IGC_DEBUG : bool.
(** [Qnil], the offset of [function] in [struct Lisp_Finalizer] (lisp.h)
    and the value of [mps_message_type_finalization ()] (mps.h). *)
Variable Qnil : Z.
Variable offsetof_function : Z.
Variable mps_message_type_finalization : Z.
(** What calling the Lisp function does to memory. *)
Variable run_finalizer_function : Z -> mem -> mem.
(** [mps_arena_step (arena, interval, multiplier)]: the collector's work. *)
Variable mps_arena_step : world -> Q -> Q -> world.

Definition do_finalize (addr : Z) (w : world) : world :=
  let fin := addr in
  if negb (load_word (memory w) (fin + offsetof_function) =? Qnil) then
    let fun_ := load_word (memory w) (fin + offsetof_function) in
    let m := store_word (memory w) (fin + offsetof_function) Qnil in
    {| memory := run_finalizer_function fun_ m;
       queue := queue w;
       finalized := finalized w ++ [(addr, fun_)] |}
  else w.

(** The [while] loop of [handle_messages]. *)
Fixpoint handle_messages_loop (fuel : nat) (w : world) : outcome world :=
  match mps_message_queue_type (queue w) with
  | None => Done w
  | Some type =>
      match fuel with
      | O => OutOfFuel
      | S k =>
          match mps_message_get type (queue w) with
          | Some (msg, rest) =>
              IGC_ASSERT IGC_DEBUG (type =? mps_message_type_finalization)
                (let addr := finalization_ref msg in
                 let w := {| memory := memory w; queue := rest;
                             finalized := finalized w |} in
                 handle_messages_loop k (do_finalize addr w))
          | None => handle_messages_loop k w
          end
      end
  end.

Definition handle_messages (w : world) : outcome world :=
  handle_messages_loop (length (queue w)) w.

Definition igc_handle_messages (w : world) : outcome world :=
  handle_messages w.

Definition igc_on_idle (w : world) : world :=
  mps_arena_step w (1 # 100)%Q 0%Q.

(** The collector posting messages between two drains. *)
Definition post (batch : list mps_message) (w : world) : world :=
  {| memory := memory w; queue := queue w ++ batch; finalized := finalized w |}.

(** A sequence of drains, each after a batch of messages was posted. *)
Fixpoint drains (batches : list (list mps_message)) (w : world) : outcome world :=
  match batches with
  | [] => Done w
  | batch :: later =>
      match handle_messages (post batch w) with
      | Done w' => drains later w'
      | Aborted => Aborted
      | OutOfFuel => OutOfFuel
      end
  end.

(** *** Draining runs each finalizer at most once *)

(** The blocks registered for finalization: [PVEC_FINALIZER] objects. *)
Variable is_finalizer : Z -> Prop.

Hypothesis Qnil_word : 0 <= Qnil < word_modulus.

(** Two finalizer objects do not share their [function] word. *)
Hypothesis finalizers_apart : forall a b,
  is_finalizer a -> is_finalizer b -> a <> b ->
  a + word_size <= b \/ b + word_size <= a.

(** Lisp code has no way to store into the [function] slot of a finalizer. *)
Hypothesis callbacks_keep_cleared : forall f m a,
  is_finalizer a ->
  load_word m (a + offsetof_function) = Qnil ->
  load_word (run_finalizer_function f m) (a + offsetof_function) = Qnil.

Definition finalization_message (msg : mps_message) : Prop :=
  message_type msg = mps_message_type_finalization /\
  is_finalizer (finalization_ref msg).

(** Every finalizer that has run is a finalizer with a cleared callback,
    and none has run twice. *)
Definition one_shot (w : world) : Prop :=
  List.NoDup (map fst (finalized w)) /\
  Forall (fun e => snd e <> Qnil) (finalized w) /\
  forall a, In a (map fst (finalized w)) ->
    is_finalizer a /\ load_word (memory w) (a + offsetof_function) = Qnil.

Lemma NoDup_snoc {A} (l : list A) x :
  List.NoDup l -> ~ In x l -> List.NoDup (l ++ [x]).
Proof.
  induction l as [|y l IH]; intros Hl Hx; simpl.
  - constructor; [intros [] | constructor].
  - inversion Hl as [|? ? Hy Hl']; subst. constructor.
    + rewrite in_app_iff. intros [H|[H|[]]]; [now apply Hy|].
      subst. apply Hx. now left.
    + apply IH; [exact Hl'|]. intros H. apply Hx. now right.
Qed.

Lemma do_finalize_queue addr w : queue (do_finalize addr w) = queue w.
Proof. unfold do_finalize. now destruct (negb _). Qed.

Lemma do_finalize_one_shot addr w :
  is_finalizer addr -> one_shot w -> one_shot (do_finalize addr w).
Proof.
  intros Hfin (Hnd & Hfun & Hcleared). unfold do_finalize.
  destruct (Z.eqb_spec (load_word (memory w) (addr + offsetof_function)) Qnil)
    as [Hnil|Hset]; cbn [negb]; [exact (conj Hnd (conj Hfun Hcleared))|].
  assert (Hnew : ~ In addr (map fst (finalized w))).
  { intros Hin. now destruct (Hcleared addr Hin). }
  unfold one_shot. cbn [finalized memory]. split; [|split].
  - rewrite map_app. simpl. now apply NoDup_snoc.
  - apply Forall_app. split; [exact Hfun|]. constructor; [exact Hset | constructor].
  - intros a H. rewrite map_app, in_app_iff in H. simpl in H.
    destruct H as [H|[<-|[]]].
    + destruct (Hcleared a H) as [Ha Hnil]. split; [exact Ha|].
      apply callbacks_keep_cleared; [exact Ha|].
      rewrite load_store_disjoint; [exact Hnil|].
      assert (Hne : a <> addr) by (intros ->; now apply Hnew).
      destruct (finalizers_apart a addr Ha Hfin Hne); lia.
    + split; [exact Hfin|].
      apply callbacks_keep_cleared; [exact Hfin|].
      rewrite load_store_same. now apply wrap_small.
Qed.

Lemma handle_messages_loop_spec : forall fuel w,
  (length (queue w) <= fuel)%nat ->
  Forall finalization_message (queue w) ->
  one_shot w ->
  exists w',
    handle_messages_loop fuel w = Done w' /\ queue w' = [] /\ one_shot w'.
Proof.
  induction fuel as [|k IH]; intros w Hfuel Hq Hinv.
  - destruct (queue w) as [|msg rest] eqn:E; [|simpl in Hfuel; lia].
    exists w. simpl. rewrite E. auto.
  - destruct (queue w) as [|msg rest] eqn:E.
    + exists w. simpl. rewrite E. auto.
    + inversion Hq as [|? ? [Htype Hfin] Hrest]; subst.
      cbn [handle_messages_loop]. rewrite E. cbn [mps_message_queue_type mps_message_get].
      rewrite Z.eqb_refl. unfold IGC_ASSERT. rewrite Htype, Z.eqb_refl.
      rewrite andb_false_r. cbv zeta.
      apply IH.
      * rewrite do_finalize_queue. simpl in *. lia.
      * rewrite do_finalize_queue. exact Hrest.
      * apply do_finalize_one_shot; [exact Hfin | exact Hinv].
Qed.

Lemma drains_spec : forall batches w,
  queue w = [] ->
  Forall (Forall finalization_message) batches ->
  one_shot w ->
  exists w', drains batches w = Done w' /\ queue w' = [] /\ one_shot w'.
Proof.
  induction batches as [|batch later IH]; intros w Hq Hb Hinv.
  - exists w. auto.
  - inversion Hb as [|? ? Hbatch Hlater]; subst. cbn [drains].
    destruct (handle_messages_loop_spec (length (queue (post batch w))) (post batch w))
      as (w1 & Hrun & Hq1 & Hinv1).
    + lia.
    + unfold post. cbn [queue]. rewrite Hq. exact Hbatch.
    + exact Hinv.
    + unfold handle_messages. rewrite Hrun. now apply IH.
Qed.

(** *** Draining runs the finalizer of every message *)

(** The drain as the channel's contract words it: [do_finalize] on the
    referent of each message, in the order of the queue. *)
Definition finalize_all (refs : list Z) (w : world) : world :=
  fold_left (fun w addr => do_finalize addr w) refs w.

(** The world once every message has been taken off the queue. *)
Definition drained (w : world) : world :=
  {| memory := memory w; queue := []; finalized := finalized w |}.

Definition callback_of (w : world) (addr : Z) : Z :=
  load_word (memory w) (addr + offsetof_function).

Lemma do_finalize_drained addr m q log :
  drained (do_finalize addr {| memory := m; queue := q; finalized := log |})
  = do_finalize addr {| memory := m; queue := []; finalized := log |}.
Proof.
  unfold do_finalize, drained. cbn [memory queue finalized].
  now destruct (negb (load_word m (addr + offsetof_function) =? Qnil)).
Qed.

Lemma finalize_all_queue refs : forall w, queue (finalize_all refs w) = queue w.
Proof.
  induction refs as [|a rest IH]; intros w; [reflexivity|].
  cbn [finalize_all fold_left]. fold (finalize_all rest (do_finalize a w)).
  now rewrite IH, do_finalize_queue.
Qed.

Lemma handle_messages_loop_all : forall fuel w,
  (length (queue w) <= fuel)%nat ->
  Forall finalization_message (queue w) ->
  handle_messages_loop fuel w
  = Done (finalize_all (map finalization_ref (queue w)) (drained w)).
Proof.
  assert (Hempty : forall w, queue w = [] -> drained w = w)
    by (intros [m q log] E; cbn in E; now subst q).
  induction fuel as [|k IH]; intros w Hfuel Hq.
  - destruct (queue w) as [|msg rest] eqn:E; [|simpl in Hfuel; lia].
    simpl. now rewrite E, Hempty.
  - destruct (queue w) as [|msg rest] eqn:E.
    + simpl. now rewrite E, Hempty.
    + inversion Hq as [|? ? [Htype Hfin] Hrest]; subst.
      cbn [handle_messages_loop]. rewrite E.
      cbn [mps_message_queue_type mps_message_get].
      rewrite Z.eqb_refl. unfold IGC_ASSERT. rewrite Htype, Z.eqb_refl.
      rewrite andb_false_r. cbv zeta.
      rewrite IH.
      * rewrite do_finalize_queue. cbn [queue map finalize_all fold_left].
        now rewrite do_finalize_drained.
      * rewrite do_finalize_queue. simpl in *. lia.
      * rewrite do_finalize_queue. exact Hrest.
Qed.

Lemma finalize_all_app r1 r2 w :
  finalize_all (r1 ++ r2) w = finalize_all r2 (finalize_all r1 w).
Proof. apply fold_left_app. Qed.

Lemma drains_all : forall batches w,
  queue w = [] ->
  Forall (Forall finalization_message) batches ->
  drains batches w
  = Done (finalize_all (map finalization_ref (concat batches)) w).
Proof.
  induction batches as [|batch later IH]; intros w Hq Hb; [reflexivity|].
  inversion Hb as [|? ? Hbatch Hlater]; subst. cbn [drains].
  unfold handle_messages. rewrite handle_messages_loop_all.
  - assert (Hw : drained (post batch w) = w).
    { destruct w as [m q log]. cbn in Hq. subst q. reflexivity. }
    rewrite Hw. unfold post at 1. cbn [queue]. rewrite Hq. cbn [app].
    rewrite IH by (rewrite ?finalize_all_queue; assumption).
    cbn [concat]. now rewrite map_app, finalize_all_app.
  - lia.
  - unfold post. cbn [queue]. rewrite Hq. exact Hbatch.
Qed.

Lemma do_finalize_logs addr w e :
  In e (finalized w) -> In e (finalized (do_finalize addr w)).
Proof.
  intros H. unfold do_finalize. destruct (negb _); [|exact H].
  cbn [finalized]. apply in_or_app. now left.
Qed.

Lemma finalize_all_logs refs : forall w e,
  In e (finalized w) -> In e (finalized (finalize_all refs w)).
Proof.
  induction refs as [|a rest IH]; intros w e H; [exact H|].
  cbn [finalize_all fold_left]. apply IH. now apply do_finalize_logs.
Qed.

Lemma do_finalize_runs addr w :
  callback_of w addr <> Qnil ->
  In (addr, callback_of w addr) (finalized (do_finalize addr w)).
Proof.
  unfold callback_of, do_finalize. intros H. apply Z.eqb_neq in H. rewrite H.
  cbn [negb finalized]. apply in_or_app. right. now left.
Qed.

Lemma do_finalize_cleared a b w :
  is_finalizer a -> is_finalizer b ->
  a = b \/ callback_of w a = Qnil ->
  callback_of (do_finalize b w) a = Qnil.
Proof.
  intros Ha Hb H. unfold callback_of, do_finalize.
  destruct (Z.eqb_spec (load_word (memory w) (b + offsetof_function)) Qnil)
    as [Hnil|Hset]; cbn [negb memory].
  - destruct H as [->|H]; [exact Hnil | exact H].
  - apply callbacks_keep_cleared; [exact Ha|].
    destruct (Z.eq_dec a b) as [->|Hne].
    + rewrite load_store_same. now apply wrap_small.
    + destruct H as [H|H]; [now elim Hne|].
      rewrite load_store_disjoint; [exact H|].
      destruct (finalizers_apart a b Ha Hb Hne); lia.
Qed.

Lemma finalize_all_cleared a refs : forall w,
  is_finalizer a -> Forall is_finalizer refs ->
  callback_of w a = Qnil ->
  callback_of (finalize_all refs w) a = Qnil.
Proof.
  induction refs as [|b rest IH]; intros w Ha Hrefs H; [exact H|].
  inversion Hrefs as [|? ? Hb Hrest]; subst.
  cbn [finalize_all fold_left]. apply IH; [exact Ha | exact Hrest|].
  apply do_finalize_cleared; [exact Ha | exact Hb | now right].
Qed.

(** C9: [do_finalize] runs the callback only when it is non-nil and hands
    it a memory in which the callback field is already nil; a drain pops
    messages until the queue is empty and is [do_finalize] on the finalizer
    of each message in turn, so the callback a finalizer holds when its
    message is reached is run if it is not nil, and the field is nil from
    then on; and over any sequence of drains, with whatever finalization
    messages posted before each, no finalizer object has its callback run
    twice. *)
Theorem finalizer_runs_at_most_once batches w :
  queue w = [] ->
  finalized w = [] ->
  Forall (Forall finalization_message) batches ->
  (forall addr w0,
      let slot := addr + offsetof_function in
      let callback := load_word (memory w0) slot in
      (callback = Qnil -> do_finalize addr w0 = w0) /\
      (callback <> Qnil ->
         load_word (store_word (memory w0) slot Qnil) slot = Qnil /\
         memory (do_finalize addr w0)
         = run_finalizer_function callback (store_word (memory w0) slot Qnil) /\
         finalized (do_finalize addr w0) = finalized w0 ++ [(addr, callback)])) /\
  exists w',
    drains batches w = Done w' /\
    queue w' = [] /\
    List.NoDup (map fst (finalized w')) /\
    Forall (fun e => snd e <> Qnil) (finalized w') /\
    w' = finalize_all (map finalization_ref (concat batches)) w /\
    (forall before msg after,
        concat batches = before ++ msg :: after ->
        let reached := finalize_all (map finalization_ref before) w in
        let addr := finalization_ref msg in
        (callback_of reached addr <> Qnil ->
         In (addr, callback_of reached addr) (finalized w')) /\
        callback_of w' addr = Qnil).
Proof.
  intros Hq Hlog Hb. split.
  - intros addr w0 slot callback. unfold do_finalize. fold slot. fold callback.
    split; intros Hc.
    + apply Z.eqb_eq in Hc. now rewrite Hc.
    + apply Z.eqb_neq in Hc. rewrite Hc. cbn [negb memory finalized].
      rewrite load_store_same. repeat split. now apply wrap_small.
  - destruct (drains_spec batches w Hq Hb) as (w' & Hrun & Hq' & Hnd & Hfun & _).
    + unfold one_shot. rewrite Hlog. simpl.
      split; [constructor|]. split; [constructor|]. intros a [].
    + assert (Hall : w' = finalize_all (map finalization_ref (concat batches)) w).
      { rewrite (drains_all batches w Hq Hb) in Hrun. now injection Hrun. }
      exists w'. split; [exact Hrun|]. split; [exact Hq'|]. split; [exact Hnd|].
      split; [exact Hfun|]. split; [exact Hall|].
      intros before msg after Hsplit reached addr.
      assert (Hfm : Forall finalization_message (concat batches)).
      { clear -Hb. induction Hb as [|batch later Hbatch _ IH]; [constructor|].
        cbn [concat]. apply List.Forall_app. now split. }
      rewrite Hsplit in Hfm. apply List.Forall_app in Hfm. destruct Hfm as [_ Hfm].
      pose proof (List.Forall_inv Hfm) as [_ Hfin].
      pose proof (List.Forall_inv_tail Hfm) as Hafter.
      assert (Hrefs : Forall is_finalizer (map finalization_ref after)).
      { clear -Hafter. induction Hafter as [|m' rest [_ Hm'] _ IH]; [constructor|].
        cbn [map]. now constructor. }
      rewrite Hall, Hsplit, map_app, finalize_all_app. cbn [map].
      fold reached. cbn [finalize_all fold_left]. fold addr.
      fold (finalize_all (map finalization_ref after) (do_finalize addr reached)).
      split.
      * intros Hset. apply finalize_all_logs. now apply do_finalize_runs.
      * apply finalize_all_cleared; [exact Hfin | exact Hrefs|].
        apply do_finalize_cleared; [exact Hfin | exact Hfin | now left].
Qed.

(** *** The idle hook steps the collector and nothing else *)

(** The collector runs no Lisp and hands its messages to the queue; it
    takes none back. *)
Definition posts_only (step : world -> Q -> Q -> world) : Prop :=
  forall w interval multiplier,
    finalized (step w interval multiplier) = finalized w /\
    exists posted, queue (step w interval multiplier) = queue w ++ posted.

(** C6, as the code has it: [igc_on_idle] is one [mps_arena_step] with an
    interval of 0.01 s and multiplier 0; it runs no finalizer and takes no
    message off the queue, which only [igc_handle_messages] drains. *)
Theorem on_idle_steps_only w :
  posts_only mps_arena_step ->
  igc_on_idle w = mps_arena_step w (1 # 100)%Q 0%Q /\
  finalized (igc_on_idle w) = finalized w /\
  exists posted, queue (igc_on_idle w) = queue w ++ posted.
Proof.
  intros Hstep. unfold igc_on_idle.
  destruct (Hstep w (1 # 100)%Q 0%Q) as [Hlog Hq]. auto.
Qed.

End Drain.

End Finalization.

(** ** The root registry *)

Module Registry.
Import Format.

(** [struct igc_root] and the node type [igc_root_list] that
    [IGC_DEFINE_LIST (igc_root)] declares. *)
Record igc_root : Type := {
  gc : Z;
  root : Z;
  start : Z;
  end_ : Z
}.

Record igc_root_list : Type := {
  next : Z;
  prev : Z;
  d : igc_root
}.

Definition set_next (n : igc_root_list) (p : Z) : igc_root_list :=
  {| next := p; prev := prev n; d := d n |}.

Definition set_prev (n : igc_root_list) (p : Z) : igc_root_list :=
  {| next := next n; prev := p; d := d n |}.

(** The malloc heap of list nodes, and the [roots] field of each
    [struct igc], by address. *)
Record store : Type := {
  nodes : gmap Z igc_root_list;
  roots : gmap Z Z
}.

(** [igc_root_list_push (&gc->roots, d)], where [r] is the block
    [xzalloc] hands out. A dangling pointer has no result. *)
Definition igc_root_list_push (head : Z) (data : igc_root) (r : Z) (st : store)
  : option (Z * store) :=
  match roots st !! head with
  | None => None
  | Some first =>
      let node := {| next := first; prev := NULL; d := data |} in
      let ns := <[r := node]> (nodes st) in
      let linked :=
        if negb (next node =? NULL) then
          match ns !! next node with
          | Some n => Some (<[next node := set_prev n r]> ns)
          | None => None
          end
        else Some ns in
      match linked with
      | Some ns' => Some (r, {| nodes := ns'; roots := <[head := r]> (roots st) |})
      | None => None
      end
  end.

(** [igc_root_list_remove (&d, head, r)]: the data of [r] and the store
    without it. *)
Definition igc_root_list_remove (head : Z) (r : Z) (st : store)
  : option (igc_root * store) :=
  match nodes st !! r with
  | None => None
  | Some node =>
      let after :=
        if negb (next node =? NULL) then
          match nodes st !! next node with
          | Some n => Some (<[next node := set_prev n (prev node)]> (nodes st))
          | None => None
          end
        else Some (nodes st) in
      match after with
      | None => None
      | Some ns =>
          let before :=
            if negb (prev node =? NULL) then
              match ns !! prev node with
              | Some n => Some (<[prev node := set_next n (next node)]> ns, roots st)
              | None => None
              end
            else
              match roots st !! head with
              | Some _ => Some (ns, <[head := next node]> (roots st))
              | None => None
              end in
          match before with
          | None => None
          | Some (ns', hd) => Some (d node, {| nodes := delete r ns'; roots := hd |})
          end
      end
  end.

Definition register_root (g root_ start_ end' : Z) (r : Z) (st : store)
  : option (Z * store) :=
  let data := {| gc := g; root := root_; start := start_; end_ := end' |} in
  igc_root_list_push g data r st.

Definition deregister_root (r : Z) (st : store) : option (Z * store) :=
  match nodes st !! r with
  | None => None
  | Some node =>
      match igc_root_list_remove (gc (d node)) r st with
      | Some (data, st') => Some (root data, st')
      | None => None
      end
  end.

(** The nodes at addresses [l], linked in this order from [first], the
    node before them being [before]. *)
Fixpoint linked (ns : gmap Z igc_root_list) (before : Z) (l : list Z) (first : Z)
  : Prop :=
  match l with
  | [] => first = NULL
  | a :: rest =>
      first = a /\ a <> NULL /\
      exists node, ns !! a = Some node /\ prev node = before /\
                   linked ns a rest (next node)
  end.

(** The registry of [g] is the well-formed list of the nodes [l]. *)
Definition registry (st : store) (g : Z) (l : list Z) : Prop :=
  exists first, roots st !! g = Some first /\ linked (nodes st) NULL l first.

(** The roots a registry holds, first to last. *)
Definition registered (st : store) (l : list Z) : list (option Z) :=
  map (fun a => (fun n => root (d n)) <$> nodes st !! a) l.

(** *** Register, then deregister *)

Lemma linked_frame ns ns' : forall l before first,
  (forall a, In a l -> ns' !! a = ns !! a) ->
  linked ns before l first -> linked ns' before l first.
Proof.
  induction l as [|a rest IH]; intros before first Hsame H; simpl in *; [exact H|].
  destruct H as (-> & Hnn & node & Hnode & Hprev & Hrest).
  split; [reflexivity|]. split; [exact Hnn|]. exists node.
  split; [rewrite Hsame by (now left); exact Hnode|]. split; [exact Hprev|].
  apply IH; [|exact Hrest]. intros b Hb. apply Hsame. now right.
Qed.

Lemma linked_lookup ns : forall l before first a,
  linked ns before l first -> In a l -> is_Some (ns !! a).
Proof.
  induction l as [|b rest IH]; intros before first a H Ha; simpl in *; [destruct Ha|].
  destruct H as (-> & _ & node & Hnode & _ & Hrest).
  destruct Ha as [<-|Ha]; [now exists node | now apply (IH _ _ _ Hrest)].
Qed.

Lemma linked_prev_set ns : forall l before first a node,
  before <> NULL ->
  linked ns before l first -> In a l -> ns !! a = Some node -> prev node <> NULL.
Proof.
  induction l as [|b rest IH]; intros before first a node Hb H Ha Hnode;
    simpl in *; [destruct Ha|].
  destruct H as (-> & Hnn & n & Hn & Hprev & Hrest).
  destruct Ha as [<-|Ha].
  - rewrite Hn in Hnode. injection Hnode as <-. now rewrite Hprev.
  - now apply (IH _ _ _ _ Hnn Hrest Ha).
Qed.

Lemma set_prev_back n p : prev n = p -> set_prev (set_prev n 0) p = n.
Proof. intros <-. now destruct n. Qed.

(** C10: on a well-formed registry, [register_root] with a fresh block
    links it in front, and [deregister_root] of the handle it returned
    gives back the [mps_root_t] that was registered and leaves the store
    exactly as it was before the registration: the same nodes with the same
    links and the same head. *)
Theorem register_deregister_round_trip st g l r root_ start_ end' :
  registry st g l ->
  r <> NULL ->
  nodes st !! r = None ->
  exists st1,
    register_root g root_ start_ end' r st = Some (r, st1) /\
    registry st1 g (r :: l) /\
    registered st1 (r :: l) = Some root_ :: registered st l /\
    deregister_root r st1 = Some (root_, st) /\
    registry st g l.
Proof.
  intros Hreg Hr Hfresh. pose proof Hreg as (first & Hhead & Hlinked).
  destruct st as [ns rs]. cbn [nodes roots] in *.
  unfold register_root, igc_root_list_push. cbn [nodes roots next]. rewrite Hhead.
  destruct l as [|h rest]; simpl in Hlinked.
  - subst first. cbn [Z.eqb NULL negb]. eexists. split; [reflexivity|].
    split; [|split; [|split; [|exact Hreg]]].
    + exists r. cbn [nodes roots]. split; [apply lookup_insert_eq|].
      simpl. split; [reflexivity|]. split; [exact Hr|].
      eexists. split; [apply lookup_insert_eq|]. now split.
    + unfold registered. cbn [map nodes]. now rewrite lookup_insert_eq.
    + unfold deregister_root, igc_root_list_remove. cbn [nodes roots].
      rewrite !lookup_insert_eq. cbn [d gc next prev Z.eqb NULL negb root].
      rewrite ?lookup_insert_eq.
      rewrite delete_insert_id by exact Hfresh.
      rewrite insert_insert_eq, insert_id by exact Hhead. reflexivity.
  - destruct Hlinked as (-> & Hh & node & Hnode & Hprev & Hrest).
    assert (Hrh : r <> h) by (intros ->; congruence).
    assert (Hh' : (h =? NULL) = false) by (apply Z.eqb_neq; exact Hh).
    rewrite Hh'. cbn [negb]. rewrite lookup_insert_ne by exact Hrh. rewrite Hnode.
    eexists. split; [reflexivity|].
    assert (Hrest_fresh : forall a, In a rest -> a <> r /\ a <> h).
    { intros a Ha. split.
      - intros ->. destruct (linked_lookup _ _ _ _ _ Hrest Ha) as [n Hn]. congruence.
      - intros ->. apply (linked_prev_set _ _ _ _ _ node Hh Hrest Ha Hnode).
        exact Hprev. }
    split; [|split; [|split; [|exact Hreg]]].
    + exists r. cbn [nodes roots]. split; [apply lookup_insert_eq|].
      simpl. split; [reflexivity|]. split; [exact Hr|].
      eexists. split.
      { rewrite lookup_insert_ne by (intros E; apply Hrh; now rewrite E).
        apply lookup_insert_eq. }
      split; [reflexivity|]. cbn [next]. split; [reflexivity|]. split; [exact Hh|].
      eexists. split; [apply lookup_insert_eq|]. split; [reflexivity|].
      cbn [set_prev next]. apply (linked_frame ns); [|exact Hrest].
      intros a Ha. destruct (Hrest_fresh a Ha) as [Har Hah].
      rewrite !lookup_insert_ne by (intros E; congruence). reflexivity.
    + unfold registered. cbn [map nodes].
      rewrite (lookup_insert_ne _ h r) by (intros E; apply Hrh; now rewrite E).
      rewrite !lookup_insert_eq. cbn [fmap option_fmap option_map set_prev d root].
      rewrite Hnode. cbn [option_map]. f_equal. f_equal.
      apply map_ext_in. intros a Ha. destruct (Hrest_fresh a Ha) as [Har Hah].
      rewrite !lookup_insert_ne by (intros E; congruence). reflexivity.
    + unfold deregister_root, igc_root_list_remove. cbn [nodes roots].
      rewrite (lookup_insert_ne _ h r) by (intros E; apply Hrh; now rewrite E).
      rewrite lookup_insert_eq. cbn [d gc next prev Z.eqb NULL negb root].
      rewrite Hh'. cbn [negb]. rewrite lookup_insert_eq.
      rewrite lookup_insert_eq.
      rewrite insert_insert_eq.
      rewrite (delete_insert_ne _ r h) by exact Hrh.
      rewrite delete_insert_id by exact Hfresh.
      rewrite insert_insert_eq, (insert_id rs) by exact Hhead.
      f_equal. f_equal. f_equal.
      apply insert_id. rewrite Hnode. f_equal.
      destruct node as [nx pv dt]. cbn in *. now subst pv.
Qed.

End Registry.

(** ** A concrete configuration: Emacs with low-bit tags on LP64 *)

Module Emacs.
Import Mem Fix Format Alloc Finalization Registry.

(** [enum Lisp_Type] under [USE_LSB_TAG]. *)
Definition Lisp_Symbol : Z := 0.

Definition Lisp_Int0 : Z := 2.

Definition Lisp_Cons : Z := 3.

Definition Lisp_Int1 : Z := 6.

Definition Qnil : Z := 0.

(** Addresses chosen for the statics: [lispsym], [&fwdsig], [&padsig]. *)
Definition lispsym : Z := 65536.

Definition IGC_FWDSIG : Z := 32768.

Definition IGC_PADSIG : Z := 32776.

Definition MPS_RES_FAIL : Z := 1.

(** A scan state that records the references the collector was asked
    about; a collector that finds every reference interesting and moves its
    object one page up; and one whose [MPS_FIX2] fails. *)
Definition asked : Type := list Z.

Definition FIX1_all (ss : asked) (ref : Z) : bool * asked := (true, ss ++ [ref]).

Definition FIX2_move (ss : asked) (ref : Z) : Z * Z * asked :=
  (MPS_RES_OK, ref + 4096, ss).

Definition FIX2_fail (ss : asked) (ref : Z) : Z * Z * asked :=
  (MPS_RES_FAIL, ref, ss).

Definition zeroed : mem := fun _ => 0.

(** Two conses at 0 and 16, each with a cons reference in its car and the
    fixnum 0 in its cdr. *)
Definition two_conses : mem :=
  store_word (store_word (store_word (store_word zeroed 0 (8192 + Lisp_Cons))
                                     8 Lisp_Int0)
                         16 (8208 + Lisp_Cons))
             24 Lisp_Int0.

Lemma word_modulus_value : word_modulus = 18446744073709551616.
Proof. reflexivity. Qed.

Lemma lispsym_is_aligned : lispsym mod GCALIGNMENT = 0.
Proof. reflexivity. Qed.

Lemma FIX2_move_aligned ss ref res ref' ss' :
  FIX2_move ss ref = (res, ref', ss') ->
  res = MPS_RES_OK -> ref mod GCALIGNMENT = 0 -> ref' mod GCALIGNMENT = 0.
Proof.
  unfold FIX2_move. intros H _ Href. injection H as _ <- _.
  apply aligned_add; [exact Href | reflexivity].
Qed.

Lemma small_word v : 0 <= v < 65536 -> 0 <= v < word_modulus.
Proof. rewrite word_modulus_value. lia. Qed.

(** Rounds of an allocation point, and a mutator with nothing allocated. *)
Definition retry_round : attempt :=
  {| reserve_res := MPS_RES_OK; reserve_addr := 4096; commit_ok := false |}.

Definition commit_round : attempt :=
  {| reserve_res := MPS_RES_OK; reserve_addr := 8192; commit_ok := true |}.

Definition fresh : mutator := {| heap := zeroed; trace := [] |}.

(** Two finalizer objects at 64 and 128 with callbacks 1001 and 1002, the
    messages for them, a callback that leaves a note at 1024, a collector
    at rest and one that posts a message. *)
Definition offsetof_function : Z := 8.

Definition mps_message_type_finalization : Z := 0.

Definition is_finalizer (a : Z) : Prop := a = 64 \/ a = 128.

Definition msg64 : mps_message :=
  {| message_type := mps_message_type_finalization; finalization_ref := 64 |}.

Definition msg128 : mps_message :=
  {| message_type := mps_message_type_finalization; finalization_ref := 128 |}.

Definition armed : mem := store_word (store_word zeroed 72 1001) 136 1002.

Definition calm : world := {| memory := armed; queue := []; finalized := [] |}.

Definition pending : world := {| memory := armed; queue := [msg64]; finalized := [] |}.

Definition noting_callback (f : Z) (m : mem) : mem := store_word m 1024 f.

Definition collector_at_rest (w : world) (interval multiplier : Q) : world := w.

Definition collector_posting (w : world) (interval multiplier : Q) : world :=
  post [msg128] w.

(** A registry of the arena at 1 with one root, at node 16. *)
Definition one_root : store :=
  {| nodes := {[ 16 := {| next := NULL; prev := NULL;
                          d := {| gc := 1; root := 700; start := 100; end_ := 200 |} |} ]};
     roots := {[ 1 := 16 ]} |}.

Lemma retries_retried : Forall retried [retry_round].
Proof. constructor; [split; reflexivity | constructor]. Qed.

Lemma commit_round_committed : committed commit_round.
Proof. split; reflexivity. Qed.

Lemma Lisp_Cons_is_tag : 0 <= Lisp_Cons < GCALIGNMENT.
Proof. unfold Lisp_Cons, GCALIGNMENT. lia. Qed.

Lemma finalizers_are_apart a b :
  is_finalizer a -> is_finalizer b -> a <> b ->
  a + word_size <= b \/ b + word_size <= a.
Proof.
  unfold is_finalizer, word_size, word_bytes. intros Ha Hb Hab. simpl. lia.
Qed.

Lemma noting_keeps_cleared f m a :
  is_finalizer a ->
  load_word m (a + offsetof_function) = Qnil ->
  load_word (noting_callback f m) (a + offsetof_function) = Qnil.
Proof.
  unfold is_finalizer, noting_callback, offsetof_function. intros Ha Hnil.
  rewrite load_store_disjoint; [exact Hnil|].
  unfold word_size, word_bytes. simpl. lia.
Qed.

Lemma batches_are_finalizations :
  Forall (Forall (finalization_message mps_message_type_finalization is_finalizer))
         [[msg64; msg128; msg64]; [msg128; msg64]].
Proof.
  assert (H64 : finalization_message mps_message_type_finalization is_finalizer msg64)
    by (split; [reflexivity | now left]).
  assert (H128 : finalization_message mps_message_type_finalization is_finalizer msg128)
    by (split; [reflexivity | now right]).
  repeat constructor; assumption.
Qed.

Lemma collector_posting_posts_only : posts_only collector_posting.
Proof.
  intros w interval multiplier. split; [reflexivity|]. now exists [msg128].
Qed.

Lemma one_root_registry : registry one_root 1 [16].
Proof.
  exists 16. split; [reflexivity|]. simpl. split; [reflexivity|].
  split; [discriminate|]. eexists. split; [reflexivity|]. split; reflexivity.
Qed.

End Emacs.

(** ** The theorems at the concrete configuration *)

Module Instances.
Import Mem Fix Format Alloc Finalization Registry Emacs.

(** C1 at a cons allocated in the second round, the first lost to a retry. *)
Lemma igc_make_cons_fields_witness :
  exists c s',
    igc_make_cons Lisp_Cons ([retry_round] ++ commit_round :: []) 10 14 fresh
    = Done (c, s') /\
    c = make_lisp_ptr (reserve_addr commit_round) Lisp_Cons /\
    IGC_TAG c = Lisp_Cons /\
    XCAR (heap s') c = 10 /\
    XCDR (heap s') c = 14 /\
    trace s' = trace fresh
               ++ concat (map (cons_round 10 14) ([retry_round] ++ [commit_round])).
Proof.
  exact (igc_make_cons_fields Lisp_Cons [retry_round] commit_round [] 10 14 fresh
           retries_retried commit_round_committed eq_refl Lisp_Cons_is_tag
           (small_word 10 ltac:(lia)) (small_word 14 ltac:(lia))).
Defined.

(** C2 at the car of the cons at 0, moved by the collector. *)
Lemma fix_tag_preserving_witness :
  IGC_TAG (load_word
             (result_mem (IGC_FIX Lisp_Symbol Lisp_Int0 Lisp_Int1 lispsym asked
                            FIX1_all FIX2_move 0 two_conses []))
             0)
  = IGC_TAG (load_word two_conses 0).
Proof.
  exact (proj2 (fix_tag_preserving Lisp_Symbol Lisp_Int0 Lisp_Int1 lispsym asked
                  FIX1_all FIX2_move lispsym_is_aligned FIX2_move_aligned)
               0 two_conses []).
Defined.




(** C4 refuted: the collector fails the fix of the first car; the scan
    returns that failure having asked about 8192 only, although the cons at
    16 starts with no marker and its car is a reference the protocol would
    have asked about. *)
Lemma cons_scan_stops_at_failed_fix :
  slots_to_fix IGC_FWDSIG IGC_PADSIG two_conses 0 32 = [0; 8; 16; 24] /\
  fix_word Lisp_Symbol Lisp_Int0 Lisp_Int1 lispsym asked FIX1_all FIX2_fail
           [] (load_word two_conses 16)
  = Failed MPS_RES_FAIL [8208] /\
  cons_scan IGC_FWDSIG IGC_PADSIG Lisp_Symbol Lisp_Int0 Lisp_Int1 lispsym asked
            FIX1_all FIX2_fail 0 32 two_conses []
  = Done (MPS_RES_FAIL, two_conses, [8192]).
Proof.
  split; [vm_compute; reflexivity|]. split; vm_compute; reflexivity.
Qed.

(** C5 at a symbol allocated in the second round. *)
Lemma igc_alloc_symbol_commits_unwritten_witness :
  exists s',
    igc_alloc_symbol Lisp_Symbol lispsym 48 ([retry_round] ++ commit_round :: []) fresh
    = Done (make_lisp_symbol Lisp_Symbol lispsym (reserve_addr commit_round), s') /\
    heap s' = heap fresh /\
    trace s' = trace fresh
               ++ concat (map (symbol_round 48) ([retry_round] ++ [commit_round])) /\
    forallb (fun e => negb (is_store e))
            (concat (map (symbol_round 48) ([retry_round] ++ [commit_round]))) = true.
Proof.
  exact (igc_alloc_symbol_commits_unwritten Lisp_Symbol lispsym 48
           [retry_round] commit_round [] fresh
           retries_retried commit_round_committed).
Defined.

(** C6 refuted: a finalization message is pending, the collector has no
    work; after [igc_on_idle] the message is still queued and nothing was
    finalized, where a drain would have run the callback. *)
Lemma on_idle_leaves_finalizer_pending :
  queue (igc_on_idle collector_at_rest pending) = [msg64] /\
  finalized (igc_on_idle collector_at_rest pending) = [] /\
  exists w',
    igc_handle_messages igc_h_IGC_DEBUG Qnil offsetof_function
      mps_message_type_finalization noting_callback pending = Done w' /\
    queue w' = [] /\ finalized w' = [(64, 1001)].
Proof.
  split; [reflexivity|]. split; [reflexivity|].
  eexists. split; [vm_compute; reflexivity|]. split; reflexivity.
Qed.

(** C6 as amended, with a collector that posts a message during the step. *)
Lemma on_idle_steps_only_witness :
  igc_on_idle collector_posting pending
  = collector_posting pending (1 # 100)%Q 0%Q /\
  finalized (igc_on_idle collector_posting pending) = finalized pending /\
  exists posted,
    queue (igc_on_idle collector_posting pending) = queue pending ++ posted.
Proof.
  exact (on_idle_steps_only collector_posting pending collector_posting_posts_only).
Defined.

(** C7 at a cons-sized hole in the build igc.h configures. *)
Lemma pad_debug_aborts_witness :
  pad igc_h_IGC_DEBUG IGC_PADSIG zeroed 4096 16 = Aborted /\
  cons_pad igc_h_IGC_DEBUG IGC_PADSIG zeroed 4096 16 = Aborted.
Proof.
  exact (pad_debug_aborts igc_h_IGC_DEBUG IGC_PADSIG zeroed 4096 16 eq_refl eq_refl).
Defined.

(** C8 refuted: in the build igc.h configures, [cons_isfwd] aborts on an
    address that holds a forwarding marker, whose target [is_forwarded]
    itself does return. *)
Lemma cons_isfwd_aborts_in_debug_build :
  cons_isfwd igc_h_IGC_DEBUG IGC_FWDSIG (forward IGC_FWDSIG zeroed 64 8192) 64
  = Aborted /\
  is_forwarded IGC_FWDSIG (forward IGC_FWDSIG zeroed 64 8192) 64 = 8192.
Proof. split; vm_compute; reflexivity. Qed.

(** C9 over two drains, the finalizer at 64 named by three messages and
    the one at 128 by two. *)
Lemma finalizer_runs_at_most_once_witness :
  exists w',
    drains igc_h_IGC_DEBUG Qnil offsetof_function mps_message_type_finalization
           noting_callback [[msg64; msg128; msg64]; [msg128; msg64]] calm
    = Done w' /\
    queue w' = [] /\
    List.NoDup (map fst (finalized w')) /\
    Forall (fun e => snd e <> Qnil) (finalized w') /\
    w' = finalize_all Qnil offsetof_function noting_callback
           (map finalization_ref (concat [[msg64; msg128; msg64]; [msg128; msg64]]))
           calm /\
    (forall before msg after,
        concat [[msg64; msg128; msg64]; [msg128; msg64]] = before ++ msg :: after ->
        let reached := finalize_all Qnil offsetof_function noting_callback
                         (map finalization_ref before) calm in
        let addr := finalization_ref msg in
        (callback_of offsetof_function reached addr <> Qnil ->
         In (addr, callback_of offsetof_function reached addr) (finalized w')) /\
        callback_of offsetof_function w' addr = Qnil).
Proof.
  exact (proj2 (finalizer_runs_at_most_once igc_h_IGC_DEBUG Qnil offsetof_function
                  mps_message_type_finalization noting_callback is_finalizer
                  (small_word Qnil ltac:(unfold Qnil; lia))
                  finalizers_are_apart noting_keeps_cleared
                  [[msg64; msg128; msg64]; [msg128; msg64]] calm
                  eq_refl eq_refl batches_are_finalizations)).
Defined.

(** The two drains run the callback 1001 of the finalizer at 64 and the
    callback 1002 of the one at 128, each once. *)
Lemma two_drains_run_both :
  exists w',
    drains igc_h_IGC_DEBUG Qnil offsetof_function mps_message_type_finalization
           noting_callback [[msg64; msg128; msg64]; [msg128; msg64]] calm
    = Done w' /\
    finalized w' = [(64, 1001); (128, 1002)].
Proof. eexists. split; reflexivity. Qed.

(** C10 at a registry that already holds a root. *)
Lemma register_deregister_round_trip_witness :
  exists st1,
    register_root 1 701 300 400 32 one_root = Some (32, st1) /\
    registry st1 1 (32 :: [16]) /\
    registered st1 (32 :: [16]) = Some 701 :: registered one_root [16] /\
    deregister_root 32 st1 = Some (701, one_root) /\
    registry one_root 1 [16].
Proof.
  exact (register_deregister_round_trip one_root 1 [16] 32 701 300 400
           one_root_registry ltac:(discriminate) eq_refl).
Defined.

End Instances.

(** ** More on the codec and on one fix step *)

Module FixFacts.
Import Mem Fix Format Emacs.

Lemma val_plus_tag w : IGC_VAL w + IGC_TAG w = w.
Proof.
  rewrite <- (lor_val_tag w) at 3. rewrite <- Z.lxor_lor, <- Z.add_nocarry_lxor.
  - reflexivity.
  - unfold IGC_VAL, IGC_TAG. apply Z.bits_inj'. intros n Hn.
    rewrite !Z.land_spec, Z.lnot_spec, Z.bits_0 by lia.
    destruct (Z.testbit w n), (Z.testbit IGC_TAG_MASK n); reflexivity.
  - unfold IGC_VAL, IGC_TAG. apply Z.bits_inj'. intros n Hn.
    rewrite !Z.land_spec, Z.lnot_spec, Z.bits_0 by lia.
    destruct (Z.testbit w n), (Z.testbit IGC_TAG_MASK n); reflexivity.
Qed.

Lemma tag_of_tag t : 0 <= t < GCALIGNMENT -> IGC_TAG t = t.
Proof. intros Ht. rewrite IGC_TAG_mod. now apply Z.mod_small. Qed.

(** Storing a word truncates the address part, never the tag. *)
Lemma wrap_lor_tag a w : wrap (Z.lor a (IGC_TAG w)) = Z.lor (wrap a) (IGC_TAG w).
Proof.
  pose proof (IGC_TAG_range w) as Ht. unfold wrap.
  change word_modulus with (2 ^ 64).
  rewrite <- !Z.land_ones by lia. rewrite Z.land_lor_distr_l. f_equal.
  rewrite Z.land_ones by lia. apply Z.mod_small. unfold GCALIGNMENT in Ht. lia.
Qed.

(** X1: every word splits into the value [IGC_VAL] and the tag [IGC_TAG]
    and is put together again from the two, by [|] as [IGC_FIX] does it or
    by addition; the value part is aligned, the tag part below 8, and the
    [word ^ tag] of [IGC_FIX] is the value part. *)
Theorem word_is_val_and_tag w :
  Z.lor (IGC_VAL w) (IGC_TAG w) = w /\
  IGC_VAL w + IGC_TAG w = w /\
  Z.lxor w (IGC_TAG w) = IGC_VAL w /\
  IGC_VAL w mod GCALIGNMENT = 0 /\
  0 <= IGC_TAG w < GCALIGNMENT.
Proof.
  split; [apply lor_val_tag|]. split; [apply val_plus_tag|].
  split; [apply lxor_tag_is_val|]. split; [apply IGC_VAL_aligned | apply IGC_TAG_range].
Qed.

(** X2: an aligned address and a tag below 8, put together by [|], are
    read back by [IGC_VAL] and [IGC_TAG]. *)
Theorem val_and_tag_of_word a t :
  a mod GCALIGNMENT = 0 ->
  0 <= t < GCALIGNMENT ->
  IGC_VAL (Z.lor a t) = a /\ IGC_TAG (Z.lor a t) = t.
Proof.
  intros Ha Ht. rewrite <- (tag_of_tag t Ht) at 1 2.
  rewrite IGC_VAL_lor, IGC_TAG_lor by exact Ha. split; [reflexivity|].
  now apply tag_of_tag.
Qed.

Section Step.

Variables Lisp_Symbol Lisp_Int0 Lisp_Int1 : Z.
Variable lispsym : Z.
Variable SS : Type.
Variable MPS_FIX1 : SS -> Z -> bool * SS.
Variable MPS_FIX2 : SS -> Z -> Z * Z * SS.

Local Abbreviation fix_word' := (fix_word Lisp_Symbol Lisp_Int0 Lisp_Int1 lispsym SS MPS_FIX1 MPS_FIX2).
Local Abbreviation FIX := (IGC_FIX Lisp_Symbol Lisp_Int0 Lisp_Int1 lispsym SS MPS_FIX1 MPS_FIX2).

Lemma fix_word_failed ss w res ss' :
  fix_word' ss w = Failed res ss' -> res <> MPS_RES_OK.
Proof.
  unfold fix_word.
  destruct (negb _ && negb _); [|discriminate].
  destruct (MPS_FIX1 ss _) as [[] ss1]; [|discriminate].
  destruct (MPS_FIX2 ss1 _) as [[r ref'] ss2].
  destruct (Z.eqb_spec r MPS_RES_OK) as [|Hne]; simpl; [discriminate|].
  intros H. injection H as <- _. exact Hne.
Qed.

(** X3: one [IGC_FIX] writes nothing but the slot it is given, and that
    only when it falls through; when it returns, memory is as it was and
    the code returned is not [MPS_RES_OK]. *)
Theorem IGC_FIX_effect x m ss :
  match FIX x m ss with
  | Continue m' _ => forall y, y < x \/ x + word_size <= y -> m' y = m y
  | Return res m' _ => m' = m /\ res <> MPS_RES_OK
  end.
Proof.
  unfold IGC_FIX.
  destruct (fix_word' ss (load_word m x)) as [ss'|w' ss'|res ss'] eqn:E.
  - reflexivity.
  - intros y Hy. now apply store_bytes_outside.
  - split; [reflexivity|]. exact (fix_word_failed _ _ _ _ E).
Qed.

Hypothesis MPS_FIX2_aligned : forall ss ref res ref' ss',
  MPS_FIX2 ss ref = (res, ref', ss') ->
  res = MPS_RES_OK -> ref mod GCALIGNMENT = 0 -> ref' mod GCALIGNMENT = 0.

(** X4: for a slot whose word has a tag that is neither a fixnum tag nor
    the symbol tag the collector is asked about the value part of the word
    itself; after a successful [MPS_FIX2] the slot holds the new address
    under the old tag, so it decodes to the address the collector gave, and
    it holds the old word when the object stayed where it was; the slot is
    not written when the collector is not interested or the fix fails. *)
Theorem fix_absolute_reference x m ss :
  let w := load_word m x in
  IGC_TAG w <> Lisp_Int0 ->
  IGC_TAG w <> Lisp_Int1 ->
  IGC_TAG w <> Lisp_Symbol ->
  FIX x m ss =
    (let '(interesting, ss1) := MPS_FIX1 ss (IGC_VAL w) in
     if interesting then
       let '(res, ref', ss2) := MPS_FIX2 ss1 (IGC_VAL w) in
       if res =? MPS_RES_OK
       then Continue (store_word m x (Z.lor ref' (IGC_TAG w))) ss2
       else Return res m ss2
     else Continue m ss1) /\
  (forall ss1 ref' ss2,
      MPS_FIX1 ss (IGC_VAL w) = (true, ss1) ->
      MPS_FIX2 ss1 (IGC_VAL w) = (MPS_RES_OK, ref', ss2) ->
      exists m',
        FIX x m ss = Continue m' ss2 /\
        (forall y, y < x \/ x + word_size <= y -> m' y = m y) /\
        IGC_TAG (load_word m' x) = IGC_TAG w /\
        IGC_VAL (load_word m' x) = wrap ref' /\
        (ref' = IGC_VAL w -> load_word m' x = w)) /\
  (forall ss1,
      MPS_FIX1 ss (IGC_VAL w) = (false, ss1) -> FIX x m ss = Continue m ss1).
Proof.
  intros w H0 H1 Hs.
  assert (Hslot : FIX x m ss =
    (let '(interesting, ss1) := MPS_FIX1 ss (IGC_VAL w) in
     if interesting then
       let '(res, ref', ss2) := MPS_FIX2 ss1 (IGC_VAL w) in
       if res =? MPS_RES_OK
       then Continue (store_word m x (Z.lor ref' (IGC_TAG w))) ss2
       else Return res m ss2
     else Continue m ss1)).
  { unfold IGC_FIX, fix_word. fold w. fold (IGC_TAG w). rewrite lxor_tag_is_val.
    apply Z.eqb_neq in H0, H1, Hs. rewrite H0, H1, Hs. simpl.
    destruct (MPS_FIX1 ss _) as [[] ss1]; [|reflexivity].
    destruct (MPS_FIX2 ss1 _) as [[res ref'] ss2].
    now destruct (res =? MPS_RES_OK). }
  split; [exact Hslot|]. split.
  - intros ss1 ref' ss2 E1 E2. rewrite Hslot, E1, E2. cbn [Z.eqb MPS_RES_OK].
    pose proof (MPS_FIX2_aligned _ _ _ _ _ E2 eq_refl (IGC_VAL_aligned w)) as Hal.
    rewrite <- wrap_mod_align in Hal.
    eexists. split; [reflexivity|].
    split; [intros y Hy; now apply store_bytes_outside|].
    rewrite load_store_same, wrap_lor_tag.
    split; [now apply IGC_TAG_lor|]. split; [now apply IGC_VAL_lor|].
    intros ->. pose proof (load_word_range m x) as Hw. fold w in Hw.
    pose proof (IGC_VAL_range w ltac:(lia)) as Hv.
    rewrite wrap_small by lia. apply lor_val_tag.
  - intros ss1 E1. now rewrite Hslot, E1.
Qed.

End Step.

Lemma val_and_tag_of_word_witness :
  IGC_VAL (Z.lor 8192 Lisp_Cons) = 8192 /\ IGC_TAG (Z.lor 8192 Lisp_Cons) = Lisp_Cons.
Proof.
  exact (val_and_tag_of_word 8192 Lisp_Cons eq_refl Lisp_Cons_is_tag).
Defined.

(** A slot holding a reference to the cons at 8192. *)
Definition cons_slot : mem := store_word zeroed 0 (8192 + Lisp_Cons).

Lemma fix_absolute_reference_witness :
  exists m',
    IGC_FIX Lisp_Symbol Lisp_Int0 Lisp_Int1 lispsym asked FIX1_all FIX2_move
      0 cons_slot [] = Continue m' [8192] /\
    (forall y, y < 0 \/ 0 + word_size <= y -> m' y = cons_slot y) /\
    IGC_TAG (load_word m' 0) = IGC_TAG (load_word cons_slot 0) /\
    IGC_VAL (load_word m' 0) = wrap 12288 /\
    (12288 = IGC_VAL (load_word cons_slot 0) -> load_word m' 0 = load_word cons_slot 0).
Proof.
  exact (proj1 (proj2
           (fix_absolute_reference Lisp_Symbol Lisp_Int0 Lisp_Int1 lispsym asked
              FIX1_all FIX2_move FIX2_move_aligned 0 cons_slot []
              ltac:(discriminate) ltac:(discriminate) ltac:(discriminate)))
           [8192] 12288 [8192] eq_refl eq_refl).
Defined.

End FixFacts.

(** ** More on markers and on the cons scanner *)

Module ScanFacts.
Import Mem Fix Format Emacs.

Section Cons.

Variable IGC_DEBUG : bool.
Variables IGC_FWDSIG IGC_PADSIG : Z.
Variables Lisp_Symbol Lisp_Int0 Lisp_Int1 : Z.
Variable lispsym : Z.
Variable SS : Type.
Variable MPS_FIX1 : SS -> Z -> bool * SS.
Variable MPS_FIX2 : SS -> Z -> Z * Z * SS.

Local Abbreviation FIX := (IGC_FIX Lisp_Symbol Lisp_Int0 Lisp_Int1 lispsym SS MPS_FIX1 MPS_FIX2).
Local Abbreviation fix_all' := (fix_all Lisp_Symbol Lisp_Int0 Lisp_Int1 lispsym SS MPS_FIX1 MPS_FIX2).
Local Abbreviation cons_scan' :=
  (cons_scan IGC_FWDSIG IGC_PADSIG Lisp_Symbol Lisp_Int0 Lisp_Int1 lispsym SS MPS_FIX1 MPS_FIX2).
Local Abbreviation slots_to_fix' := (slots_to_fix IGC_FWDSIG IGC_PADSIG).
Local Abbreviation starts_with_marker' := (starts_with_marker IGC_FWDSIG IGC_PADSIG).

Definition holds_fixnum (m : mem) (x : Z) : Prop :=
  IGC_TAG (load_word m x) = Lisp_Int0 \/ IGC_TAG (load_word m x) = Lisp_Int1.

Lemma FIX_fixnum x m ss : holds_fixnum m x -> FIX x m ss = Continue m ss.
Proof.
  intros H. unfold IGC_FIX, fix_word. fold (IGC_TAG (load_word m x)).
  destruct H as [-> | ->]; rewrite Z.eqb_refl; simpl; [reflexivity|].
  now rewrite andb_false_r.
Qed.

Lemma fix_all_fixnums slots m ss :
  Forall (holds_fixnum m) slots -> fix_all' slots m ss = Continue m ss.
Proof.
  induction 1 as [|x rest Hx _ IH]; simpl; [reflexivity|].
  rewrite (FIX_fixnum x m ss Hx). exact IH.
Qed.

Lemma cons_scan_is_fix_all base limit m ss :
  cons_scan' base limit m ss
  = Done (scan_code SS (fix_all' (slots_to_fix' m base limit) m ss)).
Proof.
  unfold cons_scan.
  rewrite cons_scan_loop_spec by apply object_count_fuel.
  now destruct (fix_all _ _ _ _ _ _ _ _ m ss).
Qed.

Lemma one_object obj : object_addrs obj (obj + sizeof_Lisp_Cons) = [obj].
Proof.
  unfold object_addrs.
  rewrite object_count_step by (change sizeof_Lisp_Cons with 16; lia).
  rewrite object_count_done by (unfold cons_skip; lia). reflexivity.
Qed.

Lemma cons_scan_marker obj m ss :
  starts_with_marker' m obj = true ->
  cons_scan' obj (obj + sizeof_Lisp_Cons) m ss = Done (MPS_RES_OK, m, ss).
Proof.
  intros H. rewrite cons_scan_is_fix_all. unfold slots_to_fix.
  rewrite one_object. simpl. unfold object_slots. now rewrite H.
Qed.

(** X5: over conses whose live slots all hold fixnums, [cons_scan]
    returns [MPS_RES_OK] with memory and scan state as they were, whatever
    the collector would answer: it is not asked. *)
Theorem cons_scan_fixnums_only base limit m ss :
  Forall (holds_fixnum m) (slots_to_fix' m base limit) ->
  cons_scan' base limit m ss = Done (MPS_RES_OK, m, ss).
Proof.
  intros H. rewrite cons_scan_is_fix_all, fix_all_fixnums by exact H. reflexivity.
Qed.

(** X6: [forward] makes the old object a forwarding marker: [is_forwarded]
    yields the new address, [is_padding] says no, nothing outside the two
    words of the marker is written, and [cons_scan] over the object passes
    it by without a fix. *)
Theorem forward_makes_marker m old new ss :
  0 <= IGC_FWDSIG < word_modulus ->
  0 < new < word_modulus ->
  IGC_FWDSIG <> IGC_PADSIG ->
  is_forwarded IGC_FWDSIG (forward IGC_FWDSIG m old new) old = new /\
  is_padding IGC_PADSIG (forward IGC_FWDSIG m old new) old = false /\
  (forall y, y < old \/ old + sizeof_igc_fwd <= y ->
             forward IGC_FWDSIG m old new y = m y) /\
  cons_scan' old (old + sizeof_Lisp_Cons) (forward IGC_FWDSIG m old new) ss
  = Done (MPS_RES_OK, forward IGC_FWDSIG m old new, ss).
Proof.
  intros Hsig Hnew Hne.
  assert (Hfirst : load_word (forward IGC_FWDSIG m old new) old = IGC_FWDSIG).
  { unfold forward, offsetof_sig, offsetof_new. rewrite Z.add_0_r.
    rewrite load_store_disjoint by (unfold word_size, word_bytes; lia).
    rewrite load_store_same. now apply wrap_small. }
  assert (Hsecond : load_word (forward IGC_FWDSIG m old new) (old + word_size) = new).
  { unfold forward, offsetof_new. rewrite load_store_same. apply wrap_small. lia. }
  split; [|split; [|split]].
  - unfold is_forwarded, offsetof_sig, offsetof_new.
    now rewrite Z.add_0_r, Hfirst, Z.eqb_refl.
  - unfold is_padding, offsetof_sig. rewrite Z.add_0_r, Hfirst.
    now apply Z.eqb_neq.
  - intros y Hy. unfold forward, store_word, offsetof_sig, offsetof_new.
    unfold sizeof_igc_fwd, word_size, word_bytes in Hy.
    rewrite !store_bytes_outside by (unfold word_size, word_bytes; lia).
    reflexivity.
  - apply cons_scan_marker. unfold starts_with_marker.
    rewrite Hfirst, Hsecond, Z.eqb_refl.
    assert (Hnn : (new =? NULL) = false) by (apply Z.eqb_neq; unfold NULL; lia).
    now rewrite Hnn.
Qed.

(** X7: where its assertion lets it through, [pad] returns and has made
    the hole a padding marker: [is_padding] says yes, [is_forwarded] yields
    NULL, the bytes after the signature repeat the filler string, no byte
    outside the hole is written, and [cons_scan] over the object at the hole
    passes it by. *)
Theorem pad_makes_marker m addr size ss :
  0 <= IGC_PADSIG < word_modulus ->
  IGC_FWDSIG <> IGC_PADSIG ->
  sizeof_igc_pad <= size ->
  IGC_DEBUG = false \/ size = sizeof_igc_pad ->
  exists m',
    pad IGC_DEBUG IGC_PADSIG m addr size = Done m' /\
    is_padding IGC_PADSIG m' addr = true /\
    is_forwarded IGC_FWDSIG m' addr = NULL /\
    (forall x, addr + sizeof_igc_pad <= x < addr + size ->
       m' x = nth (Z.to_nat ((x - (addr + sizeof_igc_pad)) mod sizeof_string))
                  padding_string 0) /\
    (forall x, x < addr \/ addr + size <= x -> m' x = m x) /\
    cons_scan' addr (addr + sizeof_Lisp_Cons) m' ss = Done (MPS_RES_OK, m', ss).
Proof.
  intros Hsig Hne Hsize Hpass.
  destruct (pad_effect IGC_DEBUG IGC_PADSIG m addr size Hsig Hsize Hpass)
    as (m' & Hrun & Hpadding & Hfill & Hframe).
  assert (Hfirst : load_word m' addr = IGC_PADSIG).
  { unfold is_padding, offsetof_sig in Hpadding. rewrite Z.add_0_r in Hpadding.
    now apply Z.eqb_eq. }
  exists m'. split; [exact Hrun|].
  split; [exact Hpadding|]. split; [|split; [exact Hfill|split; [exact Hframe|]]].
  - unfold is_forwarded, offsetof_sig. rewrite Z.add_0_r, Hfirst.
    assert (H : (IGC_PADSIG =? IGC_FWDSIG) = false) by (apply Z.eqb_neq; congruence).
    now rewrite H.
  - apply cons_scan_marker. unfold starts_with_marker.
    rewrite Hfirst, Z.eqb_refl. apply orb_true_r.
Qed.

End Cons.

(** A cons whose car and cdr are the fixnum words 2 and 6. *)
Definition fixnum_cons : mem := store_word (store_word zeroed 0 Lisp_Int0) 8 Lisp_Int1.

Lemma fixnum_cons_holds_fixnums :
  Forall (holds_fixnum Lisp_Int0 Lisp_Int1 fixnum_cons)
         (slots_to_fix IGC_FWDSIG IGC_PADSIG fixnum_cons 0 16).
Proof.
  assert (E : slots_to_fix IGC_FWDSIG IGC_PADSIG fixnum_cons 0 16 = [0; 8])
    by (vm_compute; reflexivity).
  rewrite E. constructor; [left; vm_compute; reflexivity|].
  constructor; [right; vm_compute; reflexivity | constructor].
Qed.

Lemma cons_scan_fixnums_only_witness :
  cons_scan IGC_FWDSIG IGC_PADSIG Lisp_Symbol Lisp_Int0 Lisp_Int1 lispsym asked
            FIX1_all FIX2_fail 0 16 fixnum_cons []
  = Done (MPS_RES_OK, fixnum_cons, []).
Proof.
  exact (cons_scan_fixnums_only IGC_FWDSIG IGC_PADSIG Lisp_Symbol Lisp_Int0 Lisp_Int1
           lispsym asked FIX1_all FIX2_fail 0 16 fixnum_cons []
           fixnum_cons_holds_fixnums).
Defined.

Lemma forward_makes_marker_witness :
  is_forwarded IGC_FWDSIG (forward IGC_FWDSIG zeroed 64 8192) 64 = 8192 /\
  is_padding IGC_PADSIG (forward IGC_FWDSIG zeroed 64 8192) 64 = false /\
  (forall y, y < 64 \/ 64 + sizeof_igc_fwd <= y ->
             forward IGC_FWDSIG zeroed 64 8192 y = zeroed y) /\
  cons_scan IGC_FWDSIG IGC_PADSIG Lisp_Symbol Lisp_Int0 Lisp_Int1 lispsym asked
            FIX1_all FIX2_fail 64 (64 + sizeof_Lisp_Cons)
            (forward IGC_FWDSIG zeroed 64 8192) []
  = Done (MPS_RES_OK, forward IGC_FWDSIG zeroed 64 8192, []).
Proof.
  exact (forward_makes_marker IGC_FWDSIG IGC_PADSIG Lisp_Symbol Lisp_Int0 Lisp_Int1
           lispsym asked FIX1_all FIX2_fail zeroed 64 8192 []
           (small_word IGC_FWDSIG ltac:(unfold IGC_FWDSIG; lia))
           (conj (eq_refl : 0 < 8192) (proj2 (small_word 8192 ltac:(lia))))
           ltac:(discriminate)).
Defined.

Lemma pad_makes_marker_witness :
  exists m',
    pad igc_h_IGC_DEBUG IGC_PADSIG zeroed 4096 8 = Done m' /\
    is_padding IGC_PADSIG m' 4096 = true /\
    is_forwarded IGC_FWDSIG m' 4096 = NULL /\
    (forall x, 4096 + sizeof_igc_pad <= x < 4096 + 8 ->
       m' x = nth (Z.to_nat ((x - (4096 + sizeof_igc_pad)) mod sizeof_string))
                  padding_string 0) /\
    (forall x, x < 4096 \/ 4096 + 8 <= x -> m' x = zeroed x) /\
    cons_scan IGC_FWDSIG IGC_PADSIG Lisp_Symbol Lisp_Int0 Lisp_Int1 lispsym asked
              FIX1_all FIX2_fail 4096 (4096 + sizeof_Lisp_Cons) m' []
    = Done (MPS_RES_OK, m', []).
Proof.
  exact (pad_makes_marker igc_h_IGC_DEBUG IGC_FWDSIG IGC_PADSIG Lisp_Symbol Lisp_Int0
           Lisp_Int1 lispsym asked FIX1_all FIX2_fail zeroed 4096 8 []
           (small_word IGC_PADSIG ltac:(unfold IGC_PADSIG; lia))
           ltac:(discriminate) ltac:(discriminate) (or_intror eq_refl)).
Defined.

End ScanFacts.

(** ** The static-vector scanner and the walk for the old collector *)

Module AreaScans.
Import Mem Fix Format Emacs.

(** The entries of a vector of pointers, one word apart. *)
Fixpoint entries_from (n : nat) (p : Z) : list Z :=
  match n with
  | O => []
  | S k => p :: entries_from k (p + word_size)
  end.

Definition entry_count (start end_ : Z) : nat :=
  Z.to_nat ((end_ - start + word_size - 1) / word_size).

Definition entries (start end_ : Z) : list Z :=
  entries_from (entry_count start end_) start.

Section Staticvec.

Variables Lisp_Symbol Lisp_Int0 Lisp_Int1 : Z.
Variable lispsym : Z.
Variable SS : Type.
Variable MPS_FIX1 : SS -> Z -> bool * SS.
Variable MPS_FIX2 : SS -> Z -> Z * Z * SS.

Local Abbreviation FIX := (IGC_FIX Lisp_Symbol Lisp_Int0 Lisp_Int1 lispsym SS MPS_FIX1 MPS_FIX2).
Local Abbreviation fix_all' := (fix_all Lisp_Symbol Lisp_Int0 Lisp_Int1 lispsym SS MPS_FIX1 MPS_FIX2).

(** The [for] loop of [scan_staticvec]; [p] is the loop variable, [*p] the
    address of a [Lisp_Object] variable or NULL. *)
Fixpoint scan_staticvec_loop (fuel : nat) (p end_ : Z) (m : mem) (ss : SS)
  : outcome (scan_result SS) :=
  if p <? end_ then
    match fuel with
    | O => OutOfFuel
    | S k =>
        if negb (load_word m p =? NULL) then
          match FIX (load_word m p) m ss with
          | Continue m' ss' => scan_staticvec_loop k (p + word_size) end_ m' ss'
          | Return res m' ss' => Done (Return res m' ss')
          end
        else scan_staticvec_loop k (p + word_size) end_ m ss
    end
  else Done (Continue m ss).

Definition scan_staticvec (start end_ : Z) (m : mem) (ss : SS)
  : outcome (Z * mem * SS) :=
  match scan_staticvec_loop (Z.to_nat (end_ - start)) start end_ m ss with
  | Done (Continue m' ss') => Done (MPS_RES_OK, m', ss')
  | Done (Return res m' ss') => Done (res, m', ss')
  | Aborted => Aborted
  | OutOfFuel => OutOfFuel
  end.

(** The variables a vector points to, in the order of its entries, the
    NULL entries left out. *)
Definition targets (m : mem) (ps : list Z) : list Z :=
  List.filter (fun t => negb (t =? NULL)) (map (load_word m) ps).

(** No variable the vector points to lies in the vector itself. *)
Definition apart_from_vector (m : mem) (start end_ : Z) : Prop :=
  Forall (fun t => t + word_size <= start \/
                   start + word_size * Z.of_nat (entry_count start end_) <= t)
         (targets m (entries start end_)).

Lemma entry_count_done start end_ : end_ <= start -> entry_count start end_ = O.
Proof.
  intros H. unfold entry_count. change word_size with 8.
  assert ((end_ - start + 8 - 1) / 8 < 1); [|lia].
  apply Z.div_lt_upper_bound; lia.
Qed.

Lemma entry_count_step start end_ :
  start < end_ -> entry_count start end_ = S (entry_count (start + word_size) end_).
Proof.
  intros H. unfold entry_count. change word_size with 8.
  replace (end_ - start + 8 - 1) with ((end_ - (start + 8) + 8 - 1) + 1 * 8) by lia.
  rewrite Z.div_add by lia.
  assert (0 <= (end_ - (start + 8) + 8 - 1) / 8) by (apply Z.div_pos; lia).
  lia.
Qed.

Lemma entry_count_fuel start end_ :
  (entry_count start end_ <= Z.to_nat (end_ - start))%nat.
Proof.
  destruct (Z_lt_le_dec start end_) as [Hlt|Hge].
  - unfold entry_count. change word_size with 8.
    assert ((end_ - start + 8 - 1) / 8 <= end_ - start); [|lia].
    apply Z.div_le_upper_bound; lia.
  - rewrite entry_count_done by exact Hge. lia.
Qed.

Lemma entries_from_bounds n : forall p e,
  In e (entries_from n p) -> p <= e /\ e + word_size <= p + word_size * Z.of_nat n.
Proof.
  induction n as [|k IH]; intros p e He; simpl in He; [destruct He|].
  change word_size with 8 in *.
  destruct He as [<-|He]; [lia|]. apply IH in He. lia.
Qed.

Lemma targets_ext m m' ps :
  (forall e, In e ps -> load_word m' e = load_word m e) ->
  targets m' ps = targets m ps.
Proof.
  intros H. unfold targets. f_equal. apply map_ext_in. exact H.
Qed.

Lemma scan_staticvec_loop_spec : forall fuel p end_ m ss,
  (entry_count p end_ <= fuel)%nat ->
  apart_from_vector m p end_ ->
  scan_staticvec_loop fuel p end_ m ss
  = Done (fix_all' (targets m (entries p end_)) m ss).
Proof.
  induction fuel as [|k IH]; intros p end_ m ss Hfuel Hapart.
  - destruct (Z_lt_le_dec p end_) as [Hlt|Hge].
    + rewrite entry_count_step in Hfuel by exact Hlt. lia.
    + simpl. apply Z.ltb_ge in Hge as Hb. rewrite Hb.
      unfold entries. now rewrite entry_count_done.
  - cbn [scan_staticvec_loop]. destruct (p <? end_) eqn:Hb.
    + apply Z.ltb_lt in Hb.
      pose proof (entry_count_step p end_ Hb) as Hstep.
      unfold apart_from_vector, entries in Hapart. rewrite Hstep in Hapart.
      unfold entries. rewrite Hstep. cbn [entries_from] in *.
      unfold targets in *. cbn [map List.filter] in *.
      destruct (load_word m p =? NULL) eqn:Hnull; cbn [negb] in *.
      * rewrite IH; [reflexivity | lia |].
        unfold apart_from_vector, entries, targets.
        eapply Forall_impl; [exact Hapart|]. cbn beta.
        intros t Ht. change word_size with 8 in *. lia.
      * cbn [fix_all]. inversion Hapart as [|? ? Hhead Hrest]; subst.
        pose proof (FIX_outside Lisp_Symbol Lisp_Int0 Lisp_Int1 lispsym SS
                      MPS_FIX1 MPS_FIX2 (load_word m p) m ss) as Hframe.
        destruct (FIX (load_word m p) m ss) as [m' ss'|res m' ss'] eqn:E;
          [|reflexivity].
        cbn [and_then]. simpl in Hframe.
        assert (Hsame : forall e, In e (entries_from (entry_count (p + word_size) end_)
                                                     (p + word_size)) ->
                                  load_word m' e = load_word m e).
        { intros e He. apply entries_from_bounds in He.
          apply load_bytes_ext. intros y Hy. apply Hframe.
          change word_size with 8 in *. change (Z.of_nat word_bytes) with 8 in Hy. lia. }
        rewrite IH; [|lia|].
        -- unfold entries. fold (targets m' (entries_from (entry_count (p + word_size) end_)
                                                          (p + word_size))).
           rewrite (targets_ext m m' _ Hsame). reflexivity.
        -- unfold apart_from_vector, entries.
           rewrite (targets_ext m m' _ Hsame).
           eapply Forall_impl; [exact Hrest|]. cbn beta.
           intros t Ht. change word_size with 8 in *. lia.
    + apply Z.ltb_ge in Hb. unfold entries. now rewrite entry_count_done.
Qed.

(** X8: [scan_staticvec] returns, and what it has done is the fix protocol
    applied, in the order of the vector, to the variable each non-NULL entry
    points to, the NULL entries passed by, up to the first fix that fails,
    whose code it returns; [MPS_RES_OK] when none fails. *)
Theorem scan_staticvec_fixes_targets start end_ m ss :
  apart_from_vector m start end_ ->
  scan_staticvec start end_ m ss
  = Done (scan_code SS (fix_all' (targets m (entries start end_)) m ss)).
Proof.
  intros Hapart. unfold scan_staticvec.
  rewrite scan_staticvec_loop_spec by (apply entry_count_fuel || exact Hapart).
  now destruct (fix_all _ _ _ _ _ _ _ _ m ss).
Qed.

End Staticvec.

Section Walk.

Variables Lisp_Symbol Lisp_Int0 Lisp_Int1 Lisp_Cons : Z.
(** The state of the old collector and its [mark_object]. *)
Variable W : Type.
Variable mark_object : Z -> W -> W.

(** Modelled from the spec: [XTYPE] of lisp.h is not under src/; the type
    of a value word is its tag. *)
Definition XTYPE (obj : Z) : Z := IGC_TAG obj.

Definition mark_old_object (obj : Z) (w : W) : W :=
  if (XTYPE obj =? Lisp_Int0) || (XTYPE obj =? Lisp_Int1) then w
  else if (XTYPE obj =? Lisp_Cons) || (XTYPE obj =? Lisp_Symbol) then w
  else mark_object obj w.

(** The [for] loop of [mark_cons_area]. *)
Fixpoint mark_cons_area_loop (fuel : nat) (p limit : Z) (m : mem) (w : W)
  : outcome W :=
  if p <? limit then
    match fuel with
    | O => OutOfFuel
    | S k =>
        let w := mark_old_object (load_word m (p + offsetof_car)) w in
        let w := mark_old_object (load_word m (p + offsetof_cdr)) w in
        mark_cons_area_loop k (p + sizeof_Lisp_Cons) limit m w
    end
  else Done w.

Definition mark_cons_area (base limit : Z) (m : mem) (w : W) : outcome (Z * W) :=
  match mark_cons_area_loop (Z.to_nat (limit - base)) base limit m w with
  | Done w' => Done (MPS_RES_OK, w')
  | Aborted => Aborted
  | OutOfFuel => OutOfFuel
  end.

(** The values in the car and cdr of the conses of an area, in address
    order, and those of them the old collector manages. *)
Definition cons_fields (m : mem) (objs : list Z) : list Z :=
  concat (map (fun obj => [load_word m (obj + offsetof_car);
                           load_word m (obj + offsetof_cdr)]) objs).

Definition old_managed (obj : Z) : bool :=
  negb ((IGC_TAG obj =? Lisp_Int0) || (IGC_TAG obj =? Lisp_Int1)
        || (IGC_TAG obj =? Lisp_Cons) || (IGC_TAG obj =? Lisp_Symbol)).

Definition mark_all (objs : list Z) (w : W) : W :=
  fold_left (fun w obj => mark_object obj w) objs w.

Lemma mark_old_object_filter obj w :
  mark_old_object obj w = mark_all (List.filter old_managed [obj]) w.
Proof.
  unfold mark_old_object, old_managed, XTYPE. cbn [List.filter].
  destruct (IGC_TAG obj =? Lisp_Int0), (IGC_TAG obj =? Lisp_Int1),
    (IGC_TAG obj =? Lisp_Cons), (IGC_TAG obj =? Lisp_Symbol); reflexivity.
Qed.

Lemma mark_all_app l1 l2 w : mark_all (l1 ++ l2) w = mark_all l2 (mark_all l1 w).
Proof. unfold mark_all. apply fold_left_app. Qed.

Lemma mark_cons_area_loop_spec : forall fuel p limit m w,
  (object_count p limit <= fuel)%nat ->
  mark_cons_area_loop fuel p limit m w
  = Done (mark_all (List.filter old_managed (cons_fields m (object_addrs p limit))) w).
Proof.
  induction fuel as [|k IH]; intros p limit m w Hfuel.
  - destruct (Z_lt_le_dec p limit) as [Hlt|Hge].
    + rewrite object_count_step in Hfuel by exact Hlt. lia.
    + simpl. apply Z.ltb_ge in Hge as Hb. rewrite Hb.
      unfold object_addrs. now rewrite object_count_done.
  - cbn [mark_cons_area_loop]. destruct (p <? limit) eqn:Hb.
    + apply Z.ltb_lt in Hb. unfold object_addrs.
      rewrite (object_count_step p limit Hb) in *. cbn [addrs_from].
      unfold cons_skip in *.
      rewrite IH by lia. unfold cons_fields. cbn [map concat].
      change ([load_word m (p + offsetof_car); load_word m (p + offsetof_cdr)] ++
              concat (map (fun obj => [load_word m (obj + offsetof_car);
                                       load_word m (obj + offsetof_cdr)])
                          (addrs_from (object_count (p + sizeof_Lisp_Cons) limit)
                                      (p + sizeof_Lisp_Cons))))
        with ([load_word m (p + offsetof_car)] ++ [load_word m (p + offsetof_cdr)] ++
              cons_fields m (object_addrs (p + sizeof_Lisp_Cons) limit)).
      rewrite !List.filter_app, !mark_all_app, <- !mark_old_object_filter.
      reflexivity.
    + apply Z.ltb_ge in Hb. unfold object_addrs. now rewrite object_count_done.
Qed.

(** X9: [mark_cons_area] returns [MPS_RES_OK] having called [mark_object],
    in address order, on exactly those car and cdr values of the conses of
    the area that are neither fixnums, conses nor symbols; it reads every
    cons of the area, none passed by. *)
Theorem mark_cons_area_marks_old base limit m w :
  mark_cons_area base limit m w
  = Done (MPS_RES_OK,
          mark_all (List.filter old_managed
                      (cons_fields m (object_addrs base limit))) w) /\
  Forall (fun obj => IGC_TAG obj <> Lisp_Int0 /\ IGC_TAG obj <> Lisp_Int1 /\
                     IGC_TAG obj <> Lisp_Cons /\ IGC_TAG obj <> Lisp_Symbol)
         (List.filter old_managed (cons_fields m (object_addrs base limit))).
Proof.
  split.
  - unfold mark_cons_area.
    now rewrite mark_cons_area_loop_spec by apply object_count_fuel.
  - apply List.Forall_forall. intros obj Hobj. apply List.filter_In in Hobj.
    destruct Hobj as [_ Hold]. unfold old_managed in Hold.
    apply negb_true_iff in Hold. rewrite !orb_false_iff in Hold.
    destruct Hold as [[[H0 H1] Hc] Hs].
    repeat split; apply Z.eqb_neq; assumption.
Qed.

End Walk.

(** A vector of two entries at 1024, NULL and the address of the variable
    at 64, which holds a cons reference. *)
Definition small_staticvec : mem :=
  store_word (store_word zeroed 1032 64) 64 (8192 + Lisp_Cons).

Lemma small_staticvec_apart : apart_from_vector small_staticvec 1024 1040.
Proof.
  assert (E : targets small_staticvec (entries 1024 1040) = [64])
    by (vm_compute; reflexivity).
  unfold apart_from_vector. rewrite E. constructor; [|constructor].
  left. vm_compute. discriminate.
Qed.

Lemma scan_staticvec_fixes_targets_witness :
  scan_staticvec Lisp_Symbol Lisp_Int0 Lisp_Int1 lispsym asked FIX1_all FIX2_move
                 1024 1040 small_staticvec []
  = Done (scan_code asked
            (fix_all Lisp_Symbol Lisp_Int0 Lisp_Int1 lispsym asked FIX1_all FIX2_move
                     (targets small_staticvec (entries 1024 1040))
                     small_staticvec [])).
Proof.
  exact (scan_staticvec_fixes_targets Lisp_Symbol Lisp_Int0 Lisp_Int1 lispsym asked
           FIX1_all FIX2_move 1024 1040 small_staticvec [] small_staticvec_apart).
Defined.

End AreaScans.

(** ** More on the allocation loop *)

Module AllocFacts.
Import Mem Fix Format Alloc Emacs.

(** A round whose [mps_reserve] fails. *)
Definition refused (a : attempt) : Prop := reserve_res a <> MPS_RES_OK.

Section Loop.

Variables Lisp_Symbol Lisp_Cons : Z.
Variable lispsym : Z.

Lemma igc_make_cons_loop_aborts car cdr a rest : forall retries s,
  Forall retried retries ->
  refused a ->
  igc_make_cons_loop (retries ++ a :: rest) car cdr s = Aborted.
Proof.
  induction retries as [|r retries IH]; intros s Hretries Ha.
  - simpl. apply Z.eqb_neq in Ha. now rewrite Ha.
  - inversion Hretries as [|? ? [Hr1 Hr2] Hrest]; subst.
    cbn [app igc_make_cons_loop]. rewrite Hr1, Hr2. cbn [Z.eqb negb MPS_RES_OK].
    now apply IH.
Qed.

(** X10: when an [mps_reserve] fails, after any number of rounds lost to a
    retry, [igc_make_cons] ends in [emacs_abort]; the rounds after it are
    not reached. *)
Theorem igc_make_cons_aborts_on_failed_reserve retries a rest car cdr s :
  Forall retried retries ->
  refused a ->
  igc_make_cons Lisp_Cons (retries ++ a :: rest) car cdr s = Aborted.
Proof.
  intros Hretries Ha. unfold igc_make_cons.
  now rewrite igc_make_cons_loop_aborts.
Qed.

Lemma igc_make_cons_loop_outcome car cdr : forall script s,
  match igc_make_cons_loop script car cdr s with
  | Done (p, _) =>
      exists retries a rest,
        script = retries ++ a :: rest /\
        Forall retried retries /\ committed a /\ p = reserve_addr a
  | Aborted =>
      exists retries a rest,
        script = retries ++ a :: rest /\ Forall retried retries /\ refused a
  | OutOfFuel => Forall retried script
  end.
Proof.
  induction script as [|r script IH]; intros s; [constructor|].
  cbn [igc_make_cons_loop].
  destruct (Z.eqb_spec (reserve_res r) MPS_RES_OK) as [Hres|Hres]; cbn [negb].
  - destruct (commit_ok r) eqn:Hok.
    + exists [], r, script. split; [reflexivity|]. split; [constructor|]. now split.
    + specialize (IH (mps_commit (reserve_addr r) sizeof_Lisp_Cons false
                        (assign (reserve_addr r + offsetof_cdr) cdr
                           (assign (reserve_addr r + offsetof_car) car
                              (mps_reserve (reserve_addr r) sizeof_Lisp_Cons s))))).
      destruct (igc_make_cons_loop script car cdr _) as [[p s']| |].
      * destruct IH as (retries & a & rest & -> & Hretries & Ha & ->).
        exists (r :: retries), a, rest. split; [reflexivity|].
        split; [constructor; [now split | exact Hretries]|]. now split.
      * destruct IH as (retries & a & rest & -> & Hretries & Ha).
        exists (r :: retries), a, rest. split; [reflexivity|].
        split; [constructor; [now split | exact Hretries] | exact Ha].
      * constructor; [now split | exact IH].
  - exists [], r, script. split; [reflexivity|]. split; [constructor | exact Hres].
Qed.

(** X11: [igc_make_cons] returns only the block of a round that committed,
    under the cons tag, and aborts only at a round whose [mps_reserve]
    failed, every round before either one having reserved a block and lost
    it to a retry; the loop is still running only when all rounds so far
    were retried. *)
Theorem igc_make_cons_outcome script car cdr s :
  match igc_make_cons Lisp_Cons script car cdr s with
  | Done (c, _) =>
      exists retries a rest,
        script = retries ++ a :: rest /\
        Forall retried retries /\ committed a /\
        c = make_lisp_ptr (reserve_addr a) Lisp_Cons
  | Aborted =>
      exists retries a rest,
        script = retries ++ a :: rest /\ Forall retried retries /\ refused a
  | OutOfFuel => Forall retried script
  end.
Proof.
  unfold igc_make_cons.
  pose proof (igc_make_cons_loop_outcome car cdr script s) as H.
  destruct (igc_make_cons_loop script car cdr s) as [[p s']| |]; [|exact H|exact H].
  destruct H as (retries & a & rest & -> & Hretries & Ha & ->).
  now exists retries, a, rest.
Qed.

Lemma igc_make_cons_loop_frame car cdr a rest : forall retries s,
  Forall retried retries ->
  committed a ->
  exists s',
    igc_make_cons_loop (retries ++ a :: rest) car cdr s = Done (reserve_addr a, s') /\
    forall y,
      (forall b, In b (retries ++ [a]) ->
         y < reserve_addr b \/ reserve_addr b + sizeof_Lisp_Cons <= y) ->
      heap s' y = heap s y.
Proof.
  assert (Hround : forall r s y,
             y < reserve_addr r \/ reserve_addr r + sizeof_Lisp_Cons <= y ->
             heap (mps_commit (reserve_addr r) sizeof_Lisp_Cons (commit_ok r)
                     (assign (reserve_addr r + offsetof_cdr) cdr
                        (assign (reserve_addr r + offsetof_car) car
                           (mps_reserve (reserve_addr r) sizeof_Lisp_Cons s)))) y
             = heap s y).
  { intros r s y Hy. cbn [mps_commit assign mps_reserve heap]. unfold store_word.
    unfold sizeof_Lisp_Cons, offsetof_car, offsetof_cdr, word_size, word_bytes in *.
    rewrite !store_bytes_outside by (simpl in *; lia). reflexivity. }
  induction retries as [|r retries IH]; intros s Hretries [Hres Hok].
  - cbn [app igc_make_cons_loop]. rewrite Hres. cbn [Z.eqb negb MPS_RES_OK].
    pose proof (Hround a s) as Ha. rewrite Hok in Ha |- *.
    eexists. split; [reflexivity|]. intros y Hy. apply Ha, Hy. now left.
  - pose proof (List.Forall_inv Hretries) as [Hr1 Hr2].
    pose proof (List.Forall_inv_tail Hretries) as Hrest.
    cbn [app igc_make_cons_loop]. rewrite Hr1. cbn [Z.eqb negb MPS_RES_OK].
    pose proof (Hround r s) as Hr. rewrite Hr2 in Hr |- *.
    destruct (IH (mps_commit (reserve_addr r) sizeof_Lisp_Cons false
                    (assign (reserve_addr r + offsetof_cdr) cdr
                       (assign (reserve_addr r + offsetof_car) car
                          (mps_reserve (reserve_addr r) sizeof_Lisp_Cons s))))
                 Hrest (conj Hres Hok)) as (s' & Hrun & Hframe).
    exists s'. split; [exact Hrun|]. intros y Hy.
    rewrite Hframe by (intros b Hb; apply Hy; now right).
    apply Hr, Hy. now left.
Qed.

(** X12: when a round commits, after any number of rounds lost to a
    retry, [igc_make_cons] returns, and it has written inside the blocks
    the allocation point reserved for it in these rounds and nowhere
    else. *)
Theorem igc_make_cons_writes_reserved_blocks retries a rest car cdr s :
  Forall retried retries ->
  committed a ->
  exists s',
    igc_make_cons Lisp_Cons (retries ++ a :: rest) car cdr s
    = Done (make_lisp_ptr (reserve_addr a) Lisp_Cons, s') /\
    forall y,
      (forall b, In b (retries ++ [a]) ->
         y < reserve_addr b \/ reserve_addr b + sizeof_Lisp_Cons <= y) ->
      heap s' y = heap s y.
Proof.
  intros Hretries Ha.
  destruct (igc_make_cons_loop_frame car cdr a rest retries s Hretries Ha)
    as (s' & Hrun & Hframe).
  exists s'. unfold igc_make_cons. rewrite Hrun. split; [reflexivity | exact Hframe].
Qed.

Hypothesis lispsym_aligned : lispsym mod GCALIGNMENT = 0.

(** X13: the values the two allocators return are the ones the fix
    protocol decodes to the committed block: the value part of the cons
    value is the block address, and base plus payload of the symbol value
    is the block address, each under its own tag. *)
Theorem allocated_values_decode p :
  p mod GCALIGNMENT = 0 ->
  0 <= p < word_modulus ->
  0 <= Lisp_Cons < GCALIGNMENT ->
  0 <= Lisp_Symbol < GCALIGNMENT ->
  IGC_TAG (make_lisp_ptr p Lisp_Cons) = Lisp_Cons /\
  IGC_VAL (make_lisp_ptr p Lisp_Cons) = p /\
  IGC_TAG (make_lisp_symbol Lisp_Symbol lispsym p) = Lisp_Symbol /\
  symbol_ref lispsym (make_lisp_symbol Lisp_Symbol lispsym p) = p.
Proof.
  intros Hal Hp Hc Hs.
  assert (Htc : IGC_TAG Lisp_Cons = Lisp_Cons)
    by (rewrite IGC_TAG_mod; now apply Z.mod_small).
  assert (Hts : IGC_TAG Lisp_Symbol = Lisp_Symbol)
    by (rewrite IGC_TAG_mod; now apply Z.mod_small).
  assert (Hoff : wrap (p - lispsym) mod GCALIGNMENT = 0).
  { rewrite wrap_mod_align. now apply aligned_sub. }
  unfold make_lisp_symbol, make_lisp_ptr.
  split; [rewrite <- Htc at 1; rewrite IGC_TAG_lor by exact Hal; exact Htc|].
  split; [rewrite <- Htc; now apply IGC_VAL_lor|].
  split; [rewrite <- Hts at 1; rewrite IGC_TAG_lor by exact Hoff; exact Hts|].
  unfold symbol_ref. rewrite <- Hts at 1. rewrite IGC_VAL_lor by exact Hoff.
  unfold wrap. rewrite Zplus_mod_idemp_r.
  replace (lispsym + (p - lispsym)) with p by lia. now apply Z.mod_small.
Qed.

End Loop.

Definition refuse_round : attempt :=
  {| reserve_res := MPS_RES_FAIL; reserve_addr := 0; commit_ok := false |}.

Lemma igc_make_cons_aborts_on_failed_reserve_witness :
  igc_make_cons Lisp_Cons ([retry_round] ++ refuse_round :: [commit_round]) 10 14 fresh
  = Aborted.
Proof.
  exact (igc_make_cons_aborts_on_failed_reserve Lisp_Cons [retry_round] refuse_round
           [commit_round] 10 14 fresh retries_retried ltac:(discriminate)).
Defined.

Lemma igc_make_cons_writes_reserved_blocks_witness :
  exists s',
    igc_make_cons Lisp_Cons ([retry_round] ++ commit_round :: []) 10 14 fresh
    = Done (make_lisp_ptr (reserve_addr commit_round) Lisp_Cons, s') /\
    forall y,
      (forall b, In b ([retry_round] ++ [commit_round]) ->
         y < reserve_addr b \/ reserve_addr b + sizeof_Lisp_Cons <= y) ->
      heap s' y = heap fresh y.
Proof.
  exact (igc_make_cons_writes_reserved_blocks Lisp_Cons [retry_round] commit_round []
           10 14 fresh retries_retried commit_round_committed).
Defined.

Lemma allocated_values_decode_witness :
  IGC_TAG (make_lisp_ptr 8192 Lisp_Cons) = Lisp_Cons /\
  IGC_VAL (make_lisp_ptr 8192 Lisp_Cons) = 8192 /\
  IGC_TAG (make_lisp_symbol Lisp_Symbol lispsym 8192) = Lisp_Symbol /\
  symbol_ref lispsym (make_lisp_symbol Lisp_Symbol lispsym 8192) = 8192.
Proof.
  exact (allocated_values_decode Lisp_Symbol Lisp_Cons lispsym lispsym_is_aligned 8192
           eq_refl (small_word 8192 ltac:(lia)) Lisp_Cons_is_tag
           ltac:(unfold Lisp_Symbol, GCALIGNMENT; lia)).
Defined.

End AllocFacts.

(** ** More on the root registry: removal, lookup, teardown *)

Module Roots.
Import Format Registry Emacs.

(** The nodes at [l], linked in this order from [first] and ending in a
    link to [after]; [linked] is the case where [after] is NULL. *)
Fixpoint seg (ns : gmap Z igc_root_list) (before : Z) (l : list Z) (first after : Z)
  : Prop :=
  match l with
  | [] => first = after
  | a :: rest =>
      first = a /\ a <> NULL /\
      exists node, ns !! a = Some node /\ prev node = before /\
                   seg ns a rest (next node) after
  end.

Lemma linked_seg ns : forall l before first,
  linked ns before l first <-> seg ns before l first NULL.
Proof.
  induction l as [|a rest IH]; intros before first; simpl; [reflexivity|].
  split; intros (-> & Hnn & node & Hnode & Hprev & Hrest);
    (split; [reflexivity|]; split; [exact Hnn|]; exists node;
     split; [exact Hnode|]; split; [exact Hprev|]; now apply IH).
Qed.

Lemma last_cons_default {A} (l : list A) : forall x d d',
  List.last (x :: l) d = List.last (x :: l) d'.
Proof.
  induction l as [|y l IH]; intros x d d'; [reflexivity|].
  change (List.last (y :: l) d = List.last (y :: l) d'). apply IH.
Qed.

Lemma last_cons_step {A} (l : list A) a d :
  List.last (a :: l) d = List.last l a.
Proof.
  destruct l as [|y l]; [reflexivity|].
  change (List.last (y :: l) d = List.last (y :: l) a). apply last_cons_default.
Qed.

Lemma seg_app ns : forall l1 l2 before first after,
  seg ns before (l1 ++ l2) first after <->
  exists mid, seg ns before l1 first mid /\ seg ns (List.last l1 before) l2 mid after.
Proof.
  induction l1 as [|a rest IH]; intros l2 before first after.
  - simpl. split.
    + intros H. now exists first.
    + intros (mid & -> & H). exact H.
  - cbn [app seg]. split.
    + intros (-> & Hnn & node & Hnode & Hprev & Hrest).
      apply IH in Hrest. destruct Hrest as (mid & H1 & H2).
      exists mid. split.
      * split; [reflexivity|]. split; [exact Hnn|]. now exists node.
      * rewrite last_cons_step. exact H2.
    + intros (mid & (-> & Hnn & node & Hnode & Hprev & Hrest) & H2).
      split; [reflexivity|]. split; [exact Hnn|]. exists node.
      split; [exact Hnode|]. split; [exact Hprev|].
      apply IH. exists mid. split; [exact Hrest|].
      rewrite last_cons_step in H2. exact H2.
Qed.

Lemma seg_frame ns ns' : forall l before first after,
  (forall a, In a l -> ns' !! a = ns !! a) ->
  seg ns before l first after -> seg ns' before l first after.
Proof.
  induction l as [|a rest IH]; intros before first after Hsame H; simpl in *; [exact H|].
  destruct H as (-> & Hnn & node & Hnode & Hprev & Hrest).
  split; [reflexivity|]. split; [exact Hnn|]. exists node.
  split; [rewrite Hsame by (now left); exact Hnode|]. split; [exact Hprev|].
  apply IH; [|exact Hrest]. intros b Hb. apply Hsame. now right.
Qed.

Lemma seg_nonnull ns : forall l before first after a,
  seg ns before l first after -> In a l -> a <> NULL.
Proof.
  induction l as [|b rest IH]; intros before first after a H Ha; simpl in *; [destruct Ha|].
  destruct H as (-> & Hnn & node & _ & _ & Hrest).
  destruct Ha as [<-|Ha]; [exact Hnn | exact (IH _ _ _ _ Hrest Ha)].
Qed.

(** The back link of a node of a segment leads to the node before the
    segment or into the segment. *)
Lemma seg_prev ns : forall l before first after a node,
  seg ns before l first after -> In a l -> ns !! a = Some node ->
  prev node = before \/ In (prev node) l.
Proof.
  induction l as [|b rest IH]; intros before first after a node H Ha Hnode;
    simpl in *; [destruct Ha|].
  destruct H as (-> & Hnn & n & Hn & Hprev & Hrest).
  destruct Ha as [<-|Ha].
  - left. congruence.
  - right. destruct (IH _ _ _ _ _ Hrest Ha Hnode) as [->|H]; [now left | now right].
Qed.

Lemma seg_NoDup ns : forall l before first after,
  seg ns before l first after -> ~ In before l -> List.NoDup l.
Proof.
  induction l as [|a rest IH]; intros before first after H Hb; [constructor|].
  pose proof H as (-> & Hnn & node & Hnode & Hprev & Hrest).
  assert (Ha : ~ In a rest).
  { intros Hin. destruct (seg_prev _ _ _ _ _ _ _ Hrest Hin Hnode) as [E|E].
    - apply Hb. left. congruence.
    - apply Hb. right. congruence. }
  constructor; [exact Ha|]. exact (IH _ _ _ Hrest Ha).
Qed.

Lemma registry_NoDup st g l : registry st g l -> List.NoDup l.
Proof.
  intros (first & _ & H). apply linked_seg in H.
  apply (seg_NoDup _ _ _ _ _ H). intros Hin.
  now apply (seg_nonnull _ _ _ _ _ _ H Hin).
Qed.

(** What [igc_root_list_remove] leaves of the nodes when the neighbours of
    [r] are where its links say. *)
Lemma remove_lookup st g r node :
  nodes st !! r = Some node ->
  (next node <> NULL -> is_Some (nodes st !! next node)) ->
  (prev node <> NULL -> is_Some (nodes st !! prev node)) ->
  (prev node = NULL -> is_Some (roots st !! g)) ->
  (next node <> NULL -> prev node <> next node) ->
  r <> prev node -> r <> next node ->
  exists st',
    igc_root_list_remove g r st = Some (d node, st') /\
    roots st' = (if prev node =? NULL then <[g := next node]> (roots st) else roots st) /\
    nodes st' !! r = None /\
    (next node <> NULL -> forall n, nodes st !! next node = Some n ->
       nodes st' !! next node = Some (set_prev n (prev node))) /\
    (prev node <> NULL -> forall p, nodes st !! prev node = Some p ->
       nodes st' !! prev node = Some (set_next p (next node))) /\
    (forall a, a <> r ->
       a <> next node \/ next node = NULL ->
       a <> prev node \/ prev node = NULL ->
       nodes st' !! a = nodes st !! a).
Proof.
  intros Hr Hnx Hpr Hhead Hdist Hrp Hrn.
  unfold igc_root_list_remove. rewrite Hr.
  destruct (Z.eqb_spec (next node) NULL) as [En|En];
    destruct (Z.eqb_spec (prev node) NULL) as [Ep|Ep]; cbn [negb].
  - destruct (Hhead Ep) as [h Hh]. rewrite Hh. eexists. split; [reflexivity|].
    cbn [nodes roots]. split; [reflexivity|]. split; [apply lookup_delete_eq|].
    split; [intros H; now elim H|]. split; [intros H; now elim H|].
    intros a Ha _ _. now rewrite lookup_delete_ne.
  - destruct (Hpr Ep) as [p Hp]. rewrite Hp. eexists. split; [reflexivity|].
    cbn [nodes roots]. split; [reflexivity|]. split; [apply lookup_delete_eq|].
    split; [intros H; now elim H|]. split.
    + intros _ p' Hp'. rewrite lookup_delete_ne by exact Hrp.
      rewrite lookup_insert_eq. congruence.
    + intros a Ha _ [Hap|Hap]; [|congruence].
      rewrite lookup_delete_ne by congruence.
      now rewrite lookup_insert_ne by congruence.
  - destruct (Hnx En) as [n Hn]. rewrite Hn. destruct (Hhead Ep) as [h Hh]. rewrite Hh.
    eexists. split; [reflexivity|].
    cbn [nodes roots]. split; [reflexivity|]. split; [apply lookup_delete_eq|]. split.
    + intros _ n' Hn'. rewrite lookup_delete_ne by exact Hrn.
      rewrite lookup_insert_eq. congruence.
    + split; [intros H; now elim H|].
      intros a Ha [Han|Han] _; [|congruence].
      rewrite lookup_delete_ne by congruence.
      now rewrite lookup_insert_ne by congruence.
  - destruct (Hnx En) as [n Hn]. rewrite Hn. destruct (Hpr Ep) as [p Hp].
    specialize (Hdist En).
    rewrite lookup_insert_ne by congruence. rewrite Hp.
    eexists. split; [reflexivity|].
    cbn [nodes roots]. split; [reflexivity|]. split; [apply lookup_delete_eq|]. split.
    + intros _ n' Hn'. rewrite lookup_delete_ne by exact Hrn.
      rewrite lookup_insert_ne by exact Hdist. rewrite lookup_insert_eq. congruence.
    + split.
      * intros _ p' Hp'. rewrite lookup_delete_ne by exact Hrp.
        rewrite lookup_insert_eq. congruence.
      * intros a Ha [Han|Han] [Hap|Hap]; try congruence.
        rewrite lookup_delete_ne by congruence.
        rewrite !lookup_insert_ne by congruence. reflexivity.
Qed.

Lemma last_In {A} (l : list A) : forall d, l <> [] -> In (List.last l d) l.
Proof.
  induction l as [|x l IH]; intros d Hl; [congruence|].
  rewrite last_cons_step. destruct l as [|y l]; [now left|].
  right. apply IH. discriminate.
Qed.

Lemma seg_lookup ns : forall l before first after a,
  seg ns before l first after -> In a l -> is_Some (ns !! a).
Proof.
  induction l as [|b rest IH]; intros before first after a H Ha; simpl in *; [destruct Ha|].
  destruct H as (-> & _ & node & Hnode & _ & Hrest).
  destruct Ha as [<-|Ha]; [now exists node | exact (IH _ _ _ _ Hrest Ha)].
Qed.

(** A segment whose last node has its forward link redirected. *)
Lemma seg_redirect ns ns' nx : forall l before first after,
  l <> [] ->
  seg ns before l first after ->
  List.NoDup l ->
  (forall p, ns !! List.last l before = Some p ->
             ns' !! List.last l before = Some (set_next p nx)) ->
  (forall a, In a l -> a <> List.last l before -> ns' !! a = ns !! a) ->
  seg ns' before l first nx.
Proof.
  induction l as [|a rest IH]; intros before first after Hl H Hnd Hlast Hother;
    [congruence|].
  destruct H as (-> & Hnn & node & Hnode & Hprev & Hrest).
  inversion Hnd as [|? ? Ha Hnd']; subst.
  destruct rest as [|a2 t].
  - simpl in *. subst after. split; [reflexivity|]. split; [exact Hnn|].
    exists (set_next node nx). split; [now apply Hlast|]. split; reflexivity.
  - rewrite last_cons_step in Hlast, Hother.
    assert (Hin : In (List.last (a2 :: t) a) (a2 :: t)) by (apply last_In; discriminate).
    split; [reflexivity|]. split; [exact Hnn|]. exists node.
    split; [rewrite Hother; [exact Hnode | now left | intros E; apply Ha; now rewrite E]|].
    split; [reflexivity|].
    apply (IH a (next node) after); [discriminate | exact Hrest | exact Hnd' | exact Hlast |].
    intros b Hb Hne. apply Hother; [now right | exact Hne].
Qed.

(** Removing a member of a well-formed registry. *)
Lemma remove_member st g l1 r l2 :
  registry st g (l1 ++ r :: l2) ->
  exists node st',
    nodes st !! r = Some node /\
    igc_root_list_remove g r st = Some (d node, st') /\
    registry st' g (l1 ++ l2) /\
    nodes st' !! r = None /\
    (forall a, a <> r -> d <$> nodes st' !! a = d <$> nodes st !! a) /\
    (forall g', g' <> g -> roots st' !! g' = roots st !! g').
Proof.
  intros Hreg. pose proof (registry_NoDup _ _ _ Hreg) as Hnd.
  destruct Hreg as (first & Hhead & Hlinked).
  apply linked_seg in Hlinked. apply seg_app in Hlinked.
  destruct Hlinked as (mid & Hpre & Hsuf).
  pose proof Hsuf as (-> & Hrnn & node & Hnode & Hprev & Hl2).
  assert (Hnd1 : List.NoDup l1 /\ List.NoDup l2 /\ ~ In r l1 /\ ~ In r l2 /\
                 (forall x, In x l1 -> ~ In x l2)).
  { apply NoDup_ListNoDup, NoDup_app in Hnd. destruct Hnd as (H1 & Hd & H2).
    apply NoDup_cons in H2. destruct H2 as [Hr H2].
    split; [now apply NoDup_ListNoDup|]. split; [now apply NoDup_ListNoDup|].
    split; [|split].
    - intros Hin. apply (Hd r); [now apply list_elem_of_In | left].
    - intros Hin. apply Hr. now apply list_elem_of_In.
    - intros x Hx Hx2. apply (Hd x); [now apply list_elem_of_In|].
      right. now apply list_elem_of_In. }
  clear Hnd. destruct Hnd1 as (Hnd1 & Hnd2 & Hr1 & Hr2 & Hdisj).
  assert (Hpr : prev node <> NULL -> In (prev node) l1).
  { intros Hne. rewrite Hprev in *. destruct l1 as [|x l1]; [now elim Hne|].
    apply last_In. discriminate. }
  assert (Hnx : next node <> NULL -> exists l2', l2 = next node :: l2').
  { intros Hne. destruct l2 as [|n l2']; simpl in Hl2; [now elim Hne|].
    destruct Hl2 as (-> & _). now exists l2'. }
  assert (Hl1pr : forall a, In a l1 -> a <> next node \/ next node = NULL).
  { intros a Ha. destruct (Z.eq_dec (next node) NULL) as [|Hne]; [now right|]. left.
    destruct (Hnx Hne) as [l2' ->]. intros ->.
    apply (Hdisj (next node) Ha). now left. }
  destruct (remove_lookup st g r node Hnode) as (st' & Hrun & Hroots & Hgone & Hn & Hp & Hsame).
  - intros Hne. destruct (Hnx Hne) as [l2' ->]. simpl in Hl2.
    destruct Hl2 as (_ & _ & n & Hnn & _). now exists n.
  - intros Hne. exact (seg_lookup _ _ _ _ _ _ Hpre (Hpr Hne)).
  - intros _. now exists first.
  - intros Hne E. destruct (Hl1pr (prev node)) as [H|H]; [apply Hpr; congruence|..];
      congruence.
  - intros E. destruct (Z.eq_dec (prev node) NULL) as [E0|Hne]; [congruence|].
    apply Hr1. rewrite E. exact (Hpr Hne).
  - intros E. destruct (Z.eq_dec (next node) NULL) as [E0|Hne]; [congruence|].
    destruct (Hnx Hne) as [l2' ->]. apply Hr2. rewrite E. now left.
  - exists node, st'. split; [exact Hnode|]. split; [exact Hrun|].
    split; [|split; [exact Hgone|split]].
    + exists (if prev node =? NULL then next node else first). split.
      * rewrite Hroots. destruct (prev node =? NULL); [apply lookup_insert_eq | exact Hhead].
      * apply linked_seg, seg_app. exists (next node). split.
        -- destruct l1 as [|x l1].
           ++ simpl in Hprev. rewrite Hprev. simpl. reflexivity.
           ++ assert (Hne : prev node <> NULL).
              { rewrite Hprev. apply (seg_nonnull _ _ _ _ _ _ Hpre).
                apply last_In. discriminate. }
              apply Z.eqb_neq in Hne as Hb. rewrite Hb.
              apply (seg_redirect (nodes st) _ _ _ NULL first r);
                [discriminate | exact Hpre | exact Hnd1 | |].
              ** rewrite <- Hprev. intros p Hpp. now apply Hp.
              ** rewrite <- Hprev. intros a Ha Hap. apply Hsame.
                 --- intros ->. now apply Hr1.
                 --- now apply Hl1pr.
                 --- now left.
        -- rewrite <- Hprev. destruct l2 as [|n l2']; simpl in Hl2 |- *; [exact Hl2|].
           destruct Hl2 as (En & Hnn & nn & Hnnode & Hnprev & Hrest).
           split; [exact En|]. split; [exact Hnn|].
           exists (set_prev nn (prev node)). split.
           ++ rewrite <- En. apply Hn; [rewrite En; exact Hnn | rewrite En; exact Hnnode].
           ++ split; [reflexivity|]. cbn [set_prev next].
              apply (seg_frame (nodes st)); [|exact Hrest].
              intros a Ha. inversion Hnd2 as [|? ? Hn2 _]; subst.
              apply Hsame.
              ** intros ->. apply Hr2. now right.
              ** left. intros ->. now apply Hn2.
              ** destruct (Z.eq_dec (prev node) NULL) as [|Hne]; [now right|]. left.
                 intros ->. apply (Hdisj (prev node) (Hpr Hne)). now right.
    + intros a Ha.
      destruct (Z.eq_dec (next node) NULL) as [En|En];
        destruct (Z.eq_dec (prev node) NULL) as [Ep|Ep].
      * rewrite Hsame; auto.
      * destruct (Z.eq_dec a (prev node)) as [->|Hap].
        -- destruct (seg_lookup _ _ _ _ _ _ Hpre (Hpr Ep)) as [p Hpp].
           rewrite (Hp Ep p Hpp), Hpp. reflexivity.
        -- rewrite Hsame; auto.
      * destruct (Z.eq_dec a (next node)) as [->|Han].
        -- destruct (Hnx En) as [l2' ->]. simpl in Hl2.
           destruct Hl2 as (_ & _ & n & Hnn & _).
           rewrite (Hn En n Hnn), Hnn. reflexivity.
        -- rewrite Hsame; auto.
      * destruct (Z.eq_dec a (next node)) as [->|Han].
        -- destruct (Hnx En) as [l2' ->]. simpl in Hl2.
           destruct Hl2 as (_ & _ & n & Hnn & _).
           rewrite (Hn En n Hnn), Hnn. reflexivity.
        -- destruct (Z.eq_dec a (prev node)) as [->|Hap].
           ++ destruct (seg_lookup _ _ _ _ _ _ Hpre (Hpr Ep)) as [p Hpp].
              rewrite (Hp Ep p Hpp), Hpp. reflexivity.
           ++ rewrite Hsame; auto.
    + intros g' Hg. rewrite Hroots. destruct (prev node =? NULL); [|reflexivity].
      now rewrite lookup_insert_ne by congruence.
Qed.

(** Every node of the list carries the arena it is registered with, as
    [register_root] stores it. *)
Definition owned (st : store) (g : Z) (l : list Z) : Prop :=
  forall a, In a l -> exists node, nodes st !! a = Some node /\ gc (d node) = g.

(** The [struct igc_root] of a node, if there is one. *)
Definition data_at (st : store) (a : Z) : option igc_root := d <$> nodes st !! a.

Lemma owned_data st st' g l :
  (forall a, In a l -> data_at st' a = data_at st a) -> owned st g l -> owned st' g l.
Proof.
  intros Hsame Hown a Ha. destruct (Hown a Ha) as (node & Hnode & Hg).
  specialize (Hsame a Ha). unfold data_at in Hsame. rewrite Hnode in Hsame.
  destruct (nodes st' !! a) as [node'|]; [|discriminate].
  exists node'. split; [reflexivity|]. simpl in Hsame. congruence.
Qed.

(** [register_root] on a well-formed registry. *)
Lemma register_root_registry st g l r root_ start_ end' :
  registry st g l ->
  r <> NULL ->
  nodes st !! r = None ->
  exists st1,
    register_root g root_ start_ end' r st = Some (r, st1) /\
    registry st1 g (r :: l) /\
    data_at st1 r = Some {| gc := g; root := root_; start := start_; end_ := end' |} /\
    (forall a, a <> r -> data_at st1 a = data_at st a) /\
    (forall g', g' <> g -> roots st1 !! g' = roots st !! g').
Proof.
  intros Hreg Hr Hfresh. pose proof (registry_NoDup _ _ _ Hreg) as Hnd.
  destruct Hreg as (first & Hhead & Hlinked).
  unfold register_root, igc_root_list_push. cbn [next]. rewrite Hhead.
  destruct l as [|h rest]; simpl in Hlinked.
  - subst first. cbn [Z.eqb NULL negb]. eexists. split; [reflexivity|].
    unfold data_at. cbn [nodes roots].
    split; [|split; [|split]].
    + exists r. split; [apply lookup_insert_eq|]. simpl.
      split; [reflexivity|]. split; [exact Hr|]. eexists.
      split; [apply lookup_insert_eq|]. now split.
    + now rewrite lookup_insert_eq.
    + intros a Ha. now rewrite lookup_insert_ne by congruence.
    + intros g' Hg. now rewrite lookup_insert_ne by congruence.
  - destruct Hlinked as (-> & Hh & node & Hnode & Hprev & Hrest).
    assert (Hrh : r <> h) by (intros ->; congruence).
    assert (Hh' : (h =? NULL) = false) by (apply Z.eqb_neq; exact Hh).
    rewrite Hh'. cbn [negb]. rewrite lookup_insert_ne by exact Hrh. rewrite Hnode.
    eexists. split; [reflexivity|]. unfold data_at. cbn [nodes roots].
    inversion Hnd as [|? ? Hhrest _]; subst.
    split; [|split; [|split]].
    + exists r. split; [apply lookup_insert_eq|]. simpl.
      split; [reflexivity|]. split; [exact Hr|]. eexists. split.
      { rewrite lookup_insert_ne by congruence. apply lookup_insert_eq. }
      split; [reflexivity|]. cbn [next]. split; [reflexivity|]. split; [exact Hh|].
      eexists. split; [apply lookup_insert_eq|]. split; [reflexivity|].
      cbn [set_prev next]. apply (linked_frame (nodes st)); [|exact Hrest].
      intros a Ha.
      assert (a <> h) by (intros ->; now apply Hhrest).
      assert (a <> r).
      { intros ->. destruct (linked_lookup _ _ _ _ _ Hrest Ha) as [n Hn]. congruence. }
      now rewrite !lookup_insert_ne by congruence.
    + rewrite lookup_insert_ne by congruence. now rewrite lookup_insert_eq.
    + intros a Ha. destruct (Z.eq_dec a h) as [->|Hah].
      * rewrite lookup_insert_eq, Hnode. reflexivity.
      * now rewrite !lookup_insert_ne by congruence.
    + intros g' Hg. now rewrite lookup_insert_ne by congruence.
Qed.

(** [deregister_root] of the root between [l1] and [l2]. *)
Lemma deregister_between st g l1 r l2 :
  registry st g (l1 ++ r :: l2) ->
  owned st g (l1 ++ r :: l2) ->
  exists data st',
    data_at st r = Some data /\
    deregister_root r st = Some (root data, st') /\
    registry st' g (l1 ++ l2) /\
    owned st' g (l1 ++ l2) /\
    nodes st' !! r = None /\
    (forall a, a <> r -> data_at st' a = data_at st a) /\
    (forall g', g' <> g -> roots st' !! g' = roots st !! g').
Proof.
  intros Hreg Hown. pose proof (registry_NoDup _ _ _ Hreg) as Hnd.
  destruct (remove_member st g l1 r l2 Hreg)
    as (node & st' & Hnode & Hrun & Hreg' & Hgone & Hdata & Hroots).
  destruct (Hown r) as (node' & Hnode' & Hg); [apply in_or_app; right; now left|].
  assert (node' = node) by congruence. subst node'.
  exists (d node), st'. unfold data_at. rewrite Hnode.
  split; [reflexivity|]. split.
  { unfold deregister_root. rewrite Hnode, Hg, Hrun. reflexivity. }
  split; [exact Hreg'|]. split; [|split; [exact Hgone|split; [exact Hdata|exact Hroots]]].
  apply (owned_data st).
  - intros a Ha. apply Hdata. intros ->.
    apply NoDup_ListNoDup, NoDup_app in Hnd. destruct Hnd as (_ & Hd & H2).
    apply NoDup_cons in H2. destruct H2 as [Hr2 _].
    apply in_app_or in Ha. destruct Ha as [Ha|Ha].
    + apply (Hd r); [now apply list_elem_of_In | left].
    + apply Hr2. now apply list_elem_of_In.
  - intros a Ha. apply Hown. apply in_app_or in Ha. apply in_or_app.
    destruct Ha as [Ha|Ha]; [now left | right; now right].
Qed.

(** *** Lookup by start address *)

(** The [for] loop of [find_root_with_start]; no result when it runs into
    a dangling link or does not come to an end. *)
Fixpoint find_root_loop (fuel : nat) (ns : gmap Z igc_root_list) (r start_ : Z)
  : option Z :=
  if r =? NULL then Some NULL
  else
    match fuel with
    | O => None
    | S k =>
        match ns !! r with
        | None => None
        | Some node =>
            if start (d node) =? start_ then Some r
            else find_root_loop k ns (next node) start_
        end
    end.

Definition find_root_with_start (g start_ : Z) (st : store) : option Z :=
  match roots st !! g with
  | None => None
  | Some first => find_root_loop (size (nodes st)) (nodes st) first start_
  end.

Definition has_start (st : store) (start_ : Z) (a : Z) : bool :=
  match data_at st a with
  | Some data => start data =? start_
  | None => false
  end.

(** The first node of the list that starts at [start_], NULL for none. *)
Definition first_with_start (st : store) (start_ : Z) (l : list Z) : Z :=
  hd NULL (List.filter (has_start st start_) l).

Lemma find_root_loop_spec st start_ : forall l before first fuel,
  seg (nodes st) before l first NULL ->
  (length l <= fuel)%nat ->
  find_root_loop fuel (nodes st) first start_ = Some (first_with_start st start_ l).
Proof.
  induction l as [|a rest IH]; intros before first fuel H Hfuel.
  - simpl in H. subst first. destruct fuel; reflexivity.
  - destruct H as (-> & Hnn & node & Hnode & _ & Hrest).
    destruct fuel as [|k]; [simpl in Hfuel; lia|].
    cbn [find_root_loop]. apply Z.eqb_neq in Hnn as Hb. rewrite Hb, Hnode.
    unfold first_with_start. cbn [List.filter]. unfold has_start at 1, data_at.
    rewrite Hnode. cbn [fmap option_fmap option_map].
    destruct (start (d node) =? start_); [reflexivity|].
    apply (IH a); [exact Hrest | simpl in Hfuel; lia].
Qed.

Lemma registry_length st g l : registry st g l -> (length l <= size (nodes st))%nat.
Proof.
  intros Hreg. pose proof (registry_NoDup _ _ _ Hreg) as Hnd.
  destruct Hreg as (first & _ & Hlinked). apply linked_seg in Hlinked.
  rewrite <- (length_map_to_list (nodes st)).
  rewrite <- (length_fmap fst (map_to_list (nodes st))).
  apply submseteq_length, NoDup_submseteq; [now apply NoDup_ListNoDup|].
  intros a Ha. apply list_elem_of_In in Ha.
  destruct (seg_lookup _ _ _ _ _ _ Hlinked Ha) as [node Hnode].
  apply list_elem_of_fmap. exists (a, node). split; [reflexivity|].
  now apply elem_of_map_to_list.
Qed.

Lemma find_root_with_start_first st g l start_ :
  registry st g l ->
  find_root_with_start g start_ st = Some (first_with_start st start_ l).
Proof.
  intros Hreg. pose proof (registry_length _ _ _ Hreg) as Hlen.
  destruct Hreg as (first & Hhead & Hlinked). apply linked_seg in Hlinked.
  unfold find_root_with_start. rewrite Hhead.
  exact (find_root_loop_spec st start_ l NULL first _ Hlinked Hlen).
Qed.

Lemma first_with_start_split st start_ : forall l,
  (first_with_start st start_ l = NULL /\
   Forall (fun a => has_start st start_ a = false) l) \/
  (exists l1 l2,
     l = l1 ++ first_with_start st start_ l :: l2 /\
     has_start st start_ (first_with_start st start_ l) = true /\
     Forall (fun a => has_start st start_ a = false) l1).
Proof.
  induction l as [|a rest IH]; [left; split; [reflexivity | constructor]|].
  unfold first_with_start in *. cbn [List.filter].
  destruct (has_start st start_ a) eqn:Ha.
  - right. exists [], rest. split; [reflexivity|]. split; [exact Ha | constructor].
  - destruct IH as [[E Hall]|(l1 & l2 & E & Hr & Hall)].
    + left. split; [exact E|]. now constructor.
    + right. exists (a :: l1), l2. split; [simpl; now rewrite <- E|].
      split; [exact Hr|]. now constructor.
Qed.

(** X15: on a well-formed registry [find_root_with_start] returns the
    first root, in list order from the head, whose [start] is the address
    asked for, and NULL when no root starts there. *)
Theorem find_root_with_start_finds st g l start_ :
  registry st g l ->
  exists r,
    find_root_with_start g start_ st = Some r /\
    ((r = NULL /\ Forall (fun a => has_start st start_ a = false) l) \/
     (exists l1 l2,
        l = l1 ++ r :: l2 /\ has_start st start_ r = true /\
        Forall (fun a => has_start st start_ a = false) l1)).
Proof.
  intros Hreg. exists (first_with_start st start_ l).
  split; [now apply (find_root_with_start_first st g)|].
  apply first_with_start_split.
Qed.

Lemma first_with_start_data st st' start_ l :
  (forall a, In a l -> data_at st' a = data_at st a) ->
  first_with_start st' start_ l = first_with_start st start_ l.
Proof.
  intros H. unfold first_with_start. f_equal.
  induction l as [|a rest IH]; [reflexivity|]. cbn [List.filter].
  assert (E : has_start st' start_ a = has_start st start_ a)
    by (unfold has_start; now rewrite (H a) by (now left)).
  rewrite E, IH by (intros b Hb; apply H; now right). reflexivity.
Qed.

(** X16: after [register_root], looking up the start address just
    registered gives the new handle, also when an older root starts at the
    same address, and looking up any other start address gives what it
    gave before. *)
Theorem find_root_after_register st g l r root_ start_ end' :
  registry st g l ->
  r <> NULL ->
  nodes st !! r = None ->
  exists st1,
    register_root g root_ start_ end' r st = Some (r, st1) /\
    find_root_with_start g start_ st1 = Some r /\
    (forall other, other <> start_ ->
       find_root_with_start g other st1 = find_root_with_start g other st).
Proof.
  intros Hreg Hr Hfresh.
  destruct (register_root_registry st g l r root_ start_ end' Hreg Hr Hfresh)
    as (st1 & Hrun & Hreg1 & Hdata & Hsame & _).
  exists st1. split; [exact Hrun|].
  assert (Hl : forall a, In a l -> data_at st1 a = data_at st a).
  { intros a Ha. apply Hsame. intros ->.
    destruct Hreg as (first & _ & Hlinked).
    destruct (linked_lookup _ _ _ _ _ Hlinked Ha) as [n Hn]. congruence. }
  split.
  - rewrite (find_root_with_start_first st1 g (r :: l)) by exact Hreg1.
    unfold first_with_start. cbn [List.filter]. unfold has_start at 1.
    now rewrite Hdata, Z.eqb_refl.
  - intros other Hother.
    rewrite (find_root_with_start_first st1 g (r :: l)) by exact Hreg1.
    rewrite (find_root_with_start_first st g l) by exact Hreg.
    unfold first_with_start at 1. cbn [List.filter]. unfold has_start at 1.
    rewrite Hdata. cbn [start].
    assert (Hb : (start_ =? other) = false) by (apply Z.eqb_neq; congruence).
    rewrite Hb. f_equal. now apply first_with_start_data.
Qed.

(** *** Removal of any root, and of all of them *)

Definition without (r : Z) (l : list Z) : list Z :=
  List.filter (fun a => negb (a =? r)) l.

Lemma without_absent r l : ~ In r l -> without r l = l.
Proof.
  induction l as [|a rest IH]; intros H; [reflexivity|]. unfold without in *.
  cbn [List.filter].
  assert (Hb : (a =? r) = false) by (apply Z.eqb_neq; intros ->; apply H; now left).
  rewrite Hb. cbn [negb]. f_equal. apply IH. intros Hin. apply H. now right.
Qed.

Lemma without_split r l1 l2 :
  List.NoDup (l1 ++ r :: l2) -> without r (l1 ++ r :: l2) = l1 ++ l2.
Proof.
  intros Hnd. apply NoDup_ListNoDup, NoDup_app in Hnd. destruct Hnd as (_ & Hd & H2).
  apply NoDup_cons in H2. destruct H2 as [Hr2 _].
  unfold without. rewrite List.filter_app. cbn [List.filter].
  rewrite Z.eqb_refl. cbn [negb].
  fold (without r l1). fold (without r l2).
  rewrite !without_absent; [reflexivity| |].
  - intros Hin. apply Hr2. now apply list_elem_of_In.
  - intros Hin. apply (Hd r); [now apply list_elem_of_In | left].
Qed.

(** X14: [deregister_root] of any root of a well-formed registry, first,
    last or in between, returns the [mps_root_t] stored in its node and
    leaves a well-formed registry of the other roots in their order, their
    data as it was, the node itself freed, and other registries alone. *)
Theorem deregister_root_member st g l r :
  registry st g l ->
  owned st g l ->
  In r l ->
  exists data st',
    data_at st r = Some data /\
    deregister_root r st = Some (root data, st') /\
    registry st' g (without r l) /\
    owned st' g (without r l) /\
    nodes st' !! r = None /\
    (forall a, a <> r -> data_at st' a = data_at st a) /\
    (forall g', g' <> g -> roots st' !! g' = roots st !! g').
Proof.
  intros Hreg Hown Hin. apply in_split in Hin. destruct Hin as (l1 & l2 & ->).
  rewrite (without_split r l1 l2 (registry_NoDup _ _ _ Hreg)).
  exact (deregister_between st g l1 r l2 Hreg Hown).
Qed.

(** The calls into MPS that the registry functions make, and the state
    they work on: the store of nodes and the calls made so far. *)
Inductive mps_call : Type :=
| ArenaPark
| ArenaRelease
| RootCreate (from to res handle : Z)
| RootCreateThread (thread cold res handle : Z)
| RootDestroy (handle : Z)
| ThreadReg (res thread : Z)
| ThreadDereg (thread : Z)
| ApCreate (pool res ap : Z)
| ApDestroy (ap : Z).

Record arena : Type := {
  st : store;
  calls : list mps_call
}.

(** A call that returns, ends in [emacs_abort] after the calls into MPS
    made so far, or has no defined outcome: a dangling pointer followed, or
    a walk without end. *)
Inductive result (A : Type) : Type :=
| Ok (a : A)
| Abort (made : list mps_call)
| Undefined.

Arguments Ok {A} a.
Arguments Abort {A} made.
Arguments Undefined {A}.

Definition mps_root_destroy (handle : Z) (a : arena) : arena :=
  {| st := st a; calls := calls a ++ [RootDestroy handle] |}.

Definition remove_root (r : Z) (a : arena) : result arena :=
  match deregister_root r (st a) with
  | Some (handle, st') => Ok (mps_root_destroy handle {| st := st'; calls := calls a |})
  | None => Undefined
  end.

(** The [while (gc->roots)] loop of [remove_all_roots]. *)
Fixpoint remove_all_roots_loop (fuel : nat) (g : Z) (a : arena) : result arena :=
  match roots (st a) !! g with
  | None => Undefined
  | Some first =>
      if first =? NULL then Ok a
      else
        match fuel with
        | O => Undefined
        | S k =>
            match remove_root first a with
            | Ok a' => remove_all_roots_loop k g a'
            | Abort made => Abort made
            | Undefined => Undefined
            end
        end
  end.

Definition remove_all_roots (g : Z) (a : arena) : result arena :=
  remove_all_roots_loop (size (nodes (st a))) g a.

(** The MPS root a node holds. *)
Definition root_at (s : store) (a : Z) : Z :=
  match data_at s a with
  | Some data => root data
  | None => NULL
  end.

Lemma remove_all_roots_loop_spec g : forall l fuel a,
  registry (st a) g l ->
  owned (st a) g l ->
  (length l <= fuel)%nat ->
  exists a',
    remove_all_roots_loop fuel g a = Ok a' /\
    registry (st a') g [] /\
    calls a' = calls a ++ map (fun x => RootDestroy (root_at (st a) x)) l /\
    (forall x, In x l -> nodes (st a') !! x = None) /\
    (forall x, ~ In x l -> data_at (st a') x = data_at (st a) x) /\
    (forall g', g' <> g -> roots (st a') !! g' = roots (st a) !! g').
Proof.
  induction l as [|h rest IH]; intros fuel a Hreg Hown Hfuel.
  - exists a. pose proof Hreg as (first & Hhead & Hlinked). simpl in Hlinked. subst first.
    split; [destruct fuel; simpl; rewrite Hhead; reflexivity|].
    split; [exact Hreg|]. split; [simpl; now rewrite app_nil_r|].
    split; [intros x []|]. split; reflexivity.
  - destruct fuel as [|k]; [simpl in Hfuel; lia|].
    pose proof (registry_NoDup _ _ _ Hreg) as Hnd.
    inversion Hnd as [|? ? Hh Hnd']; subst.
    destruct (deregister_between (st a) g [] h rest Hreg Hown)
      as (data & st' & Hdata & Hrun & Hreg' & Hown' & Hgone & Hsame & Hroots).
    pose proof Hreg as (first & Hhead & Hlinked).
    destruct Hlinked as (-> & Hnn & _).
    cbn [remove_all_roots_loop]. rewrite Hhead.
    apply Z.eqb_neq in Hnn as Hb. rewrite Hb.
    unfold remove_root. rewrite Hrun.
    destruct (IH k (mps_root_destroy (root data) {| st := st'; calls := calls a |}))
      as (a' & Hloop & Hempty & Hcalls & Hfreed & Hkept & Hothers).
    + exact Hreg'.
    + exact Hown'.
    + simpl in Hfuel. cbn [mps_root_destroy st]. lia.
    + exists a'. split; [exact Hloop|]. split; [exact Hempty|].
      cbn [mps_root_destroy st calls] in *. split; [|split; [|split]].
      * rewrite Hcalls. cbn [map]. rewrite <- app_assoc. cbn [app].
        f_equal. f_equal.
        -- unfold root_at. now rewrite Hdata.
        -- apply map_ext_in. intros x Hx. unfold root_at.
           rewrite Hsame; [reflexivity|]. intros ->. now apply Hh.
      * intros x [<-|Hx]; [|now apply Hfreed].
        destruct (in_dec Z.eq_dec h rest) as [Hin|Hout]; [now elim Hh|].
        specialize (Hkept h Hout). unfold data_at in Hkept.
        rewrite Hgone in Hkept. destruct (nodes (st a') !! h); [discriminate|reflexivity].
      * intros x Hx. rewrite Hkept by (intros Hin; apply Hx; now right).
        apply Hsame. intros ->. apply Hx. now left.
      * intros g' Hg. rewrite Hothers by exact Hg. now apply Hroots.
Qed.

(** X17: [remove_all_roots] on a well-formed registry comes to an end
    with the registry empty, having destroyed the MPS root of every
    registered root, head first, and freed every node; nodes and registries
    that are not of this arena are left as they were. *)
Theorem remove_all_roots_empties g l a :
  registry (st a) g l ->
  owned (st a) g l ->
  exists a',
    remove_all_roots g a = Ok a' /\
    roots (st a') !! g = Some NULL /\
    calls a' = calls a ++ map (fun x => RootDestroy (root_at (st a) x)) l /\
    (forall x, In x l -> nodes (st a') !! x = None) /\
    (forall x, ~ In x l -> data_at (st a') x = data_at (st a) x) /\
    (forall g', g' <> g -> roots (st a') !! g' = roots (st a) !! g').
Proof.
  intros Hreg Hown.
  destruct (remove_all_roots_loop_spec g l (size (nodes (st a))) a Hreg Hown
              (registry_length _ _ _ Hreg))
    as (a' & Hrun & (first & Hhead & Hlinked) & Hrest).
  simpl in Hlinked. subst first. exists a'. split; [exact Hrun|]. split; [exact Hhead|].
  exact Hrest.
Qed.

(** *** The hooks that create and replace roots *)

(** What the environment answers when a root is made and registered: the
    result code and handle of [mps_root_create_area_tagged], and the block
    [xzalloc] hands to the list push. *)
Record creation : Type := {
  create_res : Z;
  created : Z;
  node_block : Z
}.

Definition mps_arena_park (a : arena) : arena :=
  {| st := st a; calls := calls a ++ [ArenaPark] |}.

Definition mps_arena_release (a : arena) : arena :=
  {| st := st a; calls := calls a ++ [ArenaRelease] |}.

Section Hooks.

Variable IGC_DEBUG : bool.
Variable global_igc : Z.

(** [make_ambig_root (gc, start, end)] with its [IGC_CHECK_RES]. *)
Definition make_ambig_root (c : creation) (from to : Z) (a : arena)
  : result (Z * arena) :=
  let a := {| st := st a;
              calls := calls a ++ [RootCreate from to (create_res c) (created c)] |} in
  if negb (create_res c =? Fix.MPS_RES_OK) then Abort (calls a) else Ok (created c, a).

Definition igc_on_mem_insert (c : creation) (from to : Z) (a : arena)
  : result (Z * arena) :=
  match make_ambig_root c from to a with
  | Ok (handle, a) =>
      match register_root global_igc handle from to (node_block c) (st a) with
      | Some (r, st') => Ok (r, {| st := st'; calls := calls a |})
      | None => Undefined
      end
  | Abort made => Abort made
  | Undefined => Undefined
  end.

Definition igc_on_mem_delete (info : Z) (a : arena) : result arena :=
  remove_root info a.

(** [igc_xalloc_ambig_root (size)], where [start] is the block [xzalloc]
    hands out for the memory asked for. *)
Definition igc_xalloc_ambig_root (c : creation) (start_ size_ : Z) (a : arena)
  : result (Z * arena) :=
  let end' := start_ + size_ in
  match make_ambig_root c start_ end' a with
  | Ok (handle, a) =>
      match register_root global_igc handle start_ end' (node_block c) (st a) with
      | Some (_, st') => Ok (start_, {| st := st'; calls := calls a |})
      | None => Undefined
      end
  | Abort made => Abort made
  | Undefined => Undefined
  end.

Definition igc_xfree_ambig_root (p : Z) (a : arena) : result arena :=
  if p =? NULL then Ok a
  else
    match find_root_with_start global_igc p (st a) with
    | None => Undefined
    | Some r =>
        if IGC_DEBUG && negb (negb (r =? NULL)) then Abort (calls a)
        else remove_root r a
    end.

(** [igc_on_grow_read_stack (info, start, end)]; the body runs once between
    the park and the release of [IGC_WITH_PARKED]. *)
Definition igc_on_grow_read_stack (c : creation) (info from to : Z) (a : arena)
  : result (Z * arena) :=
  let a := mps_arena_park a in
  match (if negb (info =? NULL) then remove_root info a else Ok a) with
  | Ok a =>
      match make_ambig_root c from to a with
      | Ok (handle, a) =>
          match register_root global_igc handle from to (node_block c) (st a) with
          | Some (info', st') =>
              Ok (info', mps_arena_release {| st := st'; calls := calls a |})
          | None => Undefined
          end
      | Abort made => Abort made
      | Undefined => Undefined
      end
  | Abort made => Abort made
  | Undefined => Undefined
  end.

Lemma owned_cons s g l r data :
  data_at s r = Some data -> gc data = g -> owned s g l -> owned s g (r :: l).
Proof.
  intros Hdata Hg Hown a [<-|Ha]; [|now apply Hown].
  unfold data_at in Hdata. destruct (nodes s !! r) as [node|]; [|discriminate].
  exists node. split; [reflexivity|]. simpl in Hdata. congruence.
Qed.

Lemma registry_fresh s g l a : registry s g l -> nodes s !! a = None -> ~ In a l.
Proof.
  intros (first & _ & Hlinked) Hnone Hin.
  destruct (linked_lookup _ _ _ _ _ Hlinked Hin) as [n Hn]. congruence.
Qed.

(** X18: [igc_on_mem_insert] creates an ambiguous root for the block and
    registers it in front; [igc_on_mem_delete] of the handle it returned
    destroys that same root and leaves a well-formed registry of the roots
    that were there before, their data unchanged. *)
Theorem mem_insert_then_delete c from to l a :
  registry (st a) global_igc l ->
  owned (st a) global_igc l ->
  create_res c = Fix.MPS_RES_OK ->
  node_block c <> NULL ->
  nodes (st a) !! node_block c = None ->
  exists a1 a2,
    igc_on_mem_insert c from to a = Ok (node_block c, a1) /\
    registry (st a1) global_igc (node_block c :: l) /\
    data_at (st a1) (node_block c)
    = Some {| gc := global_igc; root := created c; start := from; end_ := to |} /\
    igc_on_mem_delete (node_block c) a1 = Ok a2 /\
    registry (st a2) global_igc l /\
    owned (st a2) global_igc l /\
    (forall x, In x l -> data_at (st a2) x = data_at (st a) x) /\
    nodes (st a2) !! node_block c = None /\
    calls a2 = calls a ++ [RootCreate from to Fix.MPS_RES_OK (created c);
                           RootDestroy (created c)].
Proof.
  intros Hreg Hown Hres Hnn Hfresh.
  destruct (register_root_registry (st a) global_igc l (node_block c) (created c)
              from to Hreg Hnn Hfresh)
    as (st1 & Hrun & Hreg1 & Hdata & Hsame & _).
  pose proof (registry_fresh _ _ _ _ Hreg Hfresh) as Hout.
  assert (Hown1 : owned st1 global_igc (node_block c :: l)).
  { apply (owned_cons _ _ _ _ _ Hdata eq_refl).
    apply (owned_data (st a)); [|exact Hown].
    intros x Hx. apply Hsame. intros ->. now apply Hout. }
  destruct (deregister_between st1 global_igc [] (node_block c) l Hreg1 Hown1)
    as (data & st2 & Hdata' & Hrun2 & Hreg2 & Hown2 & Hgone & Hsame2 & _).
  assert (data = {| gc := global_igc; root := created c; start := from; end_ := to |})
    by congruence. subst data.
  eexists. eexists.
  unfold igc_on_mem_insert, make_ambig_root, igc_on_mem_delete, remove_root.
  rewrite Hres. cbn [Z.eqb negb Fix.MPS_RES_OK st calls]. rewrite Hrun.
  split; [reflexivity|]. cbn [st calls]. rewrite Hrun2. cbn [root].
  split; [exact Hreg1|]. split; [exact Hdata|]. split; [reflexivity|].
  cbn [mps_root_destroy st calls].
  split; [exact Hreg2|]. split; [exact Hown2|]. split; [|split; [exact Hgone|]].
  - intros x Hx. assert (x <> node_block c) by (intros ->; now apply Hout).
    rewrite Hsame2 by assumption. now apply Hsame.
  - rewrite <- app_assoc. reflexivity.
Qed.

(** X19: [igc_xfree_ambig_root] of an address at which a registered root
    starts removes the first such root from the registry and destroys its
    MPS root; the other roots stay registered, in their order. *)
Theorem xfree_ambig_root_removes p l a :
  registry (st a) global_igc l ->
  owned (st a) global_igc l ->
  p <> NULL ->
  Exists (fun x => has_start (st a) p x = true) l ->
  exists r l1 l2 a',
    l = l1 ++ r :: l2 /\
    has_start (st a) p r = true /\
    Forall (fun x => has_start (st a) p x = false) l1 /\
    igc_xfree_ambig_root p a = Ok a' /\
    registry (st a') global_igc (l1 ++ l2) /\
    owned (st a') global_igc (l1 ++ l2) /\
    nodes (st a') !! r = None /\
    calls a' = calls a ++ [RootDestroy (root_at (st a) r)].
Proof.
  intros Hreg Hown Hp Hex.
  destruct (first_with_start_split (st a) p l) as [[_ Hall]|(l1 & l2 & El & Hr & Hall)].
  { exfalso. apply List.Exists_exists in Hex. destruct Hex as (x & Hx & Hs).
    apply List.Forall_forall with (x := x) in Hall; [congruence | exact Hx]. }
  set (r := first_with_start (st a) p l) in *.
  assert (Hrnn : r <> NULL).
  { destruct Hreg as (first & _ & Hlinked). apply linked_seg in Hlinked.
    apply (seg_nonnull _ _ _ _ _ _ Hlinked). rewrite El.
    apply in_or_app. right. now left. }
  pose proof Hreg as Hreg0. rewrite El in Hreg, Hown.
  destruct (deregister_between (st a) global_igc l1 r l2 Hreg Hown)
    as (data & st' & Hdata & Hrun & Hreg' & Hown' & Hgone & _ & _).
  exists r, l1, l2. eexists.
  split; [exact El|]. split; [exact Hr|]. split; [exact Hall|].
  unfold igc_xfree_ambig_root. apply Z.eqb_neq in Hp. rewrite Hp.
  rewrite (find_root_with_start_first (st a) global_igc l) by exact Hreg0. fold r.
  apply Z.eqb_neq in Hrnn. rewrite Hrnn. cbn [negb]. rewrite andb_false_r.
  unfold remove_root. rewrite Hrun. split; [reflexivity|].
  cbn [mps_root_destroy st calls].
  split; [exact Hreg'|]. split; [exact Hown'|]. split; [exact Hgone|].
  unfold root_at. now rewrite Hdata.
Qed.

(** X20: [igc_xfree_ambig_root (NULL)] does nothing; of an address at
    which no registered root starts it fails its assertion and aborts, in
    a build with [IGC_DEBUG], having made no call into MPS. *)
Theorem xfree_ambig_root_edges p l a :
  registry (st a) global_igc l ->
  p <> NULL ->
  Forall (fun x => has_start (st a) p x = false) l ->
  IGC_DEBUG = true ->
  igc_xfree_ambig_root NULL a = Ok a /\
  igc_xfree_ambig_root p a = Abort (calls a).
Proof.
  intros Hreg Hp Hall Hdbg. split; [reflexivity|]. unfold igc_xfree_ambig_root.
  apply Z.eqb_neq in Hp. rewrite Hp.
  rewrite (find_root_with_start_first (st a) global_igc l) by exact Hreg.
  assert (E : first_with_start (st a) p l = NULL).
  { destruct (first_with_start_split (st a) p l) as [[E _]|(l1 & l2 & El & Hr & _)];
      [exact E|].
    apply List.Forall_forall with (x := first_with_start (st a) p l) in Hall;
      [congruence|].
    rewrite El at 2. apply in_or_app. right. now left. }
  rewrite E, Hdbg. reflexivity.
Qed.

(** X21: [igc_on_grow_read_stack] with the handle of a registered root
    parks the arena, destroys the old root, creates the new one, registers
    it in front of the roots that remain and releases the arena; it returns
    the new handle. With a NULL handle nothing is removed. *)
Theorem grow_read_stack_replaces c info from to l a :
  registry (st a) global_igc l ->
  owned (st a) global_igc l ->
  info = NULL \/ In info l ->
  create_res c = Fix.MPS_RES_OK ->
  node_block c <> NULL ->
  nodes (st a) !! node_block c = None \/ (node_block c = info /\ info <> NULL) ->
  exists a',
    igc_on_grow_read_stack c info from to a = Ok (node_block c, a') /\
    registry (st a') global_igc (node_block c :: without info l) /\
    owned (st a') global_igc (node_block c :: without info l) /\
    data_at (st a') (node_block c)
    = Some {| gc := global_igc; root := created c; start := from; end_ := to |} /\
    calls a' = calls a
               ++ [ArenaPark]
               ++ (if info =? NULL then [] else [RootDestroy (root_at (st a) info)])
               ++ [RootCreate from to Fix.MPS_RES_OK (created c); ArenaRelease].
Proof.
  intros Hreg Hown Hinfo Hres Hnn Hfresh.
  assert (Hnull : ~ In NULL l).
  { destruct Hreg as (first & _ & Hlinked). apply linked_seg in Hlinked.
    intros Hin. now apply (seg_nonnull _ _ _ _ _ _ Hlinked Hin). }
  unfold igc_on_grow_read_stack.
  destruct (Z.eqb_spec info NULL) as [E|E]; cbn [negb].
  - subst info. destruct Hfresh as [Hfresh|[_ Habs]]; [|now elim Habs].
    rewrite (without_absent NULL l Hnull).
    destruct (register_root_registry (st a) global_igc l (node_block c) (created c)
                from to Hreg Hnn Hfresh)
      as (st1 & Hrun & Hreg1 & Hdata & Hsame & _).
    unfold make_ambig_root. rewrite Hres. cbn [Z.eqb negb Fix.MPS_RES_OK st calls].
    cbn [mps_arena_park st calls]. rewrite Hrun.
    eexists. split; [reflexivity|]. cbn [mps_arena_release st calls].
    split; [exact Hreg1|]. split; [|split; [exact Hdata|]].
    + apply (owned_cons _ _ _ _ _ Hdata eq_refl).
      apply (owned_data (st a)); [|exact Hown].
      intros x Hx. apply Hsame. intros ->.
      now apply (registry_fresh _ _ _ _ Hreg Hfresh).
    + rewrite <- !app_assoc. reflexivity.
  - destruct Hinfo as [Hinfo|Hinfo]; [congruence|].
    apply in_split in Hinfo. destruct Hinfo as (l1 & l2 & ->).
    pose proof (registry_NoDup _ _ _ Hreg) as Hnd.
    rewrite (without_split info l1 l2 Hnd).
    destruct (deregister_between (st a) global_igc l1 info l2 Hreg Hown)
      as (data & st' & Hdata & Hrun & Hreg' & Hown' & Hgone & Hsame & _).
    assert (Hfresh' : nodes st' !! node_block c = None).
    { destruct Hfresh as [Hfresh|[-> _]]; [|exact Hgone].
      destruct (Z.eq_dec (node_block c) info) as [->|Hne]; [exact Hgone|].
      specialize (Hsame _ Hne). unfold data_at in Hsame. rewrite Hfresh in Hsame.
      destruct (nodes st' !! node_block c); [discriminate | reflexivity]. }
    destruct (register_root_registry st' global_igc (l1 ++ l2) (node_block c)
                (created c) from to Hreg' Hnn Hfresh')
      as (st1 & Hrun1 & Hreg1 & Hdata1 & Hsame1 & _).
    unfold remove_root. cbn [mps_arena_park st calls]. rewrite Hrun.
    unfold make_ambig_root. rewrite Hres.
    cbn [Z.eqb negb Fix.MPS_RES_OK mps_root_destroy st calls]. rewrite Hrun1.
    eexists. split; [reflexivity|]. cbn [mps_arena_release st calls].
    split; [exact Hreg1|]. split; [|split; [exact Hdata1|]].
    + apply (owned_cons _ _ _ _ _ Hdata1 eq_refl).
      apply (owned_data st'); [|exact Hown'].
      intros x Hx. apply Hsame1. intros ->.
      now apply (registry_fresh _ _ _ _ Hreg' Hfresh').
    + unfold root_at. rewrite Hdata. rewrite <- !app_assoc. reflexivity.
Qed.

(** X22: when the root cannot be created, [igc_on_mem_insert] aborts
    with the failed creation its only call into MPS, and so does
    [igc_on_grow_read_stack], with no old root to remove, the arena parked
    and the creation failed: the arena is not released. *)
Theorem failed_root_creation_aborts c from to a :
  create_res c <> Fix.MPS_RES_OK ->
  igc_on_mem_insert c from to a
  = Abort (calls a ++ [RootCreate from to (create_res c) (created c)]) /\
  igc_on_grow_read_stack c NULL from to a
  = Abort (calls a ++ [ArenaPark; RootCreate from to (create_res c) (created c)]).
Proof.
  intros Hres. apply Z.eqb_neq in Hres.
  unfold igc_on_mem_insert, igc_on_grow_read_stack, make_ambig_root.
  rewrite Hres. cbn [negb Z.eqb NULL mps_arena_park st calls].
  split; [reflexivity|]. now rewrite <- app_assoc.
Qed.

(** X28: the memory [igc_xalloc_ambig_root] hands out is given back by
    [igc_xfree_ambig_root]: the root made for it is the one found and
    destroyed, also when an older root starts at the same address, and the
    registry is again the well-formed list of the roots that were there
    before, their data unchanged. *)
Theorem xalloc_then_xfree c start_ size_ l a :
  registry (st a) global_igc l ->
  owned (st a) global_igc l ->
  create_res c = Fix.MPS_RES_OK ->
  start_ <> NULL ->
  node_block c <> NULL ->
  nodes (st a) !! node_block c = None ->
  exists a1 a2,
    igc_xalloc_ambig_root c start_ size_ a = Ok (start_, a1) /\
    registry (st a1) global_igc (node_block c :: l) /\
    data_at (st a1) (node_block c)
    = Some {| gc := global_igc; root := created c;
              start := start_; end_ := start_ + size_ |} /\
    igc_xfree_ambig_root start_ a1 = Ok a2 /\
    registry (st a2) global_igc l /\
    owned (st a2) global_igc l /\
    (forall x, In x l -> data_at (st a2) x = data_at (st a) x) /\
    nodes (st a2) !! node_block c = None /\
    calls a2 = calls a ++ [RootCreate start_ (start_ + size_) Fix.MPS_RES_OK (created c);
                           RootDestroy (created c)].
Proof.
  intros Hreg Hown Hres Hstart Hnn Hfresh.
  destruct (register_root_registry (st a) global_igc l (node_block c) (created c)
              start_ (start_ + size_) Hreg Hnn Hfresh)
    as (st1 & Hrun & Hreg1 & Hdata & Hsame & _).
  pose proof (registry_fresh _ _ _ _ Hreg Hfresh) as Hout.
  assert (Hown1 : owned st1 global_igc (node_block c :: l)).
  { apply (owned_cons _ _ _ _ _ Hdata eq_refl).
    apply (owned_data (st a)); [|exact Hown].
    intros x Hx. apply Hsame. intros ->. now apply Hout. }
  destruct (deregister_between st1 global_igc [] (node_block c) l Hreg1 Hown1)
    as (data & st2 & Hdata' & Hrun2 & Hreg2 & Hown2 & Hgone & Hsame2 & _).
  assert (data = {| gc := global_igc; root := created c;
                    start := start_; end_ := start_ + size_ |})
    by congruence. subst data.
  assert (Hfound : find_root_with_start global_igc start_ st1 = Some (node_block c)).
  { rewrite (find_root_with_start_first st1 global_igc (node_block c :: l))
      by exact Hreg1.
    unfold first_with_start. cbn [List.filter]. unfold has_start at 1.
    rewrite Hdata. cbn [start]. now rewrite Z.eqb_refl. }
  eexists. eexists.
  unfold igc_xalloc_ambig_root, make_ambig_root.
  rewrite Hres. cbn [Z.eqb negb Fix.MPS_RES_OK st calls]. rewrite Hrun.
  split; [reflexivity|]. cbn [st calls].
  split; [exact Hreg1|]. split; [exact Hdata|].
  unfold igc_xfree_ambig_root. cbn [st].
  apply Z.eqb_neq in Hstart. rewrite Hstart, Hfound.
  apply Z.eqb_neq in Hnn. rewrite Hnn. cbn [negb]. rewrite andb_false_r.
  unfold remove_root. cbn [st calls]. rewrite Hrun2. cbn [root].
  split; [reflexivity|]. cbn [mps_root_destroy st calls].
  split; [exact Hreg2|]. split; [exact Hown2|]. split; [|split; [exact Hgone|]].
  - intros x Hx. assert (x <> node_block c) by (intros ->; now apply Hout).
    rewrite Hsame2 by assumption. now apply Hsame.
  - rewrite <- app_assoc. reflexivity.
Qed.

End Hooks.

(** *** A registry of two roots *)

(** The registry of the arena at 1 after a second root, at node 32, has
    been registered in front of the one of [one_root]. *)
Definition two_roots : store :=
  {| nodes := <[32 := {| next := 16; prev := NULL;
                         d := {| gc := 1; root := 701; start := 300; end_ := 400 |} |}]>
              {[ 16 := {| next := NULL; prev := 32;
                          d := {| gc := 1; root := 700; start := 100; end_ := 200 |} |} ]};
     roots := {[ 1 := 32 ]} |}.

Definition at_rest (s : store) : arena := {| st := s; calls := [] |}.

Lemma two_roots_registry : registry two_roots 1 [32; 16].
Proof.
  exists 32. split; [reflexivity|]. simpl. split; [reflexivity|].
  split; [discriminate|]. eexists. split; [reflexivity|]. split; [reflexivity|].
  simpl. split; [reflexivity|]. split; [discriminate|].
  eexists. split; [reflexivity|]. split; reflexivity.
Qed.

Lemma one_root_owned : owned one_root 1 [16].
Proof.
  intros a [<-|[]]. eexists. split; reflexivity.
Qed.

Lemma two_roots_owned : owned two_roots 1 [32; 16].
Proof.
  intros a [<-|[<-|[]]]; eexists; split; reflexivity.
Qed.

Lemma two_roots_registered :
  register_root 1 701 300 400 32 one_root = Some (32, two_roots).
Proof. reflexivity. Qed.

Lemma deregister_root_member_witness :
  exists data st',
    data_at two_roots 16 = Some data /\
    deregister_root 16 two_roots = Some (root data, st') /\
    registry st' 1 (without 16 [32; 16]) /\
    owned st' 1 (without 16 [32; 16]) /\
    nodes st' !! 16 = None /\
    (forall a, a <> 16 -> data_at st' a = data_at two_roots a) /\
    (forall g', g' <> 1 -> roots st' !! g' = roots two_roots !! g').
Proof.
  exact (deregister_root_member two_roots 1 [32; 16] 16
           two_roots_registry two_roots_owned ltac:(right; now left)).
Defined.

Lemma find_root_with_start_finds_witness :
  exists r,
    find_root_with_start 1 100 two_roots = Some r /\
    ((r = NULL /\ Forall (fun a => has_start two_roots 100 a = false) [32; 16]) \/
     (exists l1 l2,
        [32; 16] = l1 ++ r :: l2 /\ has_start two_roots 100 r = true /\
        Forall (fun a => has_start two_roots 100 a = false) l1)).
Proof.
  exact (find_root_with_start_finds two_roots 1 [32; 16] 100 two_roots_registry).
Defined.

Lemma find_root_after_register_witness :
  exists st1,
    register_root 1 701 300 400 32 one_root = Some (32, st1) /\
    find_root_with_start 1 300 st1 = Some 32 /\
    (forall other, other <> 300 ->
       find_root_with_start 1 other st1 = find_root_with_start 1 other one_root).
Proof.
  exact (find_root_after_register one_root 1 [16] 32 701 300 400
           one_root_registry ltac:(discriminate) eq_refl).
Defined.

Lemma remove_all_roots_empties_witness :
  exists a',
    remove_all_roots 1 (at_rest two_roots) = Ok a' /\
    roots (st a') !! 1 = Some NULL /\
    calls a' = [] ++ map (fun x => RootDestroy (root_at two_roots x)) [32; 16] /\
    (forall x, In x [32; 16] -> nodes (st a') !! x = None) /\
    (forall x, ~ In x [32; 16] -> data_at (st a') x = data_at two_roots x) /\
    (forall g', g' <> 1 -> roots (st a') !! g' = roots two_roots !! g').
Proof.
  exact (remove_all_roots_empties 1 [32; 16] (at_rest two_roots)
           two_roots_registry two_roots_owned).
Defined.

(** MPS makes the root 701 and [xzalloc] hands out the block at 32. *)
Definition made : creation :=
  {| create_res := Fix.MPS_RES_OK; created := 701; node_block := 32 |}.

(** MPS makes the root 702 and [xzalloc] hands out the block at 16 again,
    once it has been freed. *)
Definition made_again : creation :=
  {| create_res := Fix.MPS_RES_OK; created := 702; node_block := 16 |}.

Definition not_made : creation :=
  {| create_res := MPS_RES_FAIL; created := 0; node_block := 32 |}.

Lemma mem_insert_then_delete_witness :
  exists a1 a2,
    igc_on_mem_insert 1 made 300 400 (at_rest one_root) = Ok (32, a1) /\
    registry (st a1) 1 [32; 16] /\
    data_at (st a1) 32
    = Some {| gc := 1; root := 701; start := 300; end_ := 400 |} /\
    igc_on_mem_delete 32 a1 = Ok a2 /\
    registry (st a2) 1 [16] /\
    owned (st a2) 1 [16] /\
    (forall x, In x [16] -> data_at (st a2) x = data_at one_root x) /\
    nodes (st a2) !! 32 = None /\
    calls a2 = [] ++ [RootCreate 300 400 Fix.MPS_RES_OK 701; RootDestroy 701].
Proof.
  exact (mem_insert_then_delete 1 made 300 400 [16] (at_rest one_root)
           one_root_registry one_root_owned eq_refl ltac:(discriminate) eq_refl).
Defined.

Lemma xfree_ambig_root_removes_witness :
  exists r l1 l2 a',
    [32; 16] = l1 ++ r :: l2 /\
    has_start two_roots 100 r = true /\
    Forall (fun x => has_start two_roots 100 x = false) l1 /\
    igc_xfree_ambig_root true 1 100 (at_rest two_roots) = Ok a' /\
    registry (st a') 1 (l1 ++ l2) /\
    owned (st a') 1 (l1 ++ l2) /\
    nodes (st a') !! r = None /\
    calls a' = [] ++ [RootDestroy (root_at two_roots r)].
Proof.
  exact (xfree_ambig_root_removes true 1 100 [32; 16] (at_rest two_roots)
           two_roots_registry two_roots_owned ltac:(discriminate)
           ltac:(apply List.Exists_cons_tl, List.Exists_cons_hd; reflexivity)).
Defined.

Lemma xfree_ambig_root_edges_witness :
  igc_xfree_ambig_root true 1 NULL (at_rest two_roots) = Ok (at_rest two_roots) /\
  igc_xfree_ambig_root true 1 500 (at_rest two_roots)
  = Abort (calls (at_rest two_roots)).
Proof.
  exact (xfree_ambig_root_edges true 1 500 [32; 16] (at_rest two_roots)
           two_roots_registry ltac:(discriminate)
           ltac:(repeat constructor) eq_refl).
Defined.

Lemma grow_read_stack_replaces_witness :
  exists a',
    igc_on_grow_read_stack 1 made_again 16 100 800 (at_rest two_roots) = Ok (16, a') /\
    registry (st a') 1 (16 :: without 16 [32; 16]) /\
    owned (st a') 1 (16 :: without 16 [32; 16]) /\
    data_at (st a') 16
    = Some {| gc := 1; root := 702; start := 100; end_ := 800 |} /\
    calls a' = [] ++ [ArenaPark] ++ [RootDestroy (root_at two_roots 16)]
               ++ [RootCreate 100 800 Fix.MPS_RES_OK 702; ArenaRelease].
Proof.
  exact (grow_read_stack_replaces 1 made_again 16 100 800 [32; 16] (at_rest two_roots)
           two_roots_registry two_roots_owned ltac:(right; right; now left) eq_refl
           ltac:(discriminate) ltac:(right; split; [reflexivity | discriminate])).
Defined.

(** A second root starting at 100, where the root of [one_root] starts. *)
Lemma xalloc_then_xfree_witness :
  exists a1 a2,
    igc_xalloc_ambig_root 1 made 100 64 (at_rest one_root) = Ok (100, a1) /\
    registry (st a1) 1 [32; 16] /\
    data_at (st a1) 32
    = Some {| gc := 1; root := 701; start := 100; end_ := 100 + 64 |} /\
    igc_xfree_ambig_root true 1 100 a1 = Ok a2 /\
    registry (st a2) 1 [16] /\
    owned (st a2) 1 [16] /\
    (forall x, In x [16] -> data_at (st a2) x = data_at one_root x) /\
    nodes (st a2) !! 32 = None /\
    calls a2 = [] ++ [RootCreate 100 (100 + 64) Fix.MPS_RES_OK 701; RootDestroy 701].
Proof.
  exact (xalloc_then_xfree true 1 made 100 64 [16] (at_rest one_root)
           one_root_registry one_root_owned eq_refl ltac:(discriminate)
           ltac:(discriminate) eq_refl).
Defined.

Lemma failed_root_creation_aborts_witness :
  igc_on_mem_insert 1 not_made 300 400 (at_rest one_root)
  = Abort ([] ++ [RootCreate 300 400 MPS_RES_FAIL 0]) /\
  igc_on_grow_read_stack 1 not_made NULL 300 400 (at_rest one_root)
  = Abort ([] ++ [ArenaPark; RootCreate 300 400 MPS_RES_FAIL 0]).
Proof.
  exact (failed_root_creation_aborts 1 not_made 300 400 (at_rest one_root)
           ltac:(discriminate)).
Defined.

End Roots.

(** ** More on finalization *)

Module DrainFacts.
Import Mem Format Finalization Emacs.

Section Drain.

Variable IGC_DEBUG : bool.
Variable Qnil : Z.
Variable offsetof_function : Z.
Variable mps_message_type_finalization : Z.
Variable run_finalizer_function : Z -> mem -> mem.

Local Abbreviation do_finalize :=
  (Finalization.do_finalize Qnil offsetof_function run_finalizer_function).
Local Abbreviation handle_messages_loop :=
  (Finalization.handle_messages_loop IGC_DEBUG Qnil offsetof_function
     mps_message_type_finalization run_finalizer_function).
Local Abbreviation handle_messages :=
  (Finalization.handle_messages IGC_DEBUG Qnil offsetof_function
     mps_message_type_finalization run_finalizer_function).

Definition of_finalization (msg : mps_message) : Prop :=
  message_type msg = mps_message_type_finalization.

(** The callback slot of the finalizer a message is for holds nil. *)
Definition spent (m : mem) (msg : mps_message) : Prop :=
  load_word m (finalization_ref msg + offsetof_function) = Qnil.

(** What one turn of the loop does with a message that passes the
    assertion. *)
Lemma handle_messages_loop_turn k w msg rest :
  queue w = msg :: rest ->
  IGC_DEBUG = false \/ of_finalization msg ->
  handle_messages_loop (S k) w
  = handle_messages_loop k
      (do_finalize (finalization_ref msg)
         {| memory := memory w; queue := rest; finalized := finalized w |}).
Proof.
  intros E Hok. cbn [Finalization.handle_messages_loop]. rewrite E.
  cbn [mps_message_queue_type mps_message_get]. rewrite Z.eqb_refl.
  unfold IGC_ASSERT. destruct Hok as [->|Htype]; [reflexivity|].
  unfold of_finalization in Htype. rewrite Htype, Z.eqb_refl, andb_false_r.
  reflexivity.
Qed.

Lemma handle_messages_loop_follows : forall fuel w,
  (length (queue w) <= fuel)%nat ->
  IGC_DEBUG = false \/ Forall of_finalization (queue w) ->
  exists w' ran,
    handle_messages_loop fuel w = Done w' /\
    queue w' = [] /\
    finalized w' = finalized w ++ ran /\
    sublist (map fst ran) (map finalization_ref (queue w)) /\
    Forall (fun e => snd e <> Qnil) ran.
Proof.
  induction fuel as [|k IH]; intros w Hfuel Hq.
  - destruct (queue w) as [|msg rest] eqn:E; [|simpl in Hfuel; lia].
    exists w, []. simpl. rewrite E, app_nil_r. repeat split; constructor.
  - destruct (queue w) as [|msg rest] eqn:E.
    + exists w, []. simpl. rewrite E, app_nil_r. repeat split; constructor.
    + rewrite (handle_messages_loop_turn k w msg rest E)
        by (destruct Hq as [H|H]; [now left | right; now inversion H]).
      set (w0 := {| memory := memory w; queue := rest; finalized := finalized w |}).
      destruct (IH (do_finalize (finalization_ref msg) w0))
        as (w' & ran & Hrun & Hempty & Hlog & Hsub & Hfun).
      * rewrite do_finalize_queue. simpl in *. lia.
      * rewrite do_finalize_queue. destruct Hq as [H|H]; [now left | right].
        now inversion H.
      * rewrite do_finalize_queue in Hsub. cbn [queue w0] in Hsub.
        unfold Finalization.do_finalize in Hlog.
        destruct (Z.eqb_spec (load_word (memory w0)
                                (finalization_ref msg + offsetof_function)) Qnil)
          as [Hnil|Hset]; cbn [negb finalized w0] in Hlog.
        -- exists w', ran. split; [exact Hrun|]. split; [exact Hempty|].
           split; [exact Hlog|]. split; [|exact Hfun].
           cbn [map]. now apply sublist_cons.
        -- exists w', ((finalization_ref msg,
                        load_word (memory w0)
                          (finalization_ref msg + offsetof_function)) :: ran).
           split; [exact Hrun|]. split; [exact Hempty|].
           split; [rewrite Hlog, <- app_assoc; reflexivity|].
           split; [cbn [map fst]; now apply sublist_skip|].
           constructor; [exact Hset | exact Hfun].
Qed.

(** X23: a drain whose messages pass the assertion, all of them when
    [IGC_DEBUG] is off, comes to an end with the queue empty; the
    finalizers it has run are blocks named by the messages, in queue order,
    each at most as often as it is named, and each with a callback that was
    not nil. *)
Theorem drain_follows_queue w :
  IGC_DEBUG = false \/ Forall of_finalization (queue w) ->
  exists w' ran,
    handle_messages w = Done w' /\
    queue w' = [] /\
    finalized w' = finalized w ++ ran /\
    sublist (map fst ran) (map finalization_ref (queue w)) /\
    Forall (fun e => snd e <> Qnil) ran.
Proof.
  intros Hq. now apply handle_messages_loop_follows.
Qed.

(** X24: with [IGC_DEBUG], a drain that meets a message of another type
    than finalization aborts, whatever follows it in the queue. *)
Theorem drain_aborts_on_other_message w before msg after :
  IGC_DEBUG = true ->
  queue w = before ++ msg :: after ->
  Forall of_finalization before ->
  ~ of_finalization msg ->
  handle_messages w = Aborted.
Proof.
  intros Hdbg E Hbefore Hmsg. unfold Finalization.handle_messages.
  assert (H : forall before w fuel,
             queue w = before ++ msg :: after ->
             Forall of_finalization before ->
             (length (queue w) <= fuel)%nat ->
             handle_messages_loop fuel w = Aborted);
    [|now apply (H before)].
  clear w before E Hbefore.
  induction before as [|first before IH]; intros w fuel E Hbefore Hfuel.
  - destruct fuel as [|k]; [rewrite E in Hfuel; simpl in Hfuel; lia|].
    cbn [Finalization.handle_messages_loop]. simpl in E. rewrite E.
    cbn [mps_message_queue_type mps_message_get]. rewrite Z.eqb_refl.
    unfold IGC_ASSERT. rewrite Hdbg.
    assert (Hb : (message_type msg =? mps_message_type_finalization) = false)
      by (apply Z.eqb_neq; exact Hmsg).
    now rewrite Hb.
  - destruct fuel as [|k]; [rewrite E in Hfuel; simpl in Hfuel; lia|].
    pose proof (List.Forall_inv Hbefore) as Hfirst.
    pose proof (List.Forall_inv_tail Hbefore) as Hrest.
    rewrite (handle_messages_loop_turn k w first (before ++ msg :: after) E)
      by (now right).
    apply IH; [now rewrite do_finalize_queue | exact Hrest|].
    rewrite do_finalize_queue. rewrite E in Hfuel. simpl in *. lia.
Qed.

(** X25: a drain of messages for finalizers whose callback is nil already,
    as after an earlier drain, empties the queue and does nothing else: it
    runs no callback and leaves memory as it is. *)
Theorem drain_of_spent_finalizers w :
  IGC_DEBUG = false \/ Forall of_finalization (queue w) ->
  Forall (spent (memory w)) (queue w) ->
  handle_messages w
  = Done {| memory := memory w; queue := []; finalized := finalized w |}.
Proof.
  unfold Finalization.handle_messages.
  assert (H : forall fuel w,
             (length (queue w) <= fuel)%nat ->
             IGC_DEBUG = false \/ Forall of_finalization (queue w) ->
             Forall (spent (memory w)) (queue w) ->
             handle_messages_loop fuel w
             = Done {| memory := memory w; queue := []; finalized := finalized w |});
    [|now apply H].
  clear w. induction fuel as [|k IH]; intros w Hfuel Hq Hspent.
  - destruct w as [m q log]. simpl in *. destruct q; [reflexivity | simpl in Hfuel; lia].
  - destruct (queue w) as [|msg rest] eqn:E.
    + destruct w as [m q log]. simpl in *. now rewrite E.
    + rewrite (handle_messages_loop_turn k w msg rest E)
        by (destruct Hq as [H|H]; [now left | right; now inversion H]).
      inversion Hspent as [|? ? Hmsg Hrest]; subst.
      unfold spent in Hmsg. unfold Finalization.do_finalize. cbn [memory].
      apply Z.eqb_eq in Hmsg. rewrite Hmsg. cbn [negb].
      rewrite IH; [reflexivity | simpl in *; lia | | exact Hrest].
      destruct Hq as [H|H]; [now left | right; now inversion H].
Qed.

End Drain.

(** A message the collector posts when a collection starts. *)
Definition msg_gc : mps_message :=
  {| message_type := 1; finalization_ref := 0 |}.

Definition with_queue (q : list mps_message) : world :=
  {| memory := armed; queue := q; finalized := [] |}.

Lemma all_of_finalization :
  Forall (of_finalization mps_message_type_finalization) [msg64; msg128; msg64].
Proof. repeat constructor. Qed.

Lemma drain_follows_queue_witness :
  exists w' ran,
    Finalization.handle_messages igc_h_IGC_DEBUG Qnil offsetof_function
      mps_message_type_finalization noting_callback
      (with_queue [msg64; msg128; msg64]) = Done w' /\
    queue w' = [] /\
    finalized w' = [] ++ ran /\
    sublist (map fst ran) [64; 128; 64] /\
    Forall (fun e => snd e <> Qnil) ran.
Proof.
  exact (drain_follows_queue igc_h_IGC_DEBUG Qnil offsetof_function
           mps_message_type_finalization noting_callback
           (with_queue [msg64; msg128; msg64]) (or_intror all_of_finalization)).
Defined.

Lemma drain_aborts_on_other_message_witness :
  Finalization.handle_messages igc_h_IGC_DEBUG Qnil offsetof_function
    mps_message_type_finalization noting_callback
    (with_queue [msg64; msg_gc; msg128]) = Aborted.
Proof.
  exact (drain_aborts_on_other_message igc_h_IGC_DEBUG Qnil offsetof_function
           mps_message_type_finalization noting_callback
           (with_queue [msg64; msg_gc; msg128]) [msg64] msg_gc [msg128]
           eq_refl eq_refl ltac:(repeat constructor) ltac:(discriminate)).
Defined.

Lemma zeroed_spent :
  Forall (spent Qnil offsetof_function zeroed) [msg64; msg128; msg64].
Proof. repeat constructor. Qed.

Lemma drain_of_spent_finalizers_witness :
  Finalization.handle_messages igc_h_IGC_DEBUG Qnil offsetof_function
    mps_message_type_finalization noting_callback
    {| memory := zeroed; queue := [msg64; msg128; msg64]; finalized := [] |}
  = Done {| memory := zeroed; queue := []; finalized := [] |}.
Proof.
  exact (drain_of_spent_finalizers igc_h_IGC_DEBUG Qnil offsetof_function
           mps_message_type_finalization noting_callback
           {| memory := zeroed; queue := [msg64; msg128; msg64]; finalized := [] |}
           (or_intror all_of_finalization) zeroed_spent).
Defined.

End DrainFacts.

(** ** Threads *)

Module Threads.
Import Format Registry Emacs Roots.

(** [struct igc_thread] and the node type [igc_thread_list] that
    [IGC_DEFINE_LIST (igc_thread)] declares. *)
Record igc_thread : Type := {
  gc : Z;
  thr : Z;
  cold : Z;
  specpdl_root : Z;
  cons_ap : Z;
  symbol_ap : Z
}.

Record igc_thread_list : Type := {
  next : Z;
  prev : Z;
  d : igc_thread
}.

Definition set_next (n : igc_thread_list) (p : Z) : igc_thread_list :=
  {| next := p; prev := prev n; d := d n |}.

Definition set_prev (n : igc_thread_list) (p : Z) : igc_thread_list :=
  {| next := next n; prev := p; d := d n |}.

Definition set_d (n : igc_thread_list) (data : igc_thread) : igc_thread_list :=
  {| next := next n; prev := prev n; d := data |}.

Definition set_specpdl_root (t : igc_thread) (r : Z) : igc_thread :=
  {| gc := gc t; thr := thr t; cold := cold t; specpdl_root := r;
     cons_ap := cons_ap t; symbol_ap := symbol_ap t |}.

Definition set_cons_ap (t : igc_thread) (ap : Z) : igc_thread :=
  {| gc := gc t; thr := thr t; cold := cold t; specpdl_root := specpdl_root t;
     cons_ap := ap; symbol_ap := symbol_ap t |}.

Definition set_symbol_ap (t : igc_thread) (ap : Z) : igc_thread :=
  {| gc := gc t; thr := thr t; cold := cold t; specpdl_root := specpdl_root t;
     cons_ap := cons_ap t; symbol_ap := ap |}.

(** The root registry with the calls into MPS, the malloc heap of thread
    nodes, and the [threads] field of each [struct igc]. *)
Record machine : Type := {
  arena_of : arena;
  thread_nodes : gmap Z igc_thread_list;
  threads : gmap Z Z
}.

Definition with_arena (a : arena) (m : machine) : machine :=
  {| arena_of := a; thread_nodes := thread_nodes m; threads := threads m |}.

Definition with_thread_nodes (ns : gmap Z igc_thread_list) (m : machine) : machine :=
  {| arena_of := arena_of m; thread_nodes := ns; threads := threads m |}.

(** A call into MPS, noted. *)
Definition mps (c : mps_call) (m : machine) : machine :=
  with_arena {| st := st (arena_of m); calls := calls (arena_of m) ++ [c] |} m.

Definition bind {A B} (x : result A) (f : A -> result B) : result B :=
  match x with
  | Ok a => f a
  | Abort made => Abort made
  | Undefined => Undefined
  end.

(** [igc_thread_list_push (&gc->threads, d)], on the block [r] of [xzalloc]. *)
Definition igc_thread_list_push (head : Z) (data : igc_thread) (r : Z) (m : machine)
  : option (Z * machine) :=
  match threads m !! head with
  | None => None
  | Some first =>
      let node := {| next := first; prev := NULL; d := data |} in
      let ns := <[r := node]> (thread_nodes m) in
      let linked :=
        if negb (next node =? NULL) then
          match ns !! next node with
          | Some n => Some (<[next node := set_prev n r]> ns)
          | None => None
          end
        else Some ns in
      match linked with
      | Some ns' =>
          Some (r, {| arena_of := arena_of m; thread_nodes := ns';
                      threads := <[head := r]> (threads m) |})
      | None => None
      end
  end.

(** [igc_thread_list_remove (&d, head, r)]. *)
Definition igc_thread_list_remove (head : Z) (r : Z) (m : machine)
  : option (igc_thread * machine) :=
  match thread_nodes m !! r with
  | None => None
  | Some node =>
      let after :=
        if negb (next node =? NULL) then
          match thread_nodes m !! next node with
          | Some n => Some (<[next node := set_prev n (prev node)]> (thread_nodes m))
          | None => None
          end
        else Some (thread_nodes m) in
      match after with
      | None => None
      | Some ns =>
          let before :=
            if negb (prev node =? NULL) then
              match ns !! prev node with
              | Some n => Some (<[prev node := set_next n (next node)]> ns, threads m)
              | None => None
              end
            else
              match threads m !! head with
              | Some _ => Some (ns, <[head := next node]> (threads m))
              | None => None
              end in
          match before with
          | None => None
          | Some (ns', hd) =>
              Some (d node, {| arena_of := arena_of m; thread_nodes := delete r ns';
                               threads := hd |})
          end
      end
  end.

Definition register_thread (g thr_ cold_ : Z) (r : Z) (m : machine)
  : option (Z * machine) :=
  let t := {| gc := g; thr := thr_; cold := cold_; specpdl_root := NULL;
              cons_ap := NULL; symbol_ap := NULL |} in
  igc_thread_list_push g t r m.

Definition deregister_thread (t : Z) (m : machine) : option (Z * machine) :=
  match thread_nodes m !! t with
  | None => None
  | Some node =>
      match igc_thread_list_remove (gc (d node)) t m with
      | Some (thread, m') => Some (thr thread, m')
      | None => None
      end
  end.

(** The fields [cons_pool] and [symbol_pool] of [struct igc], as the pool
    argument of [mps_ap_create_k]. *)
Definition cons_pool : Z := 0.

Definition symbol_pool : Z := 1.

(** What the environment answers during [igc_thread_add]: the result and
    thread of [mps_thread_reg], the block for the thread node, the two
    roots made and the blocks for their nodes, and the results and
    allocation points of the two [mps_ap_create_k]. *)
Record thread_setup : Type := {
  reg_res : Z;
  reg_thr : Z;
  thread_block : Z;
  thread_root : creation;
  specpdl_made : creation;
  cons_ap_res : Z;
  cons_ap_made : Z;
  symbol_ap_res : Z;
  symbol_ap_made : Z
}.

Section Lifecycle.

Variable global_igc : Z.
(** [specpdl] and [specpdl_end] of the current thread (eval.c). *)
Variable specpdl : Z.
Variable specpdl_end : Z.

Definition add_thread_root (t : Z) (c : creation) (m : machine) : result machine :=
  match thread_nodes m !! t with
  | None => Undefined
  | Some node =>
      let g := gc (d node) in
      let m := mps (RootCreateThread (thr (d node)) (cold (d node))
                      (create_res c) (created c)) m in
      if negb (create_res c =? Fix.MPS_RES_OK) then Abort (calls (arena_of m))
      else
        match register_root g (created c) (cold (d node)) NULL (node_block c)
                (st (arena_of m)) with
        | Some (_, st') =>
            Ok (with_arena {| st := st'; calls := calls (arena_of m) |} m)
        | None => Undefined
        end
  end.

Definition add_specpdl_root (t : Z) (c : creation) (m : machine) : result machine :=
  if negb (specpdl =? NULL) then
    match thread_nodes m !! t with
    | None => Undefined
    | Some node =>
        let g := gc (d node) in
        match make_ambig_root c specpdl specpdl_end (arena_of m) with
        | Ok (root_, a) =>
            match register_root g root_ specpdl specpdl_end (node_block c) (st a) with
            | Some (r, st') =>
                Ok {| arena_of := {| st := st'; calls := calls a |};
                      thread_nodes :=
                        <[t := set_d node (set_specpdl_root (d node) r)]> (thread_nodes m);
                      threads := threads m |}
            | None => Undefined
            end
        | Abort made => Abort made
        | Undefined => Undefined
        end
    end
  else Ok m.

Definition make_thread_aps (t : Z) (env : thread_setup) (m : machine)
  : result machine :=
  match thread_nodes m !! t with
  | None => Undefined
  | Some node =>
      let m := mps (ApCreate cons_pool (cons_ap_res env) (cons_ap_made env)) m in
      let node := set_d node (set_cons_ap (d node) (cons_ap_made env)) in
      let m := with_thread_nodes (<[t := node]> (thread_nodes m)) m in
      if negb (cons_ap_res env =? Fix.MPS_RES_OK) then Abort (calls (arena_of m))
      else
        let m := mps (ApCreate symbol_pool (symbol_ap_res env) (symbol_ap_made env)) m in
        let node := set_d node (set_symbol_ap (d node) (symbol_ap_made env)) in
        let m := with_thread_nodes (<[t := node]> (thread_nodes m)) m in
        if negb (symbol_ap_res env =? Fix.MPS_RES_OK) then Abort (calls (arena_of m))
        else Ok m
  end.

Definition free_thread_aps (t : Z) (m : machine) : result machine :=
  match thread_nodes m !! t with
  | None => Undefined
  | Some node =>
      let m := mps (ApDestroy (cons_ap (d node))) m in
      Ok (with_thread_nodes
            (<[t := set_d node (set_cons_ap (d node) NULL)]> (thread_nodes m)) m)
  end.

Definition igc_thread_add (cold_ : Z) (env : thread_setup) (m : machine)
  : result (Z * machine) :=
  let m := mps (ThreadReg (reg_res env) (reg_thr env)) m in
  if negb (reg_res env =? Fix.MPS_RES_OK) then Abort (calls (arena_of m))
  else
    match register_thread global_igc (reg_thr env) cold_ (thread_block env) m with
    | None => Undefined
    | Some (t, m) =>
        bind (add_thread_root t (thread_root env) m) (fun m =>
        bind (add_specpdl_root t (specpdl_made env) m) (fun m =>
        bind (make_thread_aps t env m) (fun m =>
        Ok (t, m))))
    end.

Definition igc_thread_remove (info : Z) (m : machine) : result machine :=
  let t := info in
  bind (free_thread_aps t m) (fun m =>
  match deregister_thread t m with
  | Some (thread, m') => Ok (mps (ThreadDereg thread) m')
  | None => Undefined
  end).

(** *** A thread added and removed again *)

(** The thread list of [g] is empty or starts at a node with no
    predecessor. *)
Definition thread_head (m : machine) (g first : Z) : Prop :=
  threads m !! g = Some first /\
  (first = NULL \/ exists n, thread_nodes m !! first = Some n /\ prev n = NULL).

(** [ns'] is [ns] with the node [r], holding [data], linked in front of
    [first]. *)
Definition linked_first (ns ns' : gmap Z igc_thread_list) (first r : Z)
  (data : igc_thread) : Prop :=
  ns' !! r = Some {| next := first; prev := NULL; d := data |} /\
  (first = NULL -> forall x, x <> r -> ns' !! x = ns !! x) /\
  (first <> NULL ->
   (forall x, x <> r -> x <> first -> ns' !! x = ns !! x) /\
   exists n, ns !! first = Some n /\ prev n = NULL /\
             ns' !! first = Some (set_prev n r)).

Lemma push_linked m g first data r :
  thread_head m g first ->
  r <> NULL ->
  thread_nodes m !! r = None ->
  exists m',
    igc_thread_list_push g data r m = Some (r, m') /\
    arena_of m' = arena_of m /\
    threads m' = <[g := r]> (threads m) /\
    r <> first /\
    linked_first (thread_nodes m) (thread_nodes m') first r data.
Proof.
  intros [Hhead Hfirst] Hr Hfresh. unfold igc_thread_list_push. rewrite Hhead.
  cbn [next]. destruct (Z.eqb_spec first NULL) as [E|E]; cbn [negb].
  - eexists. split; [reflexivity|]. cbn [arena_of threads thread_nodes].
    split; [reflexivity|]. split; [reflexivity|]. split; [congruence|].
    split; [apply lookup_insert_eq|]. split; [|intros H; now elim H].
    intros _ x Hx. now rewrite lookup_insert_ne by congruence.
  - destruct Hfirst as [Hnull|(n & Hn & Hprev)]; [now elim E|].
    assert (Hne : r <> first) by (intros ->; congruence).
    rewrite lookup_insert_ne by exact Hne. rewrite Hn.
    eexists. split; [reflexivity|]. cbn [arena_of threads thread_nodes].
    split; [reflexivity|]. split; [reflexivity|]. split; [exact Hne|].
    split; [|split; [intros H; now elim E|intros _; split]].
    + rewrite lookup_insert_ne by congruence. apply lookup_insert_eq.
    + intros x Hx Hxf. now rewrite !lookup_insert_ne by congruence.
    + exists n. split; [exact Hn|]. split; [exact Hprev|]. apply lookup_insert_eq.
Qed.

Lemma update_linked ns ns' first r data data' :
  r <> first ->
  linked_first ns ns' first r data ->
  linked_first ns (<[r := {| next := first; prev := NULL; d := data' |}]> ns')
    first r data'.
Proof.
  intros Hne (Hr & Hnull & Hfirst). split; [apply lookup_insert_eq|]. split.
  - intros E x Hx. rewrite lookup_insert_ne by congruence. now apply Hnull.
  - intros E. destruct (Hfirst E) as (Hsame & n & Hn & Hp & Hl). split.
    + intros x Hx Hxf. rewrite lookup_insert_ne by congruence. now apply Hsame.
    + exists n. split; [exact Hn|]. split; [exact Hp|].
      now rewrite lookup_insert_ne by exact Hne.
Qed.

Lemma remove_linked m' ns g first r data :
  linked_first ns (thread_nodes m') first r data ->
  ns !! r = None ->
  gc data = g ->
  is_Some (threads m' !! g) ->
  exists m'',
    deregister_thread r m' = Some (thr data, m'') /\
    arena_of m'' = arena_of m' /\
    thread_nodes m'' = ns /\
    threads m'' = <[g := first]> (threads m').
Proof.
  intros (Hr & Hnull & Hfirst) Hfresh Hg [hd Hhd].
  unfold deregister_thread, igc_thread_list_remove. rewrite Hr.
  cbn [d next prev]. rewrite Hg, Hhd. rewrite (Z.eqb_refl NULL). cbn [negb].
  destruct (Z.eqb_spec first NULL) as [E|E]; cbn [negb].
  - eexists. split; [reflexivity|]. cbn [arena_of threads thread_nodes].
    split; [reflexivity|]. split; [|reflexivity].
    apply map_eq. intros x. destruct (Z.eq_dec x r) as [->|Hx].
    + now rewrite lookup_delete_eq.
    + rewrite lookup_delete_ne by congruence. now apply Hnull.
  - destruct (Hfirst E) as (Hsame & n & Hn & Hp & Hl). rewrite Hl.
    eexists. split; [reflexivity|]. cbn [arena_of threads thread_nodes].
    split; [reflexivity|]. split; [|reflexivity].
    apply map_eq. intros x. destruct (Z.eq_dec x r) as [->|Hx].
    + now rewrite lookup_delete_eq.
    + rewrite lookup_delete_ne by congruence.
      destruct (Z.eq_dec x first) as [->|Hxf].
      * rewrite lookup_insert_eq, Hn. f_equal. destruct n as [nx pv dt].
        cbn in Hp. subst pv. reflexivity.
      * rewrite lookup_insert_ne by congruence. now apply Hsame.
Qed.

Lemma aps_then_remove env m' ns g first r data :
  linked_first ns (thread_nodes m') first r data ->
  r <> first ->
  ns !! r = None ->
  gc data = g ->
  is_Some (threads m' !! g) ->
  cons_ap_res env = Fix.MPS_RES_OK ->
  symbol_ap_res env = Fix.MPS_RES_OK ->
  exists m1 m2,
    make_thread_aps r env m' = Ok m1 /\
    thread_nodes m1 !! r
    = Some {| next := first; prev := NULL;
              d := set_symbol_ap (set_cons_ap data (cons_ap_made env))
                     (symbol_ap_made env) |} /\
    igc_thread_remove r m1 = Ok m2 /\
    thread_nodes m2 = ns /\
    threads m2 = <[g := first]> (threads m') /\
    st (arena_of m2) = st (arena_of m') /\
    calls (arena_of m2)
    = calls (arena_of m')
      ++ [ApCreate cons_pool Fix.MPS_RES_OK (cons_ap_made env);
          ApCreate symbol_pool Fix.MPS_RES_OK (symbol_ap_made env);
          ApDestroy (cons_ap_made env);
          ThreadDereg (thr data)].
Proof.
  intros Hlinked Hne Hfresh Hg Hhead Hcons Hsym.
  pose proof Hlinked as (Hr & _).
  eassert (H1 : make_thread_aps r env m' = Ok _).
  { unfold make_thread_aps. rewrite Hr, Hcons, Hsym.
    unfold mps, with_arena, with_thread_nodes, set_d.
    cbn [Z.eqb Fix.MPS_RES_OK negb next prev d arena_of thread_nodes threads st calls].
    rewrite insert_insert_eq. reflexivity. }
  match type of H1 with _ = Ok ?M => set (m1 := M) in * end.
  eassert (H2 : free_thread_aps r m1 = Ok _).
  { unfold free_thread_aps, m1. cbn [thread_nodes]. rewrite lookup_insert_eq.
    unfold mps, with_arena, with_thread_nodes, set_d.
    cbn [next prev d arena_of thread_nodes threads st calls
         set_symbol_ap set_cons_ap cons_ap].
    rewrite insert_insert_eq. reflexivity. }
  match type of H2 with
  | _ = Ok ?M =>
      destruct (remove_linked M ns g first r
                  (set_cons_ap (set_symbol_ap (set_cons_ap data (cons_ap_made env))
                                  (symbol_ap_made env)) NULL))
        as (m'' & Hrun & Harena & Hnodes & Hthreads)
  end.
  - cbn [thread_nodes]. now apply (update_linked ns (thread_nodes m') first r data).
  - exact Hfresh.
  - exact Hg.
  - exact Hhead.
  - exists m1, (mps (ThreadDereg (thr data)) m'').
    split; [exact H1|].
    split; [unfold m1; cbn [thread_nodes]; apply lookup_insert_eq|].
    split; [unfold igc_thread_remove; rewrite H2; cbn [bind]; now rewrite Hrun|].
    unfold mps, with_arena. cbn [arena_of thread_nodes threads st calls].
    split; [exact Hnodes|]. split; [exact Hthreads|]. rewrite Harena.
    cbn [arena_of st calls]. split; [reflexivity|].
    rewrite <- !app_assoc. reflexivity.
Qed.

(** The environment answers with successes and [xzalloc] with fresh
    blocks; about the root for [specpdl] only when there is a [specpdl]. *)
Definition setup_ok (env : thread_setup) (m : machine) : Prop :=
  reg_res env = Fix.MPS_RES_OK /\
  create_res (thread_root env) = Fix.MPS_RES_OK /\
  cons_ap_res env = Fix.MPS_RES_OK /\
  symbol_ap_res env = Fix.MPS_RES_OK /\
  thread_block env <> NULL /\
  thread_nodes m !! thread_block env = None /\
  node_block (thread_root env) <> NULL /\
  nodes (st (arena_of m)) !! node_block (thread_root env) = None /\
  (specpdl <> NULL ->
   create_res (specpdl_made env) = Fix.MPS_RES_OK /\
   node_block (specpdl_made env) <> NULL /\
   nodes (st (arena_of m)) !! node_block (specpdl_made env) = None /\
   node_block (specpdl_made env) <> node_block (thread_root env)).

(** The nodes [igc_thread_add] puts into the root registry, and the calls
    it makes for their roots. *)
Definition roots_added (env : thread_setup) : list Z :=
  (if specpdl =? NULL then [] else [node_block (specpdl_made env)])
  ++ [node_block (thread_root env)].

Definition specpdl_calls (env : thread_setup) : list mps_call :=
  if specpdl =? NULL then []
  else [RootCreate specpdl specpdl_end Fix.MPS_RES_OK (created (specpdl_made env))].

Lemma data_at_fresh s x : data_at s x = None -> nodes s !! x = None.
Proof.
  unfold data_at. destruct (nodes s !! x); [discriminate | reflexivity].
Qed.

(** X26: [igc_thread_add] registers the thread with MPS and in the thread
    list, registers a root for its stack and, when there is one, for its
    [specpdl], and creates its two allocation points; [igc_thread_remove]
    of the handle destroys the cons allocation point, takes the node off
    the list and deregisters the thread, and nothing more: the symbol
    allocation point is not destroyed, and the roots stay registered. *)
Theorem thread_add_then_remove cold_ env l first m :
  registry (st (arena_of m)) global_igc l ->
  thread_head m global_igc first ->
  setup_ok env m ->
  exists m1 m2,
    igc_thread_add cold_ env m = Ok (thread_block env, m1) /\
    (exists node,
       thread_nodes m1 !! thread_block env = Some node /\
       d node = {| gc := global_igc; thr := reg_thr env; cold := cold_;
                   specpdl_root := if specpdl =? NULL then NULL
                                   else node_block (specpdl_made env);
                   cons_ap := cons_ap_made env;
                   symbol_ap := symbol_ap_made env |}) /\
    igc_thread_remove (thread_block env) m1 = Ok m2 /\
    thread_nodes m2 = thread_nodes m /\
    threads m2 = threads m /\
    registry (st (arena_of m2)) global_igc (roots_added env ++ l) /\
    calls (arena_of m2)
    = calls (arena_of m)
      ++ [ThreadReg Fix.MPS_RES_OK (reg_thr env);
          RootCreateThread (reg_thr env) cold_ Fix.MPS_RES_OK
            (created (thread_root env))]
      ++ specpdl_calls env
      ++ [ApCreate cons_pool Fix.MPS_RES_OK (cons_ap_made env);
          ApCreate symbol_pool Fix.MPS_RES_OK (symbol_ap_made env);
          ApDestroy (cons_ap_made env);
          ThreadDereg (reg_thr env)].
Proof.
  intros Hreg Hhead (Hres & Hroot & Hcons & Hsym & Hnn & Hfresh & Hbn & Hbfresh & Hspec).
  set (t := thread_block env) in *.
  set (data0 := {| gc := global_igc; thr := reg_thr env; cold := cold_;
                   specpdl_root := NULL; cons_ap := NULL; symbol_ap := NULL |}).
  set (m0 := mps (ThreadReg Fix.MPS_RES_OK (reg_thr env)) m).
  destruct (push_linked m0 global_igc first data0 t Hhead Hnn Hfresh)
    as (ma & Hpush & Harena & Hthreads & Hne & Hlinked).
  destruct (register_root_registry (st (arena_of m)) global_igc l
              (node_block (thread_root env)) (created (thread_root env))
              cold_ NULL Hreg Hbn Hbfresh)
    as (st1 & Hrun1 & Hreg1 & Hdata1 & Hsame1 & _).
  pose proof Hlinked as (Ht & _).
  assert (Hstart : igc_thread_add cold_ env m
                   = bind (add_thread_root t (thread_root env) ma) (fun m =>
                     bind (add_specpdl_root t (specpdl_made env) m) (fun m =>
                     bind (make_thread_aps t env m) (fun m => Ok (t, m))))).
  { unfold igc_thread_add. rewrite Hres. cbn [Z.eqb Fix.MPS_RES_OK negb].
    fold m0. unfold register_thread. fold data0. fold t. now rewrite Hpush. }
  eassert (Hadd1 : add_thread_root t (thread_root env) ma = Ok _).
  { unfold add_thread_root. rewrite Ht. cbn [d gc thr cold data0]. rewrite Hroot.
    cbn [Z.eqb Fix.MPS_RES_OK negb]. unfold mps at 1 2, with_arena.
    cbn [arena_of st calls]. rewrite Harena. unfold m0, mps, with_arena.
    cbn [arena_of st calls]. rewrite Hrun1. reflexivity. }
  match type of Hadd1 with _ = Ok ?M => set (mb := M) in * end.
  assert (Hthreads_b : threads mb = <[global_igc := t]> (threads m))
    by (unfold mb, with_arena; cbn [threads]; exact Hthreads).
  destruct Hhead as [Hhead _].
  destruct (specpdl =? NULL) eqn:Eb.
  - assert (Hadd2 : add_specpdl_root t (specpdl_made env) mb = Ok mb)
      by (unfold add_specpdl_root; now rewrite Eb).
    destruct (aps_then_remove env mb (thread_nodes m) global_igc first t data0)
      as (m1 & m2 & Haps & Hnode & Hrem & Hnodes2 & Hthreads2 & Hst2 & Hcalls2);
      [exact Hlinked | exact Hne | exact Hfresh | reflexivity
      | rewrite Hthreads_b, lookup_insert_eq; now eexists
      | exact Hcons | exact Hsym |].
    exists m1, m2.
    split; [rewrite Hstart, Hadd1; cbn [bind]; rewrite Hadd2; cbn [bind];
            now rewrite Haps|].
    split; [eexists; split; [exact Hnode | reflexivity]|].
    split; [exact Hrem|]. split; [exact Hnodes2|].
    split; [rewrite Hthreads2, Hthreads_b, insert_insert_eq; now apply insert_id|].
    unfold roots_added, specpdl_calls. rewrite Eb.
    split; [rewrite Hst2; exact Hreg1|].
    rewrite Hcalls2. unfold mb, with_arena, mps. cbn [arena_of calls].
    rewrite ?Harena. unfold m0, mps, with_arena. cbn [arena_of calls data0 thr].
    rewrite <- !app_assoc. reflexivity.
  - destruct Hspec as (Hres2 & Hb2n & Hb2fresh & Hb2ne);
      [intros E; now rewrite E in Eb|].
    destruct (register_root_registry st1 global_igc
                (node_block (thread_root env) :: l)
                (node_block (specpdl_made env)) (created (specpdl_made env))
                specpdl specpdl_end Hreg1 Hb2n)
      as (st2 & Hrun2 & Hreg2 & _).
    { apply data_at_fresh. rewrite Hsame1 by exact Hb2ne.
      unfold data_at. now rewrite Hb2fresh. }
    eassert (Hadd2 : add_specpdl_root t (specpdl_made env) mb = Ok _).
    { unfold add_specpdl_root. rewrite Eb. cbn [negb].
      unfold mb at 1, with_arena. cbn [thread_nodes]. rewrite Ht.
      unfold make_ambig_root. rewrite Hres2. cbn [Z.eqb Fix.MPS_RES_OK negb].
      unfold mb, with_arena. cbn [arena_of st calls d gc data0 thread_nodes threads].
      rewrite Hrun2. reflexivity. }
    match type of Hadd2 with _ = Ok ?M => set (mc := M) in * end.
    destruct (aps_then_remove env mc (thread_nodes m) global_igc first t
                (set_specpdl_root data0 (node_block (specpdl_made env))))
      as (m1 & m2 & Haps & Hnode & Hrem & Hnodes2 & Hthreads2 & Hst2 & Hcalls2);
      [ unfold mc; cbn [thread_nodes set_d next prev d];
        now apply (update_linked (thread_nodes m) (thread_nodes ma) first t data0)
      | exact Hne | exact Hfresh | reflexivity
      | unfold mc; cbn [threads]; rewrite Hthreads, lookup_insert_eq; now eexists
      | exact Hcons | exact Hsym |].
    exists m1, m2.
    split; [rewrite Hstart, Hadd1; cbn [bind]; rewrite Hadd2; cbn [bind];
            now rewrite Haps|].
    split; [eexists; split; [exact Hnode | reflexivity]|].
    split; [exact Hrem|]. split; [exact Hnodes2|].
    split; [rewrite Hthreads2; unfold mc; cbn [threads];
            rewrite Hthreads, insert_insert_eq; now apply insert_id|].
    unfold roots_added, specpdl_calls. rewrite Eb.
    split; [rewrite Hst2; exact Hreg2|].
    rewrite Hcalls2. unfold mc. cbn [arena_of calls].
    rewrite ?Harena. unfold m0, mps, with_arena.
    cbn [arena_of calls data0 thr set_specpdl_root].
    rewrite <- !app_assoc. reflexivity.
Qed.

(** *** The binding stack reallocated *)

(** [igc_on_grow_specpdl ()], where [t] is [current_thread->gc_info]. *)
Definition igc_on_grow_specpdl (t : Z) (c : creation) (m : machine) : result machine :=
  match thread_nodes m !! t with
  | None => Undefined
  | Some node =>
      let m := mps ArenaPark m in
      match remove_root (specpdl_root (d node)) (arena_of m) with
      | Ok a =>
          let m := with_arena a m in
          let m := with_thread_nodes
                     (<[t := set_d node (set_specpdl_root (d node) NULL)]>
                        (thread_nodes m)) m in
          bind (add_specpdl_root t c m) (fun m => Ok (mps ArenaRelease m))
      | Abort made => Abort made
      | Undefined => Undefined
      end
  end.

(** X29: [igc_on_grow_specpdl] for a thread whose [specpdl] root is
    registered parks the arena, destroys that root, creates a root for the
    [specpdl] of now, registers it in front of the roots that remain,
    stores the new handle in the thread and releases the arena; the list of
    threads is not touched. *)
Theorem grow_specpdl_replaces t c l node m :
  thread_nodes m !! t = Some node ->
  registry (st (arena_of m)) (gc (d node)) l ->
  owned (st (arena_of m)) (gc (d node)) l ->
  In (specpdl_root (d node)) l ->
  specpdl <> NULL ->
  create_res c = Fix.MPS_RES_OK ->
  node_block c <> NULL ->
  nodes (st (arena_of m)) !! node_block c = None
  \/ node_block c = specpdl_root (d node) ->
  exists m',
    igc_on_grow_specpdl t c m = Ok m' /\
    thread_nodes m'
    = <[t := set_d node (set_specpdl_root (d node) (node_block c))]> (thread_nodes m) /\
    threads m' = threads m /\
    registry (st (arena_of m')) (gc (d node))
      (node_block c :: without (specpdl_root (d node)) l) /\
    data_at (st (arena_of m')) (node_block c)
    = Some {| Registry.gc := gc (d node); root := created c;
              start := specpdl; end_ := specpdl_end |} /\
    calls (arena_of m')
    = calls (arena_of m)
      ++ [ArenaPark;
          RootDestroy (root_at (st (arena_of m)) (specpdl_root (d node)));
          RootCreate specpdl specpdl_end Fix.MPS_RES_OK (created c);
          ArenaRelease].
Proof.
  intros Ht Hreg Hown Hin Hspec Hres Hnn Hfresh.
  set (r := specpdl_root (d node)) in *. set (g := gc (d node)) in *.
  apply in_split in Hin. destruct Hin as (l1 & l2 & ->).
  pose proof (registry_NoDup _ _ _ Hreg) as Hnd.
  rewrite (without_split r l1 l2 Hnd).
  destruct (deregister_between (st (arena_of m)) g l1 r l2 Hreg Hown)
    as (data & st' & Hdata & Hrun & Hreg' & Hown' & Hgone & Hsame & _).
  assert (Hfresh' : nodes st' !! node_block c = None).
  { destruct Hfresh as [Hfresh | ->]; [|exact Hgone].
    destruct (Z.eq_dec (node_block c) r) as [->|Hne]; [exact Hgone|].
    apply data_at_fresh. rewrite Hsame by exact Hne.
    unfold data_at. now rewrite Hfresh. }
  destruct (register_root_registry st' g (l1 ++ l2) (node_block c) (created c)
              specpdl specpdl_end Hreg' Hnn Hfresh')
    as (st1 & Hrun1 & Hreg1 & Hdata1 & _).
  apply Z.eqb_neq in Hspec.
  unfold igc_on_grow_specpdl. rewrite Ht. fold r.
  unfold remove_root, mps, with_arena, with_thread_nodes.
  cbn [arena_of thread_nodes threads st calls]. rewrite Hrun.
  unfold add_specpdl_root. rewrite Hspec. cbn [negb thread_nodes].
  rewrite lookup_insert_eq. unfold make_ambig_root. rewrite Hres.
  unfold mps_root_destroy, set_d.
  cbn [Z.eqb Fix.MPS_RES_OK negb arena_of thread_nodes threads st calls
       next prev d gc set_specpdl_root].
  fold g. rewrite Hrun1. cbn [bind].
  eexists. split; [reflexivity|]. cbn [arena_of thread_nodes threads st calls].
  split; [now rewrite insert_insert_eq|]. split; [reflexivity|].
  split; [exact Hreg1|]. split; [exact Hdata1|].
  unfold root_at. rewrite Hdata. rewrite <- !app_assoc. reflexivity.
Qed.

End Lifecycle.

(** The main thread registered at node 48, the registry of [one_root], a
    [specpdl] at 6000, and a second thread coming in. *)
Definition main_thread_only : machine :=
  {| arena_of := at_rest one_root;
     thread_nodes :=
       {[ 48 := {| next := NULL; prev := NULL;
                   d := {| gc := 1; thr := 900; cold := 5000; specpdl_root := NULL;
                           cons_ap := 910; symbol_ap := 911 |} |} ]};
     threads := {[ 1 := 48 ]} |}.

Definition second_thread : thread_setup :=
  {| reg_res := Fix.MPS_RES_OK; reg_thr := 901; thread_block := 64;
     thread_root := {| create_res := Fix.MPS_RES_OK; created := 701; node_block := 32 |};
     specpdl_made := {| create_res := Fix.MPS_RES_OK; created := 702; node_block := 80 |};
     cons_ap_res := Fix.MPS_RES_OK; cons_ap_made := 920;
     symbol_ap_res := Fix.MPS_RES_OK; symbol_ap_made := 921 |}.

Lemma main_thread_head : thread_head main_thread_only 1 48.
Proof.
  split; [reflexivity|]. right. eexists. split; reflexivity.
Qed.

Lemma second_thread_ok : setup_ok 6000 second_thread main_thread_only.
Proof.
  unfold setup_ok. cbn.
  repeat (split; [first [reflexivity | discriminate]|]).
  discriminate.
Qed.

Lemma thread_add_then_remove_witness :
  exists m1 m2,
    igc_thread_add 1 6000 7000 5500 second_thread main_thread_only = Ok (64, m1) /\
    (exists node,
       thread_nodes m1 !! 64 = Some node /\
       d node = {| gc := 1; thr := 901; cold := 5500; specpdl_root := 80;
                   cons_ap := 920; symbol_ap := 921 |}) /\
    igc_thread_remove 64 m1 = Ok m2 /\
    thread_nodes m2 = thread_nodes main_thread_only /\
    threads m2 = threads main_thread_only /\
    registry (st (arena_of m2)) 1 ([80; 32] ++ [16]) /\
    calls (arena_of m2)
    = [] ++ [ThreadReg Fix.MPS_RES_OK 901;
             RootCreateThread 901 5500 Fix.MPS_RES_OK 701]
         ++ [RootCreate 6000 7000 Fix.MPS_RES_OK 702]
         ++ [ApCreate cons_pool Fix.MPS_RES_OK 920;
             ApCreate symbol_pool Fix.MPS_RES_OK 921;
             ApDestroy 920;
             ThreadDereg 901].
Proof.
  exact (thread_add_then_remove 1 6000 7000 5500 second_thread [16] 48
           main_thread_only one_root_registry main_thread_head second_thread_ok).
Defined.

(** A thread at node 48 whose [specpdl] root is the node 16 of
    [two_roots]; the binding stack has moved to 6000 and grown to 9000. *)
Definition bound_node : igc_thread_list :=
  {| next := NULL; prev := NULL;
     d := {| gc := 1; thr := 900; cold := 5000; specpdl_root := 16;
             cons_ap := 910; symbol_ap := 911 |} |}.

Definition bound_thread : machine :=
  {| arena_of := at_rest two_roots;
     thread_nodes := {[ 48 := bound_node ]};
     threads := {[ 1 := 48 ]} |}.

Lemma grow_specpdl_replaces_witness :
  exists m',
    igc_on_grow_specpdl 6000 9000 48 made_again bound_thread = Ok m' /\
    thread_nodes m'
    = <[48 := set_d bound_node (set_specpdl_root (d bound_node) 16)]>
        (thread_nodes bound_thread) /\
    threads m' = threads bound_thread /\
    registry (st (arena_of m')) 1 (16 :: without 16 [32; 16]) /\
    data_at (st (arena_of m')) 16
    = Some {| Registry.gc := 1; root := 702; start := 6000; end_ := 9000 |} /\
    calls (arena_of m')
    = [] ++ [ArenaPark; RootDestroy (root_at two_roots 16);
             RootCreate 6000 9000 Fix.MPS_RES_OK 702; ArenaRelease].
Proof.
  exact (grow_specpdl_replaces 6000 9000 48 made_again [32; 16] bound_node bound_thread
           eq_refl two_roots_registry two_roots_owned ltac:(right; now left)
           ltac:(discriminate) eq_refl ltac:(discriminate) (or_intror eq_refl)).
Defined.

End Threads.

(** ** The symbol scanner *)

Module SymbolScan.
Import Mem Fix Format.

Section Symbols.

Variables IGC_FWDSIG IGC_PADSIG : Z.
Variables Lisp_Symbol Lisp_Int0 Lisp_Int1 : Z.
Variable lispsym : Z.
Variable SS : Type.
Variable MPS_FIX1 : SS -> Z -> bool * SS.
Variable MPS_FIX2 : SS -> Z -> Z * Z * SS.

(** [struct Lisp_Symbol] (lisp.h): its size, the offsets of the slots the
    scanner names, the reader of the [redirect] bit field of the symbol at
    an address, and [SYMBOL_PLAINVAL]. *)
Variable sizeof_Lisp_Symbol : Z.
Variables offsetof_name offsetof_value offsetof_function : Z.
Variables offsetof_plist offsetof_package : Z.
Variable redirect : mem -> Z -> Z.
Variable SYMBOL_PLAINVAL : Z.

Local Abbreviation FIX :=
  (IGC_FIX Lisp_Symbol Lisp_Int0 Lisp_Int1 lispsym SS MPS_FIX1 MPS_FIX2).
Local Abbreviation fix_all :=
  (Format.fix_all Lisp_Symbol Lisp_Int0 Lisp_Int1 lispsym SS MPS_FIX1 MPS_FIX2).
Local Abbreviation starts_with_marker :=
  (Format.starts_with_marker IGC_FWDSIG IGC_PADSIG).

Definition symbol_skip (addr : Z) : Z := addr + sizeof_Lisp_Symbol.

(** The [for] loop of [symbol_scan]; [sym] is the loop variable. *)
Fixpoint symbol_scan_loop (fuel : nat) (sym limit : Z) (m : mem) (ss : SS)
  : outcome (scan_result SS) :=
  if sym <? limit then
    match fuel with
    | O => OutOfFuel
    | S k =>
        if negb (is_forwarded IGC_FWDSIG m sym =? NULL) || is_padding IGC_PADSIG m sym
        then symbol_scan_loop k (sym + sizeof_Lisp_Symbol) limit m ss
        else
          match
            and_then (FIX (sym + offsetof_name) m ss) (fun m ss =>
            and_then (if redirect m sym =? SYMBOL_PLAINVAL
                      then FIX (sym + offsetof_value) m ss
                      else Continue m ss) (fun m ss =>
            and_then (FIX (sym + offsetof_function) m ss) (fun m ss =>
            and_then (FIX (sym + offsetof_plist) m ss)
                     (FIX (sym + offsetof_package)))))
          with
          | Continue m' ss' =>
              symbol_scan_loop k (sym + sizeof_Lisp_Symbol) limit m' ss'
          | Return res m' ss' => Done (Return res m' ss')
          end
    end
  else Done (Continue m ss).

Definition symbol_scan (base limit : Z) (m : mem) (ss : SS) : outcome (Z * mem * SS) :=
  match symbol_scan_loop (Z.to_nat (limit - base)) base limit m ss with
  | Done (Continue m' ss') => Done (MPS_RES_OK, m', ss')
  | Done (Return res m' ss') => Done (res, m', ss')
  | Aborted => Aborted
  | OutOfFuel => OutOfFuel
  end.

(** The symbols of a range in address order, and the slots of a symbol
    the scanner fixes: none for one that starts with a marker, else name,
    the value when the symbol holds a plain value, function, plist and
    package. *)
Definition symbol_count (base limit : Z) : nat :=
  Z.to_nat ((limit - base + sizeof_Lisp_Symbol - 1) / sizeof_Lisp_Symbol).

Fixpoint symbols_from (n : nat) (sym : Z) : list Z :=
  match n with
  | O => []
  | S k => sym :: symbols_from k (symbol_skip sym)
  end.

Definition symbol_addrs (base limit : Z) : list Z :=
  symbols_from (symbol_count base limit) base.

Definition live_slots (m : mem) (sym : Z) : list Z :=
  [sym + offsetof_name]
  ++ (if redirect m sym =? SYMBOL_PLAINVAL then [sym + offsetof_value] else [])
  ++ [sym + offsetof_function; sym + offsetof_plist; sym + offsetof_package].

Definition symbol_slots (m : mem) (sym : Z) : list Z :=
  if starts_with_marker m sym then [] else live_slots m sym.

Definition symbol_slots_to_fix (m : mem) (base limit : Z) : list Z :=
  concat (map (symbol_slots m) (symbol_addrs base limit)).

(** What lisp.h lays down: a symbol has room for a marker, its slots lie
    inside it, and the [redirect] bits are bits of the symbol that are not
    in its name slot. *)
Hypothesis marker_fits : 2 * word_size <= sizeof_Lisp_Symbol.

Hypothesis slots_inside : forall o,
  In o [offsetof_name; offsetof_value; offsetof_function;
        offsetof_plist; offsetof_package] ->
  0 <= o /\ o + word_size <= sizeof_Lisp_Symbol.

Hypothesis redirect_reads : forall m m' sym,
  (forall y, sym <= y < sym + sizeof_Lisp_Symbol ->
             y < sym + offsetof_name \/ sym + offsetof_name + word_size <= y ->
             m' y = m y) ->
  redirect m' sym = redirect m sym.

Lemma size_positive : 0 < sizeof_Lisp_Symbol.
Proof. unfold word_size, word_bytes in marker_fits. simpl in marker_fits. lia. Qed.

Lemma symbol_count_done base limit :
  limit <= base -> symbol_count base limit = O.
Proof.
  intros H. pose proof size_positive as Hs. unfold symbol_count.
  assert ((limit - base + sizeof_Lisp_Symbol - 1) / sizeof_Lisp_Symbol < 1); [|lia].
  apply Z.div_lt_upper_bound; lia.
Qed.

Lemma symbol_count_step base limit :
  base < limit ->
  symbol_count base limit = S (symbol_count (symbol_skip base) limit).
Proof.
  intros H. pose proof size_positive as Hs. unfold symbol_count, symbol_skip.
  replace (limit - base + sizeof_Lisp_Symbol - 1)
    with ((limit - (base + sizeof_Lisp_Symbol) + sizeof_Lisp_Symbol - 1)
          + 1 * sizeof_Lisp_Symbol) by lia.
  rewrite Z.div_add by lia.
  assert (0 <= (limit - (base + sizeof_Lisp_Symbol) + sizeof_Lisp_Symbol - 1)
               / sizeof_Lisp_Symbol) by (apply Z.div_pos; lia).
  lia.
Qed.

Lemma symbol_count_fuel base limit :
  (symbol_count base limit <= Z.to_nat (limit - base))%nat.
Proof.
  pose proof size_positive as Hs.
  destruct (Z_lt_le_dec base limit) as [Hlt|Hge].
  - unfold symbol_count.
    assert ((limit - base + sizeof_Lisp_Symbol - 1) / sizeof_Lisp_Symbol
            <= limit - base); [|lia].
    apply Z.div_le_upper_bound; nia.
  - rewrite symbol_count_done by exact Hge. lia.
Qed.

Lemma live_slots_inside m sym x :
  In x (live_slots m sym) -> sym <= x /\ x + word_size <= sym + sizeof_Lisp_Symbol.
Proof.
  unfold live_slots. intros H.
  assert (Ho : exists o, x = sym + o /\
                         In o [offsetof_name; offsetof_value; offsetof_function;
                               offsetof_plist; offsetof_package]).
  { destruct (redirect m sym =? SYMBOL_PLAINVAL); simpl in H;
      repeat (destruct H as [<-|H]; [eexists; split; [reflexivity|]; simpl; tauto|]);
      destruct H. }
  destruct Ho as (o & -> & Ho). destruct (slots_inside o Ho). lia.
Qed.

(** The fixes of one symbol are the fix protocol over its live slots. *)
Lemma scan_one_symbol m ss sym :
  and_then (FIX (sym + offsetof_name) m ss) (fun m ss =>
  and_then (if redirect m sym =? SYMBOL_PLAINVAL
            then FIX (sym + offsetof_value) m ss
            else Continue m ss) (fun m ss =>
  and_then (FIX (sym + offsetof_function) m ss) (fun m ss =>
  and_then (FIX (sym + offsetof_plist) m ss)
           (FIX (sym + offsetof_package)))))
  = fix_all (live_slots m sym) m ss.
Proof.
  unfold live_slots. cbn [app Format.fix_all].
  pose proof (FIX_outside Lisp_Symbol Lisp_Int0 Lisp_Int1 lispsym SS MPS_FIX1 MPS_FIX2
                (sym + offsetof_name) m ss) as Hname.
  destruct (FIX (sym + offsetof_name) m ss) as [m1 ss1|res m1 ss1]; [|reflexivity].
  cbn [and_then result_mem] in *.
  rewrite (redirect_reads m m1 sym) by (intros y _ Hy; now apply Hname).
  destruct (redirect m sym =? SYMBOL_PLAINVAL); cbn [app Format.fix_all and_then].
  - destruct (FIX (sym + offsetof_value) m1 ss1) as [m2 ss2|]; [|reflexivity].
    cbn [and_then].
    destruct (FIX (sym + offsetof_function) m2 ss2) as [m3 ss3|]; [|reflexivity].
    cbn [and_then].
    destruct (FIX (sym + offsetof_plist) m3 ss3) as [m4 ss4|]; [|reflexivity].
    cbn [and_then]. now destruct (FIX (sym + offsetof_package) m4 ss4).
  - destruct (FIX (sym + offsetof_function) m1 ss1) as [m3 ss3|]; [|reflexivity].
    cbn [and_then].
    destruct (FIX (sym + offsetof_plist) m3 ss3) as [m4 ss4|]; [|reflexivity].
    cbn [and_then]. now destruct (FIX (sym + offsetof_package) m4 ss4).
Qed.

Lemma symbol_slots_ext m m' sym :
  (forall y, sym <= y -> m' y = m y) ->
  symbol_slots m' sym = symbol_slots m sym.
Proof.
  intros H. unfold symbol_slots, live_slots.
  rewrite (starts_with_marker_ext IGC_FWDSIG IGC_PADSIG m m' sym H).
  rewrite (redirect_reads m m' sym) by (intros y Hy _; apply H; lia).
  reflexivity.
Qed.

Lemma symbols_from_slots_ext n : forall m m' sym,
  (forall y, sym <= y -> m' y = m y) ->
  concat (map (symbol_slots m') (symbols_from n sym))
  = concat (map (symbol_slots m) (symbols_from n sym)).
Proof.
  pose proof size_positive as Hs.
  induction n as [|k IH]; intros m m' sym H; simpl; [reflexivity|].
  rewrite (symbol_slots_ext m m' sym H). f_equal. apply IH.
  intros y Hy. apply H. unfold symbol_skip in Hy. lia.
Qed.

Lemma symbol_scan_loop_spec : forall fuel sym limit m ss,
  (symbol_count sym limit <= fuel)%nat ->
  symbol_scan_loop fuel sym limit m ss
  = Done (fix_all (symbol_slots_to_fix m sym limit) m ss).
Proof.
  induction fuel as [|k IH]; intros sym limit m ss Hfuel.
  - destruct (Z_lt_le_dec sym limit) as [Hlt|Hge].
    + rewrite symbol_count_step in Hfuel by exact Hlt. lia.
    + simpl. apply Z.ltb_ge in Hge as Hb. rewrite Hb.
      unfold symbol_slots_to_fix, symbol_addrs. now rewrite symbol_count_done.
  - cbn [symbol_scan_loop]. destruct (sym <? limit) eqn:Hb.
    + apply Z.ltb_lt in Hb.
      pose proof (symbol_count_step sym limit Hb) as Hstep.
      unfold symbol_slots_to_fix, symbol_addrs. rewrite Hstep.
      cbn [symbols_from map concat].
      rewrite marker_test. unfold symbol_slots at 1.
      fold (symbol_skip sym).
      destruct (starts_with_marker m sym).
      * rewrite IH by lia. reflexivity.
      * rewrite scan_one_symbol, fix_all_app.
        pose proof (fix_all_outside Lisp_Symbol Lisp_Int0 Lisp_Int1 lispsym SS
                      MPS_FIX1 MPS_FIX2 (live_slots m sym) m ss) as Hframe.
        destruct (fix_all (live_slots m sym) m ss) as [m' ss'|res m' ss'] eqn:E;
          [|reflexivity].
        cbn [and_then result_mem] in *. rewrite IH by lia.
        unfold symbol_slots_to_fix, symbol_addrs.
        f_equal. f_equal. apply symbols_from_slots_ext.
        intros y Hy. apply Hframe. intros x Hx.
        destruct (live_slots_inside m sym x Hx). unfold symbol_skip in Hy. lia.
    + apply Z.ltb_ge in Hb. unfold symbol_slots_to_fix, symbol_addrs.
      now rewrite symbol_count_done.
Qed.

(** X27: [symbol_scan] returns, and what it has done is the fix protocol
    applied, in address order, to the name, the value when the symbol holds
    a plain value, the function, the plist and the package slot of every
    symbol of the range that does not start with a marker, up to the first
    slot whose fix fails, whose code it returns; [MPS_RES_OK] when none
    fails. No byte outside these slots is written. *)
Theorem symbol_scan_fixes_slots base limit m ss :
  let slots := symbol_slots_to_fix m base limit in
  symbol_scan base limit m ss = Done (scan_code SS (fix_all slots m ss)) /\
  (forall y, (forall x, In x slots -> y < x \/ x + word_size <= y) ->
             result_mem (fix_all slots m ss) y = m y).
Proof.
  split.
  - unfold symbol_scan.
    rewrite symbol_scan_loop_spec by apply symbol_count_fuel.
    now destruct (fix_all _ m ss).
  - intros y Hy. now apply fix_all_outside.
Qed.

End Symbols.

Import Emacs.

(** A layout of [struct Lisp_Symbol] on a 64-bit machine: a word of bit
    fields, of which bits 1 and 2 are [redirect], then name, value,
    function, plist and package. *)
Definition word_layout_redirect (m : mem) (sym : Z) : Z :=
  Z.land (Z.shiftr (m sym) 1) 3.

Lemma word_layout_slots o :
  In o [8; 16; 24; 32; 40] -> 0 <= o /\ o + word_size <= 48.
Proof.
  unfold word_size, word_bytes. simpl. intuition lia.
Qed.

Lemma word_layout_redirect_reads (m m' : mem) sym :
  (forall y, sym <= y < sym + 48 ->
             y < sym + 8 \/ sym + 8 + word_size <= y -> m' y = m y) ->
  word_layout_redirect m' sym = word_layout_redirect m sym.
Proof.
  intros H. unfold word_layout_redirect. rewrite (H sym) by lia. reflexivity.
Qed.

(** A symbol at 0 whose name is the cons at 8192, and a padding object
    after it. *)
Definition symbol_then_padding : mem :=
  store_word (store_word zeroed 8 (8192 + Lisp_Cons)) 48 IGC_PADSIG.

Lemma symbol_scan_fixes_slots_witness :
  let scan := symbol_scan IGC_FWDSIG IGC_PADSIG Lisp_Symbol Lisp_Int0 Lisp_Int1
                lispsym asked FIX1_all FIX2_move 48 8 16 24 32 40
                word_layout_redirect 0 in
  let slots := symbol_slots_to_fix IGC_FWDSIG IGC_PADSIG 48 8 16 24 32 40
                 word_layout_redirect 0 symbol_then_padding 0 96 in
  let fixed := Format.fix_all Lisp_Symbol Lisp_Int0 Lisp_Int1 lispsym asked
                 FIX1_all FIX2_move slots symbol_then_padding [] in
  scan 0 96 symbol_then_padding [] = Done (scan_code asked fixed) /\
  (forall y, (forall x, In x slots -> y < x \/ x + word_size <= y) ->
             result_mem fixed y = symbol_then_padding y).
Proof.
  exact (symbol_scan_fixes_slots IGC_FWDSIG IGC_PADSIG Lisp_Symbol Lisp_Int0 Lisp_Int1
           lispsym asked FIX1_all FIX2_move 48 8 16 24 32 40
           word_layout_redirect 0
           ltac:(unfold word_size, word_bytes; simpl; lia)
           word_layout_slots word_layout_redirect_reads 0 96 symbol_then_padding []).
Defined.

(** The slots fixed in [symbol_then_padding]: those of the symbol, none of
    the padding object. *)
Lemma symbol_then_padding_slots :
  symbol_slots_to_fix IGC_FWDSIG IGC_PADSIG 48 8 16 24 32 40
    word_layout_redirect 0 symbol_then_padding 0 96
  = [8; 16; 24; 32; 40].
Proof. vm_compute. reflexivity. Qed.

End SymbolScan.
